(** * libconfig: numeric literal codec ([lib/util.c]) and setting copier
      ([contrib/copy_setting.c])

    A shallow embedding of the two C translation units and the properties
    of their functions.  Machine integers are [Z] with the wrap-around
    written out, C strings are [string] (the bytes before the terminating
    NUL), the setting tree lives in an explicit heap of records addressed
    by index, and the recursive copy functions thread that heap. *)

From Stdlib Require Import ZArith Lia Ascii String List Bool.
From Stdlib Require Import SpecFloat DecimalString.
From Stdlib Require DecimalPos.
From stdpp Require Import base tactics option list numbers.

Local Open Scope string_scope.
Local Open Scope Z_scope.

(** ** Characters and C strings *)

Definition code (c : ascii) : Z := Z.of_N (N_of_ascii c).

(** [*p] for a pointer into a NUL-terminated string: the first byte of the
    remaining text, or NUL at its end. *)
Definition deref (p : string) : ascii :=
  match p with
  | EmptyString => "000"%char
  | String c _ => c
  end.

(** [p + 1] / [++p] inside a string. *)
Definition advance (p : string) : string :=
  match p with
  | EmptyString => EmptyString
  | String _ q => q
  end.

(** The first [n] characters of a text, and the text after them. *)
Fixpoint string_take (n : nat) (s : string) : string :=
  match n, s with
  | S m, String c r => String c (string_take m r)
  | _, _ => EmptyString
  end.

Fixpoint string_drop (n : nat) (s : string) : string :=
  match n, s with
  | S m, String _ r => string_drop m r
  | _, _ => s
  end.

(** [n] characters ['0']. *)
Fixpoint zeros (n : nat) : string :=
  match n with
  | O => EmptyString
  | S m => String "0" (zeros m)
  end.

Definition two64 : Z := 2 ^ 64.
Definition two63 : Z := 2 ^ 63.

(** Conversion to [unsigned long long] / [uint64_t]. *)
Definition wrap64 (z : Z) : Z := z mod two64.

(** Conversion to [long long] / [int64_t] (two's complement). *)
Definition sint64 (z : Z) : Z :=
  let u := wrap64 z in if u <? two63 then u else u - two64.

(** ** The C library functions used by [util.c]

    [strtoll], [strtoull], [isxdigit] and [isspace] belong to the C
    library; they are modelled after ISO C (7.4.1, 7.22.1.4) in the "C"
    locale. *)
Module Libc.

Definition isspace (c : ascii) : bool :=
  let n := code c in (n =? 32) || ((9 <=? n) && (n <=? 13)).

Definition isxdigit (c : ascii) : bool :=
  let n := code c in
  ((48 <=? n) && (n <=? 57)) || ((65 <=? n) && (n <=? 70))
  || ((97 <=? n) && (n <=? 102)).

(** Value of a letter or digit in the [strto*] subject sequence. *)
Definition digit_value (c : ascii) : option Z :=
  let n := code c in
  if (48 <=? n) && (n <=? 57) then Some (n - 48)
  else if (97 <=? n) && (n <=? 122) then Some (n - 87)
  else if (65 <=? n) && (n <=? 90) then Some (n - 55)
  else None.

(** A digit of the given base. *)
Definition digit_in (base : Z) (c : ascii) : option Z :=
  match digit_value c with
  | Some d => if d <? base then Some d else None
  | None => None
  end.

Fixpoint skip_space (s : string) : string :=
  match s with
  | String c r => if isspace c then skip_space r else s
  | EmptyString => s
  end.

(** The longest run of digits of [base] at the front of [s]: the exact
    (unbounded) value accumulated onto [acc], the number of digits and
    the text after them. *)
Fixpoint digits (base : Z) (s : string) (acc : Z) (n : nat)
  : Z * nat * string :=
  match s with
  | String c r =>
      match digit_in base c with
      | Some d => digits base r (acc * base + d) (S n)
      | None => (acc, n, s)
      end
  | EmptyString => (acc, n, s)
  end.

Definition is_x (c : ascii) : bool := (code c =? 120) || (code c =? 88).

(** Optional sign: negative flag and the text after it. *)
Definition sign (s : string) : bool * string :=
  match s with
  | String c r =>
      if code c =? 45 then (true, r)
      else if code c =? 43 then (false, r)
      else (false, s)
  | EmptyString => (false, s)
  end.

(** Base selection and the optional [0x] prefix (accepted for base 0 and
    base 16, and only when a hexadecimal digit follows it). *)
Definition prefix (base : Z) (s : string) : Z * string :=
  match s with
  | String z (String x (String h r)) =>
      if (code z =? 48) && is_x x && isxdigit h
         && ((base =? 0) || (base =? 16))
      then (16, String h r)
      else if base =? 0 then (if code z =? 48 then 8 else 10, s)
      else (base, s)
  | String z _ =>
      if base =? 0 then (if code z =? 48 then 8 else 10, s) else (base, s)
  | EmptyString => (if base =? 0 then 10 else base, s)
  end.

Record conversion := {
  result : Z;        (* the value returned *)
  endptr : string;   (* the text [*endptr] points at *)
  erange : bool      (* [errno == ERANGE] afterwards *)
}.

(** The subject sequence of [s]: sign, exact magnitude, digit count and
    remaining text. *)
Definition subject (s : string) (base : Z) : bool * Z * nat * string :=
  let '(neg, s1) := sign (skip_space s) in
  let '(b, s2) := prefix base s1 in
  let '(v, n, rest) := digits b s2 0 0%nat in
  (neg, v, n, rest).

Definition strtoull (s : string) (base : Z) : conversion :=
  let '(neg, v, n, rest) := subject s base in
  match n with
  | O => {| result := 0; endptr := s; erange := false |}
  | _ =>
      if two64 <=? v
      then {| result := two64 - 1; endptr := rest; erange := true |}
      else {| result := wrap64 (if neg then - v else v);
              endptr := rest; erange := false |}
  end.

Definition strtoll (s : string) (base : Z) : conversion :=
  let '(neg, v, n, rest) := subject s base in
  match n with
  | O => {| result := 0; endptr := s; erange := false |}
  | _ =>
      if neg then
        if two63 <? v
        then {| result := - two63; endptr := rest; erange := true |}
        else {| result := - v; endptr := rest; erange := false |}
      else
        if two63 <=? v
        then {| result := two63 - 1; endptr := rest; erange := true |}
        else {| result := v; endptr := rest; erange := false |}
  end.

(** [ERANGE] of [errno.h], and [errno] after a conversion: the [strto*]
    functions store [ERANGE] on a range error and leave [errno] alone
    otherwise. *)
Definition ERANGE : Z := 34.

Definition errno_after (r : conversion) (errno : Z) : Z :=
  if erange r then ERANGE else errno.

(** The decimal numeral of a natural number. *)
Definition decimal (n : Z) : string :=
  NilZero.string_of_uint (N.to_uint (Z.to_N n)).

(** [num / den] rounded to the nearest integer, ties to even. *)
Definition round_half_even (num den : Z) : Z :=
  let q := num / den in
  let r := num mod den in
  if 2 * r <? den then q
  else if den <? 2 * r then q + 1
  else if Z.even q then q else q + 1.

(** The conversion [%.*f] of [printf] for a [double] (7.21.6.1): the exact
    value rounded to [precision] decimals, a negative precision counting as
    the default 6; no decimal point when the precision is 0. *)
Definition printf_f (precision : Z) (x : spec_float) : string :=
  let p := if precision <? 0 then 6 else precision in
  let minus (s : bool) := if s then "-" else "" in
  let fixed (n : Z) :=
    let d := decimal n in
    let d := (zeros (Z.to_nat (p + 1) - String.length d) ++ d)%string in
    let k := (String.length d - Z.to_nat p)%nat in
    if p =? 0 then d
    else (string_take k d ++ "." ++ string_drop k d)%string in
  match x with
  | S754_zero s => (minus s ++ fixed 0)%string
  | S754_infinity s => (minus s ++ "inf")%string
  | S754_nan => "nan"
  | S754_finite s m e =>
      let n :=
        if 0 <=? e then Z.pos m * 2 ^ e * 10 ^ p
        else round_half_even (Z.pos m * 10 ^ p) (2 ^ (- e)) in
      (minus s ++ fixed n)%string
  end.

End Libc.

(** ** [lib/util.c]: parsing *)

(** [libconfig_parse_integer]: the returned value and [*ok].  [errno] is
    cleared before the call, so it is non-zero afterwards exactly when
    [strtoll] reported a range error. *)
Definition libconfig_parse_integer (s : string) : Z * bool :=
  let r := Libc.strtoll s 0 in
  if negb (code (deref (Libc.endptr r)) =? 0) || Libc.erange r
  then (0, false)
  else (Libc.result r, true).

(** The digit value computed in the MinGW loop of [libconfig_parse_hex64]:
    [*p < 'A' ? *p & 0xF : 9 + ( *p & 0x7)]. *)
Definition hex_nibble (c : ascii) : Z :=
  if code c <? 65 then Z.land (code c) 15 else 9 + Z.land (code c) 7.

(** [for(++p; isxdigit( *p); ++p) { val <<= 4; val |= ...; }] *)
Fixpoint hex_loop (p : string) (val : Z) : Z :=
  match p with
  | String c q =>
      if Libc.isxdigit c
      then hex_loop q (Z.lor (wrap64 (Z.shiftl val 4)) (hex_nibble c))
      else val
  | EmptyString => val
  end.

(** [libconfig_parse_hex64]; [mingw] tells whether [__MINGW32__] is
    defined. *)
Definition libconfig_parse_hex64 (mingw : bool) (s : string) : Z :=
  if mingw then
    let p := s in
    if negb (code (deref p) =? 48) then 0
    else
      let p := advance p in
      if negb (code (deref p) =? 120) && negb (code (deref p) =? 88) then 0
      else hex_loop (advance p) 0
  else Libc.result (Libc.strtoull s 16).

(** [for(++p; *p=='0' || *p == '1'; ++p) { val <<= 1; val |= *p =='1'; }] *)
Fixpoint bin_loop (p : string) (val : Z) : Z :=
  match p with
  | String c q =>
      if (code c =? 48) || (code c =? 49)
      then bin_loop q (Z.lor (wrap64 (Z.shiftl val 1))
                             (if code c =? 49 then 1 else 0))
      else val
  | EmptyString => val
  end.

(** [libconfig_parse_bin64].  Without [__MINGW32__] the function reads from
    [s + 2] without looking at the first two bytes; for a text shorter than
    two bytes that pointer is past the terminating NUL and the read is
    undefined ([None]). *)
Definition libconfig_parse_bin64 (mingw : bool) (s : string) : option Z :=
  if mingw then
    let p := s in
    if negb (code (deref p) =? 48) then Some 0
    else
      let p := advance p in
      if negb (code (deref p) =? 98) && negb (code (deref p) =? 66) then Some 0
      else Some (bin_loop (advance p) 0)
  else
    match s with
    | String _ (String _ r) => Some (Libc.result (Libc.strtoull r 2))
    | _ => None
    end.

(** [errno] after [libconfig_parse_hex64] and [libconfig_parse_bin64], from
    its value before the call.  The loops written for MinGW do not touch
    it; otherwise the functions return what [strtoull] returns without
    looking at [errno], which is left as [strtoull] leaves it. *)
Definition libconfig_parse_hex64_errno (mingw : bool) (s : string)
    (errno : Z) : Z :=
  if mingw then errno else Libc.errno_after (Libc.strtoull s 16) errno.

Definition libconfig_parse_bin64_errno (mingw : bool) (s : string)
    (errno : Z) : option Z :=
  if mingw then Some errno
  else
    match s with
    | String _ (String _ r) =>
        Some (Libc.errno_after (Libc.strtoull r 2) errno)
    | _ => None
    end.

(** ** Exact values of digit runs *)

(** Horner evaluation of a list of digits onto an accumulator, without any
    bound. *)
Fixpoint horner (base : Z) (ds : list Z) (acc : Z) : Z :=
  match ds with
  | [] => acc
  | d :: r => horner base r (acc * base + d)
  end.

(** The digits of [base] at the front of a text, and the text after them. *)
Fixpoint leading_digits (base : Z) (s : string) : list Z :=
  match s with
  | String c r =>
      match Libc.digit_in base c with
      | Some d => d :: leading_digits base r
      | None => []
      end
  | EmptyString => []
  end.

Fixpoint drop_digits (base : Z) (s : string) : string :=
  match s with
  | String c r =>
      match Libc.digit_in base c with
      | Some _ => drop_digits base r
      | None => s
      end
  | EmptyString => s
  end.

(** The exact value of the digits of [base] at the front of [s]. *)
Definition exact_value (base : Z) (s : string) : Z :=
  horner base (leading_digits base s) 0.

Definition has_prefix (lo up : ascii) (s : string) : bool :=
  match s with
  | String z (String x _) =>
      (code z =? 48) && ((code x =? code lo) || (code x =? code up))
  | _ => false
  end.

(** Texts beginning with [0x] or [0X], resp. [0b] or [0B]. *)
Definition has_hex_prefix : string -> bool := has_prefix "x" "X".
Definition has_bin_prefix : string -> bool := has_prefix "b" "B".

(** The value [strtoull] returns for a subject sequence of exact magnitude
    [v] without a minus sign: [ULLONG_MAX] once [v] leaves the range. *)
Definition clamp_u64 (v : Z) : Z := if two64 <=? v then two64 - 1 else v.

(** ** The integer literal as the specification words it *)

(** A pointer at the terminating NUL: nothing of the text is left. *)
Definition at_end (p : string) : bool := code (deref p) =? 0.

(** Base auto-detection on the text after white space and sign: a leading
    [0x]/[0X] selects 16, a leading [0] selects 8, anything else 10. *)
Definition detect_base (body : string) : Z :=
  if has_hex_prefix body then 16
  else if code (deref body) =? 48 then 8 else 10.

(** The digits the detected base applies to. *)
Definition literal_digits (body : string) : string :=
  if has_hex_prefix body then advance (advance body) else body.

(** The integer literal parser in the specification's words: success
    exactly when the whole text is consumed in the detected base and the
    value is in the signed 64-bit range; in every other case [(0, false)].
    A text without any digit is consumed only if it is empty. *)
Definition spec_parse_integer (s : string) : Z * bool :=
  let '(neg, body) := Libc.sign (Libc.skip_space s) in
  let base := detect_base body in
  let ds := literal_digits body in
  let v := exact_value base ds in
  let sv := if neg then - v else v in
  match leading_digits base ds with
  | [] => (0, at_end s)
  | _ =>
      if at_end (drop_digits base ds) && (- two63 <=? sv) && (sv <? two63)
      then (sv, true)
      else (0, false)
  end.

(** The decimal numeral of an integer, with a minus sign when it is
    negative. *)
Definition signed_decimal (n : Z) : string :=
  if n <? 0 then "-" ++ Libc.decimal (- n) else Libc.decimal n.

(** ** [lib/util.c]: formatting a binary integer *)

(** Steps of a loop that may not terminate are counted down from a fuel;
    [None] is a run that needs more of it. *)

(** [clzl] as written for compilers other than GCC:
    [while (!(val & check) && check) { leading++; check >>= 1; }] with
    [check] starting at [1ll << 63].  [check] is an [int64_t], its right
    shift keeps the sign. *)
Fixpoint clzl_loop (fuel : nat) (val check leading : Z) : option Z :=
  match fuel with
  | O => None
  | S fuel' =>
      if (Z.land val check =? 0) && negb (check =? 0)
      then clzl_loop fuel' val (sint64 (Z.shiftr check 1)) (leading + 1)
      else Some leading
  end.

Definition clzl_portable (fuel : nat) (val : Z) : option Z :=
  clzl_loop fuel val (sint64 (Z.shiftl 1 63)) 0.

(** [__builtin_clzl] of GCC, on an [unsigned long] of [ulong_bits] bits:
    the number of leading zero bits of the argument, undefined ([None]) for
    0. *)
Definition builtin_clzl (ulong_bits : Z) (x : Z) : option Z :=
  let u := x mod 2 ^ ulong_bits in
  if u =? 0 then None else Some (ulong_bits - 1 - Z.log2 u).

(** The build of [util.c]: whether [__GNUC__] is defined, and the width of
    [unsigned long] (64 on LP64 systems). *)
Record build := {
  gnuc : bool;
  ulong_bits : Z
}.

Definition clzl (b : build) (fuel : nat) (val : Z) : option Z :=
  if gnuc b then builtin_clzl (ulong_bits b) val else clzl_portable fuel val.

(** The body of the [while] loop of [libconfig_format_bin]: the characters
    stored into [buf] from index [i] on.  [c] only grows and the loop ends
    at [c = 64], so [n] iterations suffice whenever [64 - c <= n]. *)
Fixpoint format_bin_loop (n : nat) (val limit c i : Z) : string :=
  match n with
  | O => EmptyString
  | S n' =>
      if (c <? 64) && (i <? limit)
      then String
             (if Z.land val (sint64 (Z.shiftl 1 (63 - c))) =? 0
              then "0"%char else "1"%char)
             (format_bin_loop n' val limit (c + 1) (i + 1))
      else EmptyString
  end.

(** [libconfig_format_bin]: the text left in [buf]; [buflen] is a
    [size_t], so [buflen - 1] wraps. *)
Definition libconfig_format_bin (b : build) (fuel : nat) (val buflen : Z)
  : option string :=
  match clzl b fuel val with
  | Some c => Some (format_bin_loop 64 val (wrap64 (buflen - 1)) c 0)
  | None => None
  end.

(** The bits [n-1 .. 0] of [u], most significant first. *)
Fixpoint bits_from (n : nat) (u : Z) : string :=
  match n with
  | O => EmptyString
  | S m =>
      String (if Z.testbit u (Z.of_nat m) then "1"%char else "0"%char)
             (bits_from m u)
  end.

(** The binary numeral of [u > 0] without leading zeros. *)
Definition minimal_binary (u : Z) : string :=
  bits_from (Z.to_nat (Z.log2 u + 1)) u.

(** Texts of ['0'] and ['1'] characters only. *)
Fixpoint is_binary (s : string) : bool :=
  match s with
  | EmptyString => true
  | String c r => ((code c =? 48) || (code c =? 49)) && is_binary r
  end.

(** GCC on an LP64 system; GCC where [unsigned long] has 32 bits (MinGW,
    for which [util.c] has code of its own, and the ILP32 systems); a
    compiler other than GCC. *)
Definition lp64_gcc : build := {| gnuc := true; ulong_bits := 64 |}.
Definition ilp32_gcc : build := {| gnuc := true; ulong_bits := 32 |}.
Definition portable : build := {| gnuc := false; ulong_bits := 64 |}.

(** ** [lib/util.c]: formatting a floating-point number *)

(** [strchr(buf, c)]: the index of the first [c] in the text, [None] for a
    null result. *)
Fixpoint strchr (buf : string) (c : ascii) : option nat :=
  match buf with
  | EmptyString => None
  | String a r =>
      if code a =? code c then Some O
      else match strchr r c with Some i => Some (S i) | None => None end
  end.

(** [buf[i]], NUL from the end of the text on. *)
Definition char_at (i : Z) (buf : string) : ascii :=
  match String.get (Z.to_nat i) buf with
  | Some c => c
  | None => "000"%char
  end.

(** [for(q = buf + strlen(buf) - 1; q > p + 1; --q)
      { if( *q == '0') *q = '\0'; else break; }]
    on indices into [buf]: [q] is the last character of the text, and
    storing NUL there leaves the first [q] characters.  The loop runs at
    most [strlen(buf)] times. *)
Fixpoint strip_zeros (n : nat) (buf : string) (q p : Z) : string :=
  match n with
  | O => buf
  | S n' =>
      if p + 1 <? q then
        if code (char_at q buf) =? 48
        then strip_zeros n' (string_take (Z.to_nat q) buf) (q - 1) p
        else buf
      else buf
  end.

(** What the loop leaves of a text [buf] whose first decimal point is at
    index [p]: a prefix of [buf] that lacks only trailing ['0']s, keeps the
    first [p + 2] characters, and ends in a character other than ['0']
    unless it stops right after them. *)
Definition stripped (buf out : string) (p : nat) : Prop :=
  (exists k, buf = (out ++ zeros k)%string)
  /\ string_take (p + 2) out = string_take (p + 2) buf
  /\ ((p + 2 < String.length out)%nat ->
      code (char_at (Z.of_nat (String.length out) - 1) out) <> 48).

(** A 64-bit IEEE [double]. *)
Definition double := spec_float.

Section FormatDouble.

(** The conversion [%.*g] of the C library's [printf] family is left
    abstract. *)
Variable printf_g : Z -> double -> string.

(** [snprintf(buf, size, fmt, precision, val)] for [size > 0]: the first
    [size - 1] characters of the conversion. *)
Definition snprintf_double (size : Z) (sci_ok : bool) (precision : Z)
    (val : double) : string :=
  string_take (Z.to_nat (size - 1))
    (if sci_ok then printf_g precision val
     else Libc.printf_f precision val).

(** [libconfig_format_double]: the text left in [buf].  [snprintf] is given
    the size [buflen - 3], a [size_t]: below [buflen = 4] it writes nothing
    or is told of more room than there is, and the text is not determined
    ([None]). *)
Definition libconfig_format_double (val : double) (precision : Z)
    (sci_ok : bool) (buflen : Z) : option string :=
  if buflen <? 4 then None
  else
    let buf := snprintf_double (wrap64 (buflen - 3)) sci_ok precision val in
    match strchr buf "e" with
    | Some _ => Some buf
    | None =>
        match strchr buf "." with
        | None => Some (buf ++ ".0")%string
        | Some p =>
            Some (strip_zeros (String.length buf) buf
                    (Z.of_nat (String.length buf) - 1) (Z.of_nat p))
        end
    end.

End FormatDouble.

(** The doubles 1.0 and 100.0: [2^52 * 2^-52] and [1.5625 * 2^52 * 2^-46]. *)
Definition double_1 : double := S754_finite false 4503599627370496 (-52).
Definition double_100 : double := S754_finite false 7036874417766400 (-46).

(** ** [lib/util.c]: fatal errors and the allocation wrappers *)

(** A pointer to a function [void (const char * )]: the library's own
    [libconfig_fatal_error_handler], or a function of the application,
    told apart by a number. *)
Inductive error_func :=
| library_handler
| application_handler (f : nat).

(** What a process does that is seen from outside it. *)
Inductive event :=
| posix_write (fd : Z) (text : string)
| abort
| called (f : nat) (message : string).

(** The process as far as these functions go: the static variable
    [__libconfig_fatal_error_func] and the events so far. *)
Record process := {
  __libconfig_fatal_error_func : error_func;
  events : list event
}.

(** A call returns a value, or the process ends inside it. *)
Inductive run (A : Type) :=
| Returns (a : A) (p : process)
| Ends (p : process).

Arguments Returns {A} a p.
Arguments Ends {A} p.

Definition STDERR_FILENO : Z := 2.

(** ["\alibconfig: memory allocation failure\n"] *)
Definition __libconfig_malloc_failure_message : string :=
  String "007" "libconfig: memory allocation failure" ++ String "010" "".

(** The state of a process that has not called
    [libconfig_set_fatal_error_func]. *)
Definition process_start : process :=
  {| __libconfig_fatal_error_func := library_handler; events := [] |}.

Definition emit (p : process) (es : list event) : process :=
  {| __libconfig_fatal_error_func := __libconfig_fatal_error_func p;
     events := (events p ++ es)%list |}.

(** [libconfig_fatal_error_handler]: the result of the write is not looked
    at, and [abort] does not return. *)
Definition libconfig_fatal_error_handler (message : string) (p : process)
  : run unit :=
  Ends (emit p [posix_write STDERR_FILENO message; abort]).

(** [libconfig_set_fatal_error_func]; [None] is a null [func]. *)
Definition libconfig_set_fatal_error_func (func : option error_func)
    (p : process) : run unit :=
  Returns tt
    {| __libconfig_fatal_error_func :=
         match func with
         | Some f => f
         | None => library_handler
         end;
       events := events p |}.

Section Allocation.

(** Whether a function of the application returns to its caller (it may
    leave the process instead), and the results of the allocation functions
    of the C library, null being [None]. *)
Variable returns : nat -> bool.
Variable malloc : Z -> option nat.
Variable calloc : Z -> Z -> option nat.
Variable realloc : option nat -> Z -> option nat.

(** [libconfig_fatal_error]: a call through
    [__libconfig_fatal_error_func]. *)
Definition libconfig_fatal_error (message : string) (p : process)
  : run unit :=
  match __libconfig_fatal_error_func p with
  | library_handler => libconfig_fatal_error_handler message p
  | application_handler f =>
      let p' := emit p [called f message] in
      if returns f then Returns tt p' else Ends p'
  end.

(** [if(!ptr) libconfig_fatal_error(...); return(ptr);] *)
Definition checked (ptr : option nat) (p : process) : run (option nat) :=
  match ptr with
  | Some _ => Returns ptr p
  | None =>
      match libconfig_fatal_error __libconfig_malloc_failure_message p with
      | Returns _ p' => Returns ptr p'
      | Ends p' => Ends p'
      end
  end.

Definition libconfig_malloc (size : Z) : process -> run (option nat) :=
  checked (malloc size).

Definition libconfig_calloc (nmemb size : Z)
  : process -> run (option nat) :=
  checked (calloc nmemb size).

Definition libconfig_realloc (ptr : option nat) (size : Z)
  : process -> run (option nat) :=
  checked (realloc ptr size).

End Allocation.

(** * The setting tree and [contrib/copy_setting.c] *)

Local Close Scope string_scope.
Local Close Scope Z_scope.

(** ** Settings in memory

    The declarations of [libconfig.h] and the tree functions of
    [libconfig.c] are not part of the sources at hand; the data model and
    the functions the copier calls are modelled from the specification. *)

(** Modelled from the spec: the node types ([CONFIG_TYPE_*] of
    [libconfig.h], [Setting::Type] of [libconfig.h++]). *)
Inductive setting_type :=
| CONFIG_TYPE_NONE
| CONFIG_TYPE_INT
| CONFIG_TYPE_INT64
| CONFIG_TYPE_FLOAT
| CONFIG_TYPE_STRING
| CONFIG_TYPE_BOOL
| CONFIG_TYPE_GROUP
| CONFIG_TYPE_ARRAY
| CONFIG_TYPE_LIST.

(** Modelled from the spec: the display hint ([Setting::Format]). *)
Inductive config_format := CONFIG_FORMAT_DEFAULT | CONFIG_FORMAT_HEX.

#[global] Instance string_eq_dec : EqDecision string := String.string_dec.

#[global] Instance setting_type_eq_dec : EqDecision setting_type.
Proof. solve_decision. Defined.

#[global] Instance config_format_eq_dec : EqDecision config_format.
Proof. solve_decision. Defined.

(** A [config_setting_t *] that is not null: the index of the setting in
    the heap.  A null pointer is [None] of [option ptr]. *)
Abbreviation ptr := nat.

(** Modelled from the spec: the payload of a setting ([config_value_t] of
    [libconfig.h]); an aggregate holds the list of its elements. *)
Inductive config_value_t :=
| Vnone
| Vbool (b : bool)
| Vint (i : Z)
| Vint64 (i : Z)
| Vfloat (d : double)
| Vstring (s : string)
| Vlist (elements : list ptr).

(** Modelled from the spec: [config_setting_t] of [libconfig.h], with the
    fields [name], [type], [format], [value] and [parent]. *)
Record config_setting_t := {
  st_name : option string;
  st_type : setting_type;
  st_format : config_format;
  st_value : config_value_t;
  st_parent : option ptr
}.

(** The heap: the settings allocated so far, by address. *)
Abbreviation heap := (list config_setting_t).

(** Modelled from the spec: the classification of the node types
    ([isAggregate], [isGroup], [isList], [isArray] on a type). *)
Definition is_aggregate_type (ty : setting_type) : bool :=
  match ty with
  | CONFIG_TYPE_GROUP | CONFIG_TYPE_ARRAY | CONFIG_TYPE_LIST => true
  | _ => false
  end.

Definition is_scalar_type (ty : setting_type) : bool :=
  match ty with
  | CONFIG_TYPE_INT | CONFIG_TYPE_INT64 | CONFIG_TYPE_FLOAT
  | CONFIG_TYPE_STRING | CONFIG_TYPE_BOOL => true
  | _ => false
  end.

Definition is_integer_type (ty : setting_type) : bool :=
  match ty with
  | CONFIG_TYPE_INT | CONFIG_TYPE_INT64 => true
  | _ => false
  end.

Definition is_group_type (ty : setting_type) : bool :=
  match ty with CONFIG_TYPE_GROUP => true | _ => false end.

Definition is_list_type (ty : setting_type) : bool :=
  match ty with CONFIG_TYPE_LIST => true | _ => false end.

Definition is_array_type (ty : setting_type) : bool :=
  match ty with CONFIG_TYPE_ARRAY => true | _ => false end.

(** Modelled from the spec: the children of a setting, those of its list
    when it is an aggregate. *)
Definition elements_of (s : config_setting_t) : list ptr :=
  if is_aggregate_type (st_type s)
  then match st_value s with Vlist l => l | _ => [] end
  else [].

(** Modelled from the spec: the payload of a setting just created with a
    type. *)
Definition initial_value (ty : setting_type) : config_value_t :=
  match ty with
  | CONFIG_TYPE_NONE => Vnone
  | CONFIG_TYPE_INT => Vint 0%Z
  | CONFIG_TYPE_INT64 => Vint64 0%Z
  | CONFIG_TYPE_FLOAT => Vfloat (S754_zero false)
  | CONFIG_TYPE_STRING => Vstring EmptyString
  | CONFIG_TYPE_BOOL => Vbool false
  | _ => Vlist []
  end.

(** ** Computations on the heap

    A C function is a function of the heap that returns a result and the
    new heap, dereferences a null or dangling pointer ([Crash]), or needs
    more nested calls than its fuel allows ([OutOfFuel]). *)
Inductive outcome (A : Type) :=
| Done (a : A) (h : heap)
| Crash
| OutOfFuel.

Arguments Done {A} a h.
Arguments Crash {A}.
Arguments OutOfFuel {A}.

Definition M (A : Type) : Type := heap -> outcome A.

Definition ret {A : Type} (a : A) : M A := fun h => Done a h.

Definition bind {A B : Type} (m : M A) (k : A -> M B) : M B :=
  fun h =>
    match m h with
    | Done a h' => k a h'
    | Crash => Crash
    | OutOfFuel => OutOfFuel
    end.

Notation "x <- m ;; k" := (bind m (fun x => k))
  (at level 100, m at next level, right associativity).
Notation "m ;;; k" := (bind m (fun _ => k))
  (at level 100, right associativity).

(** [*p]: the setting a pointer refers to. *)
Definition load (p : option ptr) : M config_setting_t :=
  fun h =>
    match p with
    | Some a => match h !! a with Some s => Done s h | None => Crash end
    | None => Crash
    end.

(** [*p = s]. *)
Definition store (a : ptr) (s : config_setting_t) : M unit :=
  fun h => Done tt (<[a := s]> h).

(** A new setting at the end of the heap. *)
Definition alloc (s : config_setting_t) : M ptr :=
  fun h => Done (length h) (h ++ [s]).

Definition out_of_fuel {A : Type} : M A := fun _ => OutOfFuel.

(** [for(i = start; i < start + count; i++) body(i)]. *)
Fixpoint for_loop (count : nat) (start : nat) (body : nat -> M unit)
  : M unit :=
  match count with
  | O => ret tt
  | S count' => body start ;;; for_loop count' (S start) body
  end.

(** ** The tree functions the copier calls *)

(** Modelled from the spec: the accessor macros of [libconfig.h]
    ([getType], [getName], the type predicates); each reads
    through its argument. *)
Definition config_setting_type (s : option ptr) : M setting_type :=
  x <- load s ;; ret (st_type x).

Definition config_setting_name (s : option ptr) : M (option string) :=
  x <- load s ;; ret (st_name x).

Definition config_setting_is_aggregate (s : option ptr) : M bool :=
  x <- load s ;; ret (is_aggregate_type (st_type x)).

Definition config_setting_is_group (s : option ptr) : M bool :=
  x <- load s ;; ret (is_group_type (st_type x)).

Definition config_setting_is_list (s : option ptr) : M bool :=
  x <- load s ;; ret (is_list_type (st_type x)).

(** Modelled from the spec: the typed getters ([getInt], [getInt64],
    [getFloat], [getString], [getBool]); a payload of another kind reads
    as zero. *)
Definition config_setting_get_int (s : option ptr) : M Z :=
  x <- load s ;; ret (match st_value x with Vint i => i | _ => 0%Z end).

Definition config_setting_get_int64 (s : option ptr) : M Z :=
  x <- load s ;; ret (match st_value x with Vint64 i => i | _ => 0%Z end).

Definition config_setting_get_float (s : option ptr) : M double :=
  x <- load s ;;
  ret (match st_value x with Vfloat d => d | _ => S754_zero false end).

Definition config_setting_get_string (s : option ptr) : M string :=
  x <- load s ;;
  ret (match st_value x with Vstring t => t | _ => EmptyString end).

Definition config_setting_get_bool (s : option ptr) : M bool :=
  x <- load s ;; ret (match st_value x with Vbool b => b | _ => false end).

(** Modelled from the spec: [childCount] and [getChildAt]. *)
Definition config_setting_length (s : option ptr) : M nat :=
  x <- load s ;; ret (length (elements_of x)).

Definition config_setting_get_elem (s : option ptr) (i : nat)
  : M (option ptr) :=
  x <- load s ;; ret (elements_of x !! i).

(** Modelled from the spec: the lookup of a child of a group by name, on
    which the sibling-unique names rest. *)
Definition get_member (h : heap) (l : list ptr) (name : string)
  : option ptr :=
  List.find
    (fun c =>
       match h !! c with
       | Some s => bool_decide (st_name s = Some name)
       | None => false
       end) l.

(** Modelled from the spec: the type of the first element of an
    aggregate, if any. *)
Definition first_type (h : heap) (l : list ptr) : option setting_type :=
  match l with
  | c :: _ => match h !! c with Some s => Some (st_type s) | None => None end
  | [] => None
  end.

(** Modelled from the spec: an array takes scalars only, all of the type
    of its first element. *)
Definition array_accepts (h : heap) (l : list ptr) (ty : setting_type)
  : bool :=
  is_scalar_type ty
  && match first_type h l with
     | Some ty0 => bool_decide (ty0 = ty)
     | None => true
     end.

(** Modelled from the spec: node creation, a new setting under [p]
    appended to its elements. *)
Definition create (p : ptr) (x : config_setting_t)
    (name : option string) (ty : setting_type) (v : config_value_t)
  : M (option ptr) :=
  a <- alloc {| st_name := name; st_type := ty;
                st_format := CONFIG_FORMAT_DEFAULT;
                st_value := v; st_parent := Some p |} ;;
  store p {| st_name := st_name x; st_type := st_type x;
             st_format := st_format x;
             st_value := Vlist (elements_of x ++ [a]);
             st_parent := st_parent x |} ;;;
  ret (Some a).

(** Modelled from the spec: [createNode(parent, name, type)], the "add"
    operation.  It yields a null pointer, and creates nothing, for a null
    parent, a parent that is not an aggregate, an element an array cannot
    take, or a name already present in a group; under a list or an array
    the new setting has no name. *)
Definition config_setting_add (parent : option ptr) (name : option string)
    (ty : setting_type) : M (option ptr) :=
  match parent with
  | None => ret None
  | Some p =>
      x <- load parent ;;
      fun h =>
        match st_type x with
        | CONFIG_TYPE_GROUP =>
            match name with
            | Some n =>
                match get_member h (elements_of x) n with
                | Some _ => Done None h
                | None => create p x name ty (initial_value ty) h
                end
            | None => create p x None ty (initial_value ty) h
            end
        | CONFIG_TYPE_LIST => create p x None ty (initial_value ty) h
        | CONFIG_TYPE_ARRAY =>
            if array_accepts h (elements_of x) ty
            then create p x None ty (initial_value ty) h
            else Done None h
        | _ => Done None h
        end
  end.

(** Modelled from the spec: [appendElement(parent, type, value)], the
    [config_setting_set_*_elem] functions called with index -1.  They read
    through the parent, and yield a null pointer unless it is a list, or an
    array that takes the type. *)
Definition append_elem (parent : option ptr) (ty : setting_type)
    (v : config_value_t) : M (option ptr) :=
  x <- load parent ;;
  fun h =>
    match parent, st_type x with
    | Some p, CONFIG_TYPE_LIST => create p x None ty v h
    | Some p, CONFIG_TYPE_ARRAY =>
        if array_accepts h (elements_of x) ty
        then create p x None ty v h
        else Done None h
    | _, _ => Done None h
    end.

Definition config_setting_set_int_elem (parent : option ptr) (v : Z) :=
  append_elem parent CONFIG_TYPE_INT (Vint v).
Definition config_setting_set_int64_elem (parent : option ptr) (v : Z) :=
  append_elem parent CONFIG_TYPE_INT64 (Vint64 v).
Definition config_setting_set_float_elem (parent : option ptr) (v : double) :=
  append_elem parent CONFIG_TYPE_FLOAT (Vfloat v).
Definition config_setting_set_string_elem (parent : option ptr) (v : string) :=
  append_elem parent CONFIG_TYPE_STRING (Vstring v).
Definition config_setting_set_bool_elem (parent : option ptr) (v : bool) :=
  append_elem parent CONFIG_TYPE_BOOL (Vbool v).

(** Modelled from the spec: the typed setters ([setInt], [setInt64],
    [setFloat], [setString], [setBool]).  They read through the setting and
    store the payload when the setting has the setter's type. *)
Definition set_value (set : option ptr) (ty : setting_type)
    (v : config_value_t) : M bool :=
  x <- load set ;;
  match set with
  | Some a =>
      if bool_decide (st_type x = ty)
      then store a {| st_name := st_name x; st_type := st_type x;
                      st_format := st_format x; st_value := v;
                      st_parent := st_parent x |} ;;; ret true
      else ret false
  | None => ret false
  end.

Definition config_setting_set_int (set : option ptr) (v : Z) :=
  set_value set CONFIG_TYPE_INT (Vint v).
Definition config_setting_set_int64 (set : option ptr) (v : Z) :=
  set_value set CONFIG_TYPE_INT64 (Vint64 v).
Definition config_setting_set_float (set : option ptr) (v : double) :=
  set_value set CONFIG_TYPE_FLOAT (Vfloat v).
Definition config_setting_set_string (set : option ptr) (v : string) :=
  set_value set CONFIG_TYPE_STRING (Vstring v).
Definition config_setting_set_bool (set : option ptr) (v : bool) :=
  set_value set CONFIG_TYPE_BOOL (Vbool v).

(** Modelled from the spec: [setFormat]; the flag is stored on integer
    settings only. *)
Definition config_setting_set_format (set : option ptr)
    (fmt : config_format) : M bool :=
  x <- load set ;;
  match set with
  | Some a =>
      if is_integer_type (st_type x)
      then store a {| st_name := st_name x; st_type := st_type x;
                      st_format := fmt; st_value := st_value x;
                      st_parent := st_parent x |} ;;; ret true
      else ret false
  | None => ret false
  end.

(** ** [contrib/copy_setting.c] *)

(** The three mutually recursive functions; [fuel] bounds the depth of
    nested calls. *)
Fixpoint config_setting_copy_simple (fuel : nat) (parent src : option ptr)
  : M unit :=
  match fuel with
  | O => out_of_fuel
  | S fuel' =>
      agg <- config_setting_is_aggregate src ;;
      if agg then config_setting_copy_aggregate fuel' parent src
      else
        name <- config_setting_name src ;;
        ty <- config_setting_type src ;;
        set <- config_setting_add parent name ty ;;
        match ty with
        | CONFIG_TYPE_INT =>
            v <- config_setting_get_int src ;;
            config_setting_set_int set v ;;;
            s <- load src ;;
            config_setting_set_format set (st_format s) ;;; ret tt
        | CONFIG_TYPE_INT64 =>
            v <- config_setting_get_int64 src ;;
            config_setting_set_int64 set v ;;;
            s <- load src ;;
            config_setting_set_format set (st_format s) ;;; ret tt
        | CONFIG_TYPE_FLOAT =>
            v <- config_setting_get_float src ;;
            config_setting_set_float set v ;;; ret tt
        | CONFIG_TYPE_STRING =>
            v <- config_setting_get_string src ;;
            config_setting_set_string set v ;;; ret tt
        | CONFIG_TYPE_BOOL =>
            v <- config_setting_get_bool src ;;
            config_setting_set_bool set v ;;; ret tt
        | _ => ret tt
        end
  end

with config_setting_copy_elem (fuel : nat) (parent src : option ptr)
  : M unit :=
  match fuel with
  | O => out_of_fuel
  | S fuel' =>
      agg <- config_setting_is_aggregate src ;;
      if agg then config_setting_copy_aggregate fuel' parent src
      else
        ty <- config_setting_type src ;;
        match ty with
        | CONFIG_TYPE_INT =>
            v <- config_setting_get_int src ;;
            set <- config_setting_set_int_elem parent v ;;
            s <- load src ;;
            config_setting_set_format set (st_format s) ;;; ret tt
        | CONFIG_TYPE_INT64 =>
            v <- config_setting_get_int64 src ;;
            set <- config_setting_set_int64_elem parent v ;;
            s <- load src ;;
            config_setting_set_format set (st_format s) ;;; ret tt
        | CONFIG_TYPE_FLOAT =>
            v <- config_setting_get_float src ;;
            config_setting_set_float_elem parent v ;;; ret tt
        | CONFIG_TYPE_STRING =>
            v <- config_setting_get_string src ;;
            config_setting_set_string_elem parent v ;;; ret tt
        | CONFIG_TYPE_BOOL =>
            v <- config_setting_get_bool src ;;
            config_setting_set_bool_elem parent v ;;; ret tt
        | _ => ret tt
        end
  end

with config_setting_copy_aggregate (fuel : nat) (parent src : option ptr)
  : M unit :=
  match fuel with
  | O => out_of_fuel
  | S fuel' =>
      name <- config_setting_name src ;;
      ty <- config_setting_type src ;;
      newAgg <- config_setting_add parent name ty ;;
      n <- config_setting_length src ;;
      for_loop n 0
        (fun i =>
           grp <- config_setting_is_group src ;;
           e <- config_setting_get_elem src i ;;
           if grp then config_setting_copy_simple fuel' newAgg e
           else config_setting_copy_elem fuel' newAgg e)
  end.

(** [config_setting_copy]: [CONFIG_TRUE] and [CONFIG_FALSE] are [true] and
    [false]. *)
Definition config_setting_copy (fuel : nat) (parent src : option ptr)
  : M bool :=
  grp <- config_setting_is_group parent ;;
  lst <- config_setting_is_list parent ;;
  if negb grp && negb lst then ret false
  else
    agg <- config_setting_is_aggregate src ;;
    (if agg then config_setting_copy_aggregate fuel parent src
     else config_setting_copy_simple fuel parent src) ;;;
    ret true.

(** ** The tree below a pointer *)

(** The content of a setting and of its descendants, without addresses:
    name, type, format, scalar payload ([Vnone] for an aggregate) and the
    children in order. *)
#[local] Unset Elimination Schemes.
Inductive tree :=
| Node (name : option string) (ty : setting_type) (fmt : config_format)
       (v : config_value_t) (children : list tree).
#[local] Set Elimination Schemes.

Definition t_name (t : tree) : option string :=
  match t with Node n _ _ _ _ => n end.
Definition t_type (t : tree) : setting_type :=
  match t with Node _ ty _ _ _ => ty end.
Definition t_format (t : tree) : config_format :=
  match t with Node _ _ f _ _ => f end.
Definition t_value (t : tree) : config_value_t :=
  match t with Node _ _ _ v _ => v end.
Definition t_children (t : tree) : list tree :=
  match t with Node _ _ _ _ cs => cs end.

Fixpoint tree_size (t : tree) : nat :=
  match t with
  | Node _ _ _ _ cs => S (list_sum (map tree_size cs))
  end.

Fixpoint tree_depth (t : tree) : nat :=
  match t with
  | Node _ _ _ _ cs => S (foldr Nat.max 0 (map tree_depth cs))
  end.

(** The tree found below [p], with the addresses of its settings in
    preorder; [None] when a pointer dangles or the settings below [p] nest
    deeper than [n] (as they do on a cycle). *)
Fixpoint read (n : nat) (h : heap) (p : ptr) : option (tree * list ptr) :=
  match n with
  | O => None
  | S n' =>
      match h !! p with
      | None => None
      | Some s =>
          match mapM (read n' h) (elements_of s) with
          | None => None
          | Some rs =>
              Some (Node (st_name s) (st_type s) (st_format s)
                      (if is_aggregate_type (st_type s) then Vnone
                       else st_value s)
                      (map fst rs),
                    p :: concat (map snd rs))
          end
      end
  end.

(** The payload a setting of a type holds. *)
Definition value_ok (ty : setting_type) (v : config_value_t) : bool :=
  match ty, v with
  | CONFIG_TYPE_INT, Vint _
  | CONFIG_TYPE_INT64, Vint64 _
  | CONFIG_TYPE_FLOAT, Vfloat _
  | CONFIG_TYPE_STRING, Vstring _
  | CONFIG_TYPE_BOOL, Vbool _
  | CONFIG_TYPE_GROUP, Vnone
  | CONFIG_TYPE_ARRAY, Vnone
  | CONFIG_TYPE_LIST, Vnone => true
  | _, _ => false
  end.

(** The names of the named children. *)
Definition child_names (cs : list tree) : list string := omap t_name cs.

(** The invariants of the data model the copy relies on: no setting of
    type [None], payloads of the setting's type, no name twice among the
    children of a group, and the elements of an array scalars of one
    type. *)
Fixpoint well_formed (t : tree) : bool :=
  match t with
  | Node _ ty _ v cs =>
      value_ok ty v
      && (is_aggregate_type ty || bool_decide (cs = []))
      && (if is_group_type ty then bool_decide (NoDup (child_names cs))
          else true)
      && (if is_array_type ty
          then forallb
                 (fun c =>
                    is_scalar_type (t_type c)
                    && bool_decide (Some (t_type c) = t_type <$> head cs))
                 cs
          else true)
      && forallb well_formed cs
  end.

(** The remaining invariants of the data model: the elements of a list or
    an array have no name, and only integers are flagged hexadecimal. *)
Fixpoint canonical (t : tree) : bool :=
  match t with
  | Node _ ty fmt _ cs =>
      (is_integer_type ty || bool_decide (fmt = CONFIG_FORMAT_DEFAULT))
      && (is_group_type ty
          || forallb (fun c => bool_decide (t_name c = None)) cs)
      && forallb canonical cs
  end.

(** ** What a copy is *)

(** The copy of a tree made under a parent that is positional (a list or
    an array) or not (a group): the root is named only under a group, the
    format flag is carried over for integers only, and the children are
    copied under the copy of the root. *)
Fixpoint clone (positional : bool) (t : tree) : tree :=
  match t with
  | Node name ty fmt v cs =>
      Node (if positional then None else name) ty
           (if is_integer_type ty then fmt else CONFIG_FORMAT_DEFAULT)
           v
           (map (clone (negb (is_group_type ty))) cs)
  end.

(** The addresses of the roots of trees laid out one after the other from
    [base]. *)
Fixpoint roots (cs : list tree) (base : nat) : list ptr :=
  match cs with
  | [] => []
  | c :: r => base :: roots r (base + tree_size c)
  end.

(** The settings of a tree laid out in preorder from address [base], its
    root the child of [par]. *)
Fixpoint layout (t : tree) (base : nat) (par : ptr)
  : list config_setting_t :=
  match t with
  | Node name ty fmt v cs =>
      {| st_name := name; st_type := ty; st_format := fmt;
         st_value := if is_aggregate_type ty
                     then Vlist (roots cs (S base)) else v;
         st_parent := Some par |}
      :: (fix go (l : list tree) (b : nat) : list config_setting_t :=
            match l with
            | [] => []
            | c :: r => layout c b base ++ go r (b + tree_size c)
            end) cs (S base)
  end.

(** The layouts of trees one after the other from [b], children of
    [par]. *)
Fixpoint layout_list (l : list tree) (b : nat) (par : ptr)
  : list config_setting_t :=
  match l with
  | [] => []
  | c :: r => layout c b par ++ layout_list r (b + tree_size c) par
  end.

(** A setting as it is created under [par]. *)
Definition new_setting (name : option string) (ty : setting_type)
    (fmt : config_format) (v : config_value_t) (par : ptr) :=
  {| st_name := name; st_type := ty; st_format := fmt; st_value := v;
     st_parent := Some par |}.

(** A setting with one more element. *)
Definition add_elem (x : config_setting_t) (a : ptr) : config_setting_t :=
  {| st_name := st_name x; st_type := st_type x; st_format := st_format x;
     st_value := Vlist (elements_of x ++ [a]); st_parent := st_parent x |}.

(** Whether a setting of the given name and type can be created under the
    setting [d]: a group takes any type under a name it does not have yet,
    a list takes anything, an array what [array_accepts] says. *)
Definition accepts (h : heap) (d : config_setting_t)
    (name : option string) (ty : setting_type) : bool :=
  match st_type d with
  | CONFIG_TYPE_GROUP =>
      match name with
      | Some n => bool_decide (get_member h (elements_of d) n = None)
      | None => true
      end
  | CONFIG_TYPE_LIST => true
  | CONFIG_TYPE_ARRAY => array_accepts h (elements_of d) ty
  | _ => false
  end.

Definition positional (d : config_setting_t) : bool :=
  negb (is_group_type (st_type d)).

(** ** Specification-level definitions for the copier *)

(** The copy of a scalar setting. *)
Definition scalar_copy (d s : config_setting_t) (D : ptr) : config_setting_t :=
  new_setting (if positional d then None else st_name s) (st_type s)
    (if is_integer_type (st_type s) then st_format s
     else CONFIG_FORMAT_DEFAULT)
    (st_value s) D.

(** The heap after a setting [d] at [D] received a copy of the tree [t]. *)
Definition copied (h : heap) (D : ptr) (d : config_setting_t) (t : tree)
  : heap :=
  <[D := add_elem d (length h)]> h
  ++ layout (clone (positional d) t) (length h) D.

(** The copy of an aggregate [s] under [d] with the elements [elems], and
    the heap once the trees [cts] were copied under it. *)
Definition agg_root (d s : config_setting_t) (D : ptr) (elems : list ptr)
  : config_setting_t :=
  new_setting (if positional d then None else st_name s) (st_type s)
    CONFIG_FORMAT_DEFAULT (Vlist elems) D.

Definition agg_heap (h : heap) (D : ptr) (d s : config_setting_t)
    (cts : list tree) : heap :=
  (<[D := add_elem d (length h)]> h
   ++ [agg_root d s D (roots cts (S (length h)))])
  ++ layout_list cts (S (length h)) (length h).

(** Between [h] and [h'] the heap only grew, and below address [L] no
    setting other than [T] changed. *)
Definition frame_ok (L : nat) (T : option ptr) (h h' : heap) : Prop :=
  length h <= length h'
  /\ forall p, p < L -> Some p <> T -> h' !! p = h !! p.

(** A pointer the copy may write through: the destination [T], a setting
    allocated at or after [L], or null. *)
Definition writable (L : nat) (T : option ptr) (p : option ptr) : Prop :=
  p = T \/ match p with Some a => L <= a | None => True end.

(** A computation that, when it returns, has kept the frame and returns
    a result satisfying [Q]. *)
Definition frames {A : Type} (L : nat) (T : option ptr) (Q : A -> Prop)
    (m : M A) : Prop :=
  forall h a h', L <= length h -> m h = Done a h' ->
                 frame_ok L T h h' /\ Q a.

(** On a tree in which only the elements of groups are named and only
    integers are flagged, the copy differs from the original in the name
    of the root at most. *)
Definition with_name (name : option string) (t : tree) : tree :=
  match t with Node _ ty fmt v cs => Node name ty fmt v cs end.

(** A tree laid out in a heap is read back from its root. *)
Definition reads_back (t : tree) : Prop :=
  forall n pre post par,
    tree_depth t <= n -> well_formed t = true ->
    read n (pre ++ layout t (length pre) par ++ post) (length pre)
    = Some (t, seq (length pre) (tree_size t)).

(** Whether the names in a copy [t'] follow the kind of each aggregate of
    the original [t]: at every depth the children of a group keep their
    names and the children of a list or an array have none. *)
Fixpoint names_follow_kind (t t' : tree) : bool :=
  match t, t' with
  | Node _ ty _ _ cs, Node _ _ _ _ cs' =>
      (fix go (l l' : list tree) : bool :=
         match l, l' with
         | [], [] => true
         | c :: r, c' :: r' =>
             bool_decide
               (t_name c' = if is_group_type ty then t_name c else None)
             && names_follow_kind c c' && go r r'
         | _, _ => false
         end) cs cs'
  end.

(** ** Example heaps *)

Definition setting (name : option string) (ty : setting_type)
    (fmt : config_format) (v : config_value_t) (par : option ptr)
  : config_setting_t :=
  {| st_name := name; st_type := ty; st_format := fmt; st_value := v;
     st_parent := par |}.

(** The configuration
    [g = { x = 0x5; l = (7, "a"); }; d = { };]: the root group at 0, [g]
    at 1, [x] at 2, [l] at 3, [d] at 4, the elements of [l] at 5 and 6. *)
Definition example_heap : heap :=
  [ setting None CONFIG_TYPE_GROUP CONFIG_FORMAT_DEFAULT (Vlist [1; 4]) None;
    setting (Some "g"%string) CONFIG_TYPE_GROUP CONFIG_FORMAT_DEFAULT
      (Vlist [2; 3]) (Some 0);
    setting (Some "x"%string) CONFIG_TYPE_INT CONFIG_FORMAT_HEX
      (Vint 5%Z) (Some 1);
    setting (Some "l"%string) CONFIG_TYPE_LIST CONFIG_FORMAT_DEFAULT
      (Vlist [5; 6]) (Some 1);
    setting (Some "d"%string) CONFIG_TYPE_GROUP CONFIG_FORMAT_DEFAULT
      (Vlist []) (Some 0);
    setting None CONFIG_TYPE_INT CONFIG_FORMAT_DEFAULT (Vint 7%Z) (Some 3);
    setting None CONFIG_TYPE_STRING CONFIG_FORMAT_DEFAULT
      (Vstring "a"%string) (Some 3) ].

(** The tree of [g]. *)
Definition example_tree : tree :=
  Node (Some "g"%string) CONFIG_TYPE_GROUP CONFIG_FORMAT_DEFAULT Vnone
    [ Node (Some "x"%string) CONFIG_TYPE_INT CONFIG_FORMAT_HEX (Vint 5%Z) [];
      Node (Some "l"%string) CONFIG_TYPE_LIST CONFIG_FORMAT_DEFAULT Vnone
        [ Node None CONFIG_TYPE_INT CONFIG_FORMAT_DEFAULT (Vint 7%Z) [];
          Node None CONFIG_TYPE_STRING CONFIG_FORMAT_DEFAULT
            (Vstring "a"%string) [] ] ].

(** The configuration [l = ( { y = 1; } ); d = { };] with the group inside
    the list carrying the name [k]: the root at 0, [l] at 1, [d] at 2, the
    group at 3 and [y] at 4. *)
Definition example_list_heap : heap :=
  [ setting None CONFIG_TYPE_GROUP CONFIG_FORMAT_DEFAULT (Vlist [1; 2]) None;
    setting (Some "l"%string) CONFIG_TYPE_LIST CONFIG_FORMAT_DEFAULT
      (Vlist [3]) (Some 0);
    setting (Some "d"%string) CONFIG_TYPE_GROUP CONFIG_FORMAT_DEFAULT
      (Vlist []) (Some 0);
    setting (Some "k"%string) CONFIG_TYPE_GROUP CONFIG_FORMAT_DEFAULT
      (Vlist [4]) (Some 1);
    setting (Some "y"%string) CONFIG_TYPE_INT CONFIG_FORMAT_DEFAULT
      (Vint 1%Z) (Some 3) ].

Definition example_list_tree : tree :=
  Node (Some "l"%string) CONFIG_TYPE_LIST CONFIG_FORMAT_DEFAULT Vnone
    [ Node (Some "k"%string) CONFIG_TYPE_GROUP CONFIG_FORMAT_DEFAULT Vnone
        [ Node (Some "y"%string) CONFIG_TYPE_INT CONFIG_FORMAT_DEFAULT
            (Vint 1%Z) [] ] ].

(** The settings at the addresses [ps] are the same in both heaps. *)
Definition unchanged (ps : list ptr) (h h' : heap) : Prop :=
  forall p, p ∈ ps -> h' !! p = h !! p.

(** ** Definitions for the copy of a setting into itself *)

(** Every setting of [h] is a setting of [h'] with the same name and
    type. *)
Definition stable (h h' : heap) : Prop :=
  forall p s, h !! p = Some s ->
    exists s', h' !! p = Some s' /\ st_name s' = st_name s
               /\ st_type s' = st_type s.

(** A computation that, when it returns, has kept the names and types. *)
Definition keeps {A : Type} (m : M A) : Prop :=
  forall h a h', m h = Done a h' -> stable h h'.

(** No element of a named group bears the name of the group. *)
Definition self_free (h : heap) (s : config_setting_t) : Prop :=
  match st_type s, st_name s with
  | CONFIG_TYPE_GROUP, Some nm =>
      forall c, c ∈ elements_of s ->
                exists sc, h !! c = Some sc /\ st_name sc <> Some nm
  | _, _ => True
  end.

(** What is left of [config_setting_copy_aggregate] after the copy of the
    aggregate was created. *)
Definition copy_elements (fuel : nat) (newAgg src : option ptr) : M unit :=
  n <- config_setting_length src ;;
  for_loop n 0
    (fun i =>
       grp <- config_setting_is_group src ;;
       e <- config_setting_get_elem src i ;;
       if grp then config_setting_copy_simple fuel newAgg e
       else config_setting_copy_elem fuel newAgg e).

(** The state of the copy of [q] into itself between two elements, [L]
    being the length of the heap [h] the copy started in: [q] has the copy
    [L] as its last element, and [L] is of the type and name of [q] with,
    as [q] itself, no element of its own name. *)
Definition self_copy_inv (h : heap) (q : ptr) (sq : config_setting_t)
    (hi : heap) : Prop :=
  hi !! q = Some (add_elem sq (length h))
  /\ self_free hi sq
  /\ exists sL,
       hi !! length h = Some sL /\ st_type sL = st_type sq
       /\ st_name sL
          = (if is_group_type (st_type sq) then st_name sq else None)
       /\ self_free hi sL.

(** The body of the loop of [config_setting_copy_aggregate] in that
    copy. *)
Definition self_copy_body (fuel : nat) (h : heap) (q : ptr) (i : nat)
  : M unit :=
  grp <- config_setting_is_group (Some q) ;;
  e <- config_setting_get_elem (Some q) i ;;
  if grp then config_setting_copy_simple fuel (Some (length h)) e
  else config_setting_copy_elem fuel (Some (length h)) e.

(** The configuration [u = <setting of type none>; l = ( );]: the root
    group at 0, [u] at 1 and [l] at 2. *)
Definition example_untyped_heap : heap :=
  [ setting None CONFIG_TYPE_GROUP CONFIG_FORMAT_DEFAULT (Vlist [1; 2]) None;
    setting (Some "u"%string) CONFIG_TYPE_NONE CONFIG_FORMAT_DEFAULT Vnone
      (Some 0);
    setting (Some "l"%string) CONFIG_TYPE_LIST CONFIG_FORMAT_DEFAULT
      (Vlist []) (Some 0) ].

(** ** [lib/libconfig.h++]: the type predicates of [Setting] *)

Module Setting.

(** [enum Type], the enumerators in the order of the declaration,
    [TypeNone = 0]. *)
Inductive Type_ :=
| TypeNone
| TypeInt
| TypeInt64
| TypeFloat
| TypeString
| TypeBoolean
| TypeGroup
| TypeArray
| TypeList.

(** The value of an enumerator. *)
Definition value (t : Type_) : Z :=
  match t with
  | TypeNone => 0
  | TypeInt => 1
  | TypeInt64 => 2
  | TypeFloat => 3
  | TypeString => 4
  | TypeBoolean => 5
  | TypeGroup => 6
  | TypeArray => 7
  | TypeList => 8
  end%Z.

(** [_type == t], [_type >= t], [_type > t] and [_type < t] on
    enumerators. *)
Definition eq (a b : Type_) : bool := (value a =? value b)%Z.
Definition ge (a b : Type_) : bool := (value b <=? value a)%Z.
Definition gt (a b : Type_) : bool := (value b <? value a)%Z.
Definition lt (a b : Type_) : bool := (value a <? value b)%Z.

Definition isGroup (_type : Type_) : bool := eq _type TypeGroup.

Definition isArray (_type : Type_) : bool := eq _type TypeArray.

Definition isList (_type : Type_) : bool := eq _type TypeList.

Definition isAggregate (_type : Type_) : bool := ge _type TypeGroup.

Definition isScalar (_type : Type_) : bool :=
  gt _type TypeNone && lt _type TypeGroup.

Definition isNumber (_type : Type_) : bool :=
  eq _type TypeInt || eq _type TypeInt64 || eq _type TypeFloat.

Definition isString (_type : Type_) : bool := eq _type TypeString.

(** Modelled from the spec: the [Setting::Type] of a setting of the C
    library, type for type (the conversion is part of [libconfigcpp.c++],
    which is not at hand). *)
Definition of_setting_type (ty : setting_type) : Type_ :=
  match ty with
  | CONFIG_TYPE_NONE => TypeNone
  | CONFIG_TYPE_INT => TypeInt
  | CONFIG_TYPE_INT64 => TypeInt64
  | CONFIG_TYPE_FLOAT => TypeFloat
  | CONFIG_TYPE_STRING => TypeString
  | CONFIG_TYPE_BOOL => TypeBoolean
  | CONFIG_TYPE_GROUP => TypeGroup
  | CONFIG_TYPE_ARRAY => TypeArray
  | CONFIG_TYPE_LIST => TypeList
  end.

End Setting.

(** * Properties of the numeric literal codec *)

Local Open Scope string_scope.
Local Open Scope Z_scope.

Example parse_integer_hex : libconfig_parse_integer "0x1A" = (26, true).
Proof. reflexivity. Qed.
Example parse_integer_dec : libconfig_parse_integer "10" = (10, true).
Proof. reflexivity. Qed.
Example parse_integer_08 : libconfig_parse_integer "08" = (0, false).
Proof. reflexivity. Qed.
Example parse_hex64_mingw : libconfig_parse_hex64 true "0x1F" = 31.
Proof. reflexivity. Qed.
Example parse_hex64_posix_noprefix : libconfig_parse_hex64 false "1F" = 31.
Proof. reflexivity. Qed.

Section HornerFacts.

Variable base : Z.

Lemma horner_acc (ds : list Z) (acc : Z) :
  horner base ds acc = acc * base ^ Z.of_nat (length ds) + horner base ds 0.
Proof.
  revert acc; induction ds as [|d r IH]; intros acc.
  - simpl. lia.
  - cbn [horner length]. rewrite IH, (IH (0 * base + d)).
    rewrite Nat2Z.inj_succ, Z.pow_succ_r by lia. ring.
Qed.

Lemma horner_mod (m : Z) (ds : list Z) (a b : Z) :
  a mod m = b mod m -> horner base ds a mod m = horner base ds b mod m.
Proof.
  intros E. rewrite (horner_acc ds a), (horner_acc ds b).
  rewrite (Zplus_mod (a * _)), (Zplus_mod (b * _)).
  rewrite (Zmult_mod a), (Zmult_mod b). now rewrite E.
Qed.

Lemma digits_spec (s : string) (acc : Z) (n : nat) :
  Libc.digits base s acc n
  = (horner base (leading_digits base s) acc,
     (n + length (leading_digits base s))%nat,
     drop_digits base s).
Proof.
  revert acc n; induction s as [|c r IH]; intros acc n; cbn.
  - now rewrite Nat.add_0_r.
  - destruct (Libc.digit_in base c) as [d|]; cbn.
    + rewrite IH. now rewrite Nat.add_succ_r.
    + now rewrite Nat.add_0_r.
Qed.

End HornerFacts.

(** ** Bit-level facts for the accumulation loops *)

Lemma lor_shifted_digit (k d n : Z) :
  0 <= n -> 0 <= d < 2 ^ n -> Z.lor (k * 2 ^ n) d = k * 2 ^ n + d.
Proof.
  intros Hn Hd. symmetry. apply Z.add_nocarry_lor.
  apply Z.bits_inj'. intros i Hi.
  rewrite Z.land_spec, Z.bits_0.
  destruct (Z.lt_ge_cases i n) as [Hlt|Hge].
  - rewrite <- Z.shiftl_mul_pow2 by assumption.
    rewrite Z.shiftl_spec_low by assumption. reflexivity.
  - destruct (Z.eq_dec d 0) as [->|Hnz].
    + rewrite Z.bits_0. apply andb_false_r.
    + assert (Hl : Z.log2 d < n) by (apply Z.log2_lt_pow2; lia).
      rewrite (Z.bits_above_log2 d i) by lia. apply andb_false_r.
Qed.

Lemma wrap64_range (z : Z) : 0 <= wrap64 z < two64.
Proof. unfold wrap64. apply Z.mod_pos_bound. reflexivity. Qed.

Lemma wrap64_small (z : Z) : 0 <= z < two64 -> wrap64 z = z.
Proof. apply Z.mod_small. Qed.

(** [val <<= n; val |= d] on an [unsigned long long], for a digit [d] of
    [n] bits. *)
Lemma shift_or_digit (val d n : Z) :
  0 < n <= 64 -> 0 <= d < 2 ^ n ->
  let val' := Z.lor (wrap64 (Z.shiftl val n)) d in
  0 <= val' < two64 /\ wrap64 val' = wrap64 (val * 2 ^ n + d).
Proof.
  intros Hn Hd val'. subst val'.
  rewrite Z.shiftl_mul_pow2 by lia.
  assert (E : wrap64 (val * 2 ^ n) = (val mod 2 ^ (64 - n)) * 2 ^ n).
  { unfold wrap64, two64. replace 64 with ((64 - n) + n) at 1 by lia.
    rewrite Z.pow_add_r by lia.
    rewrite Zmult_mod_distr_r. reflexivity. }
  rewrite E, lor_shifted_digit by lia.
  assert (Hm : 0 <= val mod 2 ^ (64 - n) < 2 ^ (64 - n))
    by (apply Z.mod_pos_bound; apply Z.pow_pos_nonneg; lia).
  assert (Hp : 2 ^ (64 - n) * 2 ^ n = two64).
  { rewrite <- Z.pow_add_r by lia. unfold two64. f_equal. lia. }
  split.
  - nia.
  - rewrite <- E. unfold wrap64.
    rewrite Z.add_mod_idemp_l by (unfold two64; lia). reflexivity.
Qed.

(** ** Character classes against digit values *)

Ltac all_ascii c :=
  destruct c as [[] [] [] [] [] [] [] []]; vm_compute; try reflexivity.

Lemma digit_in_16 (c : ascii) :
  Libc.digit_in 16 c
  = if Libc.isxdigit c then Some (hex_nibble c) else None.
Proof. all_ascii c. Qed.

Lemma digit_in_2 (c : ascii) :
  Libc.digit_in 2 c
  = if (code c =? 48) || (code c =? 49)
    then Some (if code c =? 49 then 1 else 0) else None.
Proof. all_ascii c. Qed.

Lemma digit_value_nonneg (c : ascii) :
  match Libc.digit_value c with Some v => 0 <=? v | None => true end = true.
Proof. all_ascii c. Qed.

Lemma digit_in_range (base : Z) (c : ascii) (d : Z) :
  Libc.digit_in base c = Some d -> 0 <= d < base.
Proof.
  unfold Libc.digit_in. intros H.
  pose proof (digit_value_nonneg c) as Hv.
  destruct (Libc.digit_value c) as [v|]; [|discriminate].
  destruct (Z.ltb_spec v base); [|discriminate].
  injection H as <-. lia.
Qed.

Lemma horner_nonneg (base : Z) (s : string) (acc : Z) :
  0 <= acc -> 0 <= horner base (leading_digits base s) acc.
Proof.
  revert acc; induction s as [|c r IH]; intros acc Hacc; cbn; [assumption|].
  destruct (Libc.digit_in base c) as [d|] eqn:E; cbn; [|assumption].
  apply digit_in_range in E. apply IH. nia.
Qed.

Lemma exact_value_nonneg (base : Z) (s : string) : 0 <= exact_value base s.
Proof. apply horner_nonneg. lia. Qed.

(** ** The accumulation loops compute the digit run modulo [2^64] *)

Lemma hex_loop_spec (p : string) (val : Z) :
  0 <= val < two64 ->
  hex_loop p val = wrap64 (horner 16 (leading_digits 16 p) val).
Proof.
  revert val; induction p as [|c q IH]; intros val Hval; cbn.
  - symmetry. now apply wrap64_small.
  - rewrite digit_in_16.
    destruct (Libc.isxdigit c) eqn:Hx; cbn.
    + assert (Hd : 0 <= hex_nibble c < 2 ^ 4).
      { apply (digit_in_range 16 c). rewrite digit_in_16, Hx. reflexivity. }
      destruct (shift_or_digit val (hex_nibble c) 4 ltac:(lia) Hd) as [Hr Hw].
      rewrite IH by exact Hr.
      apply horner_mod. exact Hw.
    + symmetry. now apply wrap64_small.
Qed.

Lemma bin_loop_spec (p : string) (val : Z) :
  0 <= val < two64 ->
  bin_loop p val = wrap64 (horner 2 (leading_digits 2 p) val).
Proof.
  revert val; induction p as [|c q IH]; intros val Hval; cbn.
  - symmetry. now apply wrap64_small.
  - rewrite digit_in_2.
    destruct ((code c =? 48) || (code c =? 49)) eqn:Hx; cbn.
    + set (d := if code c =? 49 then 1 else 0).
      assert (Hd : 0 <= d < 2 ^ 1) by (subst d; destruct (code c =? 49); lia).
      destruct (shift_or_digit val d 1 ltac:(lia) Hd) as [Hr Hw].
      rewrite IH by exact Hr.
      apply horner_mod. exact Hw.
    + symmetry. now apply wrap64_small.
Qed.

(** The MinGW variants on a text with the prefix. *)
Lemma parse_hex64_mingw_prefixed (x : ascii) (body : string) :
  x = "x"%char \/ x = "X"%char ->
  libconfig_parse_hex64 true (String "0" (String x body))
  = wrap64 (exact_value 16 body).
Proof.
  intros [-> | ->]; cbn; apply hex_loop_spec; unfold two64; lia.
Qed.

Lemma parse_bin64_mingw_prefixed (b : ascii) (body : string) :
  b = "b"%char \/ b = "B"%char ->
  libconfig_parse_bin64 true (String "0" (String b body))
  = Some (wrap64 (exact_value 2 body)).
Proof.
  intros [-> | ->]; cbn; f_equal; apply bin_loop_spec; unfold two64; lia.
Qed.

(** The MinGW variants on a text without the prefix. *)
Lemma parse_hex64_mingw_noprefix (s : string) :
  has_hex_prefix s = false -> libconfig_parse_hex64 true s = 0.
Proof.
  unfold has_hex_prefix, has_prefix, libconfig_parse_hex64.
  destruct s as [|z [|x r]]; cbn; intros H.
  - reflexivity.
  - destruct (code z =? 48); reflexivity.
  - destruct (code z =? 48); cbn in *; [|reflexivity].
    change (code "x") with 120 in H. change (code "X") with 88 in H.
    destruct (code x =? 120), (code x =? 88); cbn in *; congruence.
Qed.

Lemma parse_bin64_mingw_noprefix (s : string) :
  has_bin_prefix s = false -> libconfig_parse_bin64 true s = Some 0.
Proof.
  unfold has_bin_prefix, has_prefix, libconfig_parse_bin64.
  destruct s as [|z [|x r]]; cbn; intros H.
  - reflexivity.
  - destruct (code z =? 48); reflexivity.
  - destruct (code z =? 48); cbn in *; [|reflexivity].
    change (code "b") with 98 in H. change (code "B") with 66 in H.
    destruct (code x =? 98), (code x =? 66); cbn in *; congruence.
Qed.

(** The [strtoull] variants. *)
Lemma parse_hex64_posix_prefixed (x : ascii) (body : string) :
  x = "x"%char \/ x = "X"%char ->
  libconfig_parse_hex64 false (String "0" (String x body))
  = clamp_u64 (exact_value 16 body).
Proof.
  intros Hx. unfold libconfig_parse_hex64, Libc.strtoull, Libc.subject, clamp_u64.
  destruct body as [|h r].
  - destruct Hx as [-> | ->]; reflexivity.
  - assert (E : Libc.prefix 16 (String "0" (String x (String h r)))
               = if Libc.isxdigit h then (16, String h r)
                 else (16, String "0" (String x (String h r)))).
    { destruct Hx as [-> | ->]; cbn; destruct (Libc.isxdigit h); reflexivity. }
    change (Libc.sign (Libc.skip_space (String "0" (String x (String h r)))))
      with (false, String "0" (String x (String h r))).
    cbv beta iota. rewrite E.
    pose proof (exact_value_nonneg 16 (String h r)) as Hnn.
    unfold exact_value in *. cbn [leading_digits] in *.
    rewrite digit_in_16 in *.
    destruct (Libc.isxdigit h) eqn:Hh.
    + rewrite digits_spec. cbn [leading_digits]. rewrite digit_in_16, Hh.
      cbn [length Nat.add]. 
      destruct (two64 <=? _) eqn:Hov; cbn; [reflexivity|].
      apply wrap64_small. apply Z.leb_gt in Hov. cbn [horner] in *. lia.
    + destruct Hx as [-> | ->]; reflexivity.
Qed.

Lemma parse_bin64_posix_digits (a b : ascii) (body : string) :
  leading_digits 2 body <> [] ->
  libconfig_parse_bin64 false (String a (String b body))
  = Some (clamp_u64 (exact_value 2 body)).
Proof.
  intros Hne. unfold libconfig_parse_bin64. f_equal.
  unfold Libc.strtoull, Libc.subject, clamp_u64.
  destruct body as [|c r]; [now destruct Hne|].
  cbn [leading_digits] in Hne.
  assert (Hc : (code c =? 48) || (code c =? 49) = true).
  { rewrite digit_in_2 in Hne. destruct ((code c =? 48) || (code c =? 49)); congruence. }
  assert (E1 : Libc.sign (Libc.skip_space (String c r)) = (false, String c r)).
  { revert Hc. clear. all_ascii c; intros; try discriminate; reflexivity. }
  rewrite E1.
  assert (E2 : Libc.prefix 2 (String c r) = (2, String c r)).
  { destruct r as [|? [|? ?]]; cbn; rewrite ?andb_false_r; reflexivity. }
  rewrite E2, digits_spec.
  pose proof (exact_value_nonneg 2 (String c r)) as Hnn.
  unfold exact_value in *.
  destruct (leading_digits 2 (String c r)) eqn:El; [cbn in El; rewrite digit_in_2, Hc in El; discriminate|].
  cbn [length Nat.add].
  destruct (two64 <=? _) eqn:Hov; cbn; [reflexivity|].
  apply wrap64_small. apply Z.leb_gt in Hov. cbn [horner] in *. lia.
Qed.

(** [errno] after [strtoull] on a prefixed literal. *)
Lemma erange_hex_prefixed (x : ascii) (body : string) :
  x = "x"%char \/ x = "X"%char ->
  Libc.erange (Libc.strtoull (String "0" (String x body)) 16)
  = (two64 <=? exact_value 16 body).
Proof.
  intros Hx. unfold Libc.strtoull, Libc.subject.
  destruct body as [|h r].
  - destruct Hx as [-> | ->]; reflexivity.
  - assert (E : Libc.prefix 16 (String "0" (String x (String h r)))
               = if Libc.isxdigit h then (16, String h r)
                 else (16, String "0" (String x (String h r)))).
    { destruct Hx as [-> | ->]; cbn; destruct (Libc.isxdigit h); reflexivity. }
    change (Libc.sign (Libc.skip_space (String "0" (String x (String h r)))))
      with (false, String "0" (String x (String h r))).
    cbv beta iota. rewrite E.
    unfold exact_value. cbn [leading_digits].
    rewrite digit_in_16.
    destruct (Libc.isxdigit h) eqn:Hh.
    + rewrite digits_spec. cbn [leading_digits]. rewrite digit_in_16, Hh.
      cbn [length Nat.add].
      now destruct (two64 <=? _).
    + destruct Hx as [-> | ->]; reflexivity.
Qed.

Lemma erange_bin_overflow (body : string) :
  two64 <= exact_value 2 body ->
  Libc.erange (Libc.strtoull body 2) = true.
Proof.
  intros Hov. unfold Libc.strtoull, Libc.subject.
  destruct body as [|c r]; [vm_compute in Hov; now destruct Hov|].
  unfold exact_value in Hov.
  destruct (leading_digits 2 (String c r)) eqn:El;
    [vm_compute in Hov; now destruct Hov|].
  assert (Hc : (code c =? 48) || (code c =? 49) = true).
  { cbn [leading_digits] in El. rewrite digit_in_2 in El.
    destruct ((code c =? 48) || (code c =? 49)); congruence. }
  assert (E1 : Libc.sign (Libc.skip_space (String c r)) = (false, String c r)).
  { revert Hc. clear. all_ascii c; intros; try discriminate; reflexivity. }
  rewrite E1.
  assert (E2 : Libc.prefix 2 (String c r) = (2, String c r)).
  { destruct r as [|? [|? ?]]; cbn; rewrite ?andb_false_r; reflexivity. }
  rewrite E2, digits_spec, El. cbn [length Nat.add].
  destruct (Z.leb_spec two64 (horner 2 (z :: l) 0)); [reflexivity|lia].
Qed.

(** ** [libconfig_parse_integer] against the specification's words *)

Lemma prefix0_spec (body : string) :
  Libc.prefix 0 body
  = if has_hex_prefix body && Libc.isxdigit (deref (advance (advance body)))
    then (16, advance (advance body))
    else (if code (deref body) =? 48 then 8 else 10, body).
Proof.
  unfold has_hex_prefix, has_prefix.
  destruct body as [|z [|x [|h r]]]; cbn [Libc.prefix deref advance].
  - reflexivity.
  - reflexivity.
  - change (Libc.isxdigit "000") with false. rewrite andb_false_r. reflexivity.
  - change (0 =? 0) with true. cbn [orb]. rewrite andb_true_r.
    unfold Libc.is_x. change (code "x") with 120. change (code "X") with 88.
    reflexivity.
Qed.

Lemma hex_prefix_not_at_end (s : string) :
  has_hex_prefix (snd (Libc.sign (Libc.skip_space s))) = true ->
  at_end s = false.
Proof.
  destruct s as [|c r]; intros H; [discriminate H|].
  unfold at_end. cbn [deref].
  destruct (code c =? 0) eqn:E; [|reflexivity].
  assert (c = "000"%char) as -> by (revert E; clear; all_ascii c; discriminate).
  destruct r; cbn in H; discriminate H.
Qed.

Lemma digit_not_at_end (base : Z) (s : string) :
  leading_digits base (snd (Libc.sign (Libc.skip_space s))) <> [] ->
  at_end s = false.
Proof.
  destruct s as [|c r]; intros H; [now cbn in H|].
  unfold at_end. cbn [deref].
  destruct (code c =? 0) eqn:E; [|reflexivity].
  assert (c = "000"%char) as -> by (revert E; clear; all_ascii c; discriminate).
  exfalso. apply H. reflexivity.
Qed.


Lemma parse_integer_tail (s : string) (neg : bool) (v : Z) (l : list Z)
    (rest : string) :
  0 <= v ->
  (let r :=
     match length l with
     | O => {| Libc.result := 0; Libc.endptr := s; Libc.erange := false |}
     | S _ =>
         if neg then
           if two63 <? v
           then {| Libc.result := - two63; Libc.endptr := rest;
                   Libc.erange := true |}
           else {| Libc.result := - v; Libc.endptr := rest;
                   Libc.erange := false |}
         else
           if two63 <=? v
           then {| Libc.result := two63 - 1; Libc.endptr := rest;
                   Libc.erange := true |}
           else {| Libc.result := v; Libc.endptr := rest;
                   Libc.erange := false |}
     end in
   if negb (code (deref (Libc.endptr r)) =? 0) || Libc.erange r
   then (0, false) else (Libc.result r, true))
  = match l with
    | [] => (0, at_end s)
    | _ =>
        if at_end rest && (- two63 <=? (if neg then - v else v))
           && ((if neg then - v else v) <? two63)
        then (if neg then - v else v, true)
        else (0, false)
    end.
Proof.
  intros Hv. unfold at_end. cbv zeta.
  destruct l as [|d l]; cbn [length].
  - cbn. destruct (code (deref s) =? 0); reflexivity.
  - assert (H63 : 0 < two63) by reflexivity.
    destruct neg.
    + destruct (Z.ltb_spec two63 v); cbn.
      * rewrite orb_true_r.
        destruct (Z.leb_spec (- two63) (- v)); [lia|].
        now rewrite andb_false_r.
      * rewrite orb_false_r.
        destruct (code (deref rest) =? 0); cbn; [|reflexivity].
        destruct (Z.leb_spec (- two63) (- v)); [|lia].
        destruct (Z.ltb_spec (- v) two63); [|lia]. reflexivity.
    + destruct (Z.leb_spec two63 v); cbn.
      * rewrite orb_true_r.
        destruct (Z.ltb_spec v two63); [lia|].
        now rewrite andb_false_r.
      * rewrite orb_false_r.
        destruct (code (deref rest) =? 0); cbn; [|reflexivity].
        destruct (Z.leb_spec (- two63) v); [|lia].
        destruct (Z.ltb_spec v two63); [|lia]. reflexivity.
Qed.

Lemma parse_integer_refines (s : string) :
  libconfig_parse_integer s = spec_parse_integer s.
Proof.
  unfold libconfig_parse_integer, spec_parse_integer, Libc.strtoll,
    Libc.subject, detect_base, literal_digits.
  destruct (Libc.sign (Libc.skip_space s)) as [neg body] eqn:Ess.
  rewrite prefix0_spec.
  destruct (has_hex_prefix body) eqn:Hp; cbn [andb].
  - destruct (Libc.isxdigit (deref (advance (advance body)))) eqn:Hx.
    + rewrite digits_spec. unfold exact_value. cbn [Nat.add].
      apply parse_integer_tail. apply horner_nonneg. lia.
    + assert (Hs : at_end s = false)
        by (apply hex_prefix_not_at_end; now rewrite Ess).
      assert (El : leading_digits 16 (advance (advance body)) = []).
      { destruct (advance (advance body)) as [|h r]; [reflexivity|].
        cbn in *. now rewrite digit_in_16, Hx. }
      rewrite El, Hs.
      unfold has_hex_prefix, has_prefix in Hp.
      destruct body as [|z [|x r]]; try discriminate Hp.
      apply andb_true_iff in Hp as [Hz Hxx].
      assert (z = "0"%char) as ->
        by (revert Hz; clear; all_ascii z; discriminate).
      assert (Hx' : x = "x"%char \/ x = "X"%char)
        by (revert Hxx; clear; all_ascii x; (discriminate || tauto)).
      destruct Hx' as [-> | ->]; destruct neg; reflexivity.
  - rewrite digits_spec. unfold exact_value. cbn [Nat.add].
    apply parse_integer_tail. apply horner_nonneg. lia.
Qed.

(** ** Bit tests in [libconfig_format_bin] *)

Lemma land_neg_pow2 (a k : Z) :
  0 <= k -> Z.land a (- 2 ^ k) = (a / 2 ^ k) * 2 ^ k.
Proof.
  intros Hk.
  replace (- 2 ^ k) with (Z.lnot (Z.ones k))
    by (rewrite Z.ones_equiv; unfold Z.lnot; lia).
  rewrite <- Z.ldiff_land, Z.ldiff_ones_r by assumption.
  rewrite Z.shiftl_mul_pow2, Z.shiftr_div_pow2 by assumption. reflexivity.
Qed.

Lemma land_pow2_testbit (a j : Z) :
  0 <= j -> (Z.land a (2 ^ j) =? 0) = negb (Z.testbit a j).
Proof.
  intros Hj. destruct (Z.testbit a j) eqn:Hb; cbn.
  - apply Z.eqb_neq. intros E.
    assert (Hf : Z.testbit (Z.land a (2 ^ j)) j = false)
      by (rewrite E; apply Z.bits_0).
    rewrite Z.land_spec, Hb, Z.pow2_bits_true in Hf by assumption.
    discriminate.
  - apply Z.eqb_eq. apply Z.bits_inj'. intros i Hi.
    rewrite Z.land_spec, Z.bits_0, Z.pow2_bits_eqb by assumption.
    destruct (Z.eqb_spec j i) as [<-|]; [now rewrite Hb|apply andb_false_r].
Qed.

Lemma sint64_small (z : Z) : 0 <= z < two63 -> sint64 z = z.
Proof.
  intros H. unfold sint64, wrap64, two63, two64 in *.
  rewrite Z.mod_small by lia.
  destruct (Z.ltb_spec z (2 ^ 63)); lia.
Qed.

Lemma sint64_neg (z : Z) : - two63 <= z < 0 -> sint64 z = z.
Proof.
  intros H. unfold sint64, wrap64, two63, two64 in *.
  replace (z mod 2 ^ 64) with (z + 2 ^ 64)
    by (apply Z.mod_unique with (q := -1); lia).
  destruct (Z.ltb_spec (z + 2 ^ 64) (2 ^ 63)); lia.
Qed.

Lemma wrap64_neg (z : Z) : - two63 <= z < 0 -> wrap64 z = z + two64.
Proof.
  intros H. unfold wrap64, two63, two64 in *.
  symmetry; apply Z.mod_unique with (q := -1); lia.
Qed.

Lemma testbit63_wrap (val : Z) :
  - two63 <= val < two63 ->
  Z.testbit (wrap64 val) 63 = (val <? 0).
Proof.
  intros H. unfold two63 in H.
  rewrite Z.testbit_eqb by lia.
  destruct (Z.ltb_spec val 0).
  - rewrite wrap64_neg by (unfold two63; lia). unfold two64.
    replace ((val + 2 ^ 64) / 2 ^ 63) with 1
      by (apply Z.div_unique with (r := val + 2 ^ 63); lia).
    reflexivity.
  - rewrite wrap64_small by (unfold two64; lia).
    rewrite Z.div_small by lia. reflexivity.
Qed.

(** The test [val & (1ll << (63 - c))] reads bit [63 - c] of the two's
    complement pattern of [val]. *)
Lemma format_bin_bit (val c : Z) :
  - two63 <= val < two63 -> 0 <= c < 64 ->
  (Z.land val (sint64 (Z.shiftl 1 (63 - c))) =? 0)
  = negb (Z.testbit (wrap64 val) (63 - c)).
Proof.
  intros Hv Hc. rewrite Z.shiftl_1_l.
  destruct (Z.eq_dec c 0) as [->|Hnz].
  - change (sint64 (2 ^ (63 - 0))) with (- 2 ^ 63).
    rewrite land_neg_pow2 by lia. change (63 - 0) with 63.
    rewrite testbit63_wrap by assumption. unfold two63 in Hv.
    destruct (Z.ltb_spec val 0); cbn.
    + apply Z.eqb_neq.
      replace (val / 2 ^ 63) with (-1)
        by (apply Z.div_unique with (r := val + 2 ^ 63); lia).
      lia.
    + rewrite Z.div_small by lia. reflexivity.
  - assert (Hp : 0 < 2 ^ (63 - c) < two63).
    { unfold two63. split; [apply Z.pow_pos_nonneg; lia|].
      apply Z.pow_lt_mono_r; lia. }
    rewrite sint64_small by lia.
    rewrite land_pow2_testbit by lia.
    unfold wrap64, two64. rewrite Z.mod_pow2_bits_low by lia. reflexivity.
Qed.

Lemma string_take_nil (n : nat) : string_take n "" = "".
Proof. destruct n; reflexivity. Qed.

(** The loop emits the remaining [m = 64 - c] bits, cut at the limit. *)
Lemma format_bin_loop_spec (val limit : Z) (m n : nat) (i : Z) :
  - two63 <= val < two63 -> (m <= n)%nat -> (m <= 64)%nat ->
  format_bin_loop n val limit (64 - Z.of_nat m) i
  = string_take (Z.to_nat (limit - i)) (bits_from m (wrap64 val)).
Proof.
  intros Hv. revert n i. induction m as [|m IH]; intros n i Hn Hm.
  - cbn [bits_from]. rewrite string_take_nil.
    destruct n; cbn; reflexivity.
  - destruct n as [|n]; [lia|]. cbn [format_bin_loop bits_from].
    destruct (Z.ltb_spec (64 - Z.of_nat (S m)) 64); [|lia]. cbn [andb].
    destruct (Z.ltb_spec i limit).
    + replace (Z.to_nat (limit - i)) with (S (Z.to_nat (limit - (i + 1))))
        by lia.
      cbn [string_take]. f_equal.
      * rewrite format_bin_bit by (assumption || lia).
        replace (63 - (64 - Z.of_nat (S m))) with (Z.of_nat m) by lia.
        destruct (Z.testbit (wrap64 val) (Z.of_nat m)); reflexivity.
      * replace (64 - Z.of_nat (S m) + 1) with (64 - Z.of_nat m) by lia.
        apply IH; lia.
    + replace (Z.to_nat (limit - i)) with 0%nat by lia. reflexivity.
Qed.

(** ** Counting leading zeros *)

Lemma clzl_loop_spec (val : Z) (fuel : nat) (k : Z) :
  val <> 0 -> - two63 <= val < 2 ^ (k + 1) -> 0 <= k <= 63 ->
  (val < 0 -> k = 63) -> (Z.to_nat k < fuel)%nat ->
  clzl_loop fuel val (- 2 ^ k) (63 - k) = Some (63 - Z.log2 (wrap64 val)).
Proof.
  intros Hnz. revert k. induction fuel as [|fuel IH]; intros k Hv Hk Hneg Hf;
    [lia|].
  cbn [clzl_loop]. rewrite land_neg_pow2 by lia.
  assert (Hp : 0 < 2 ^ k) by (apply Z.pow_pos_nonneg; lia).
  assert (Hc : (- 2 ^ k =? 0) = false) by (apply Z.eqb_neq; lia).
  rewrite Hc. cbn [negb]. rewrite andb_true_r.
  destruct (Z.eqb_spec (val / 2 ^ k * 2 ^ k) 0) as [E|E].
  - assert (Hq : val / 2 ^ k = 0) by nia.
    apply Z.div_small_iff in Hq; [|lia]. destruct Hq as [Hq|Hq]; [|lia].
    assert (k <> 0) by (intros ->; change (2 ^ 0) with 1 in Hq; lia).
    replace (sint64 (Z.shiftr (- 2 ^ k) 1)) with (- 2 ^ (k - 1)).
    + replace (63 - k + 1) with (63 - (k - 1)) by lia.
      apply IH; try lia. replace (k - 1 + 1) with k by lia. lia.
    + rewrite Z.shiftr_div_pow2 by lia. change (2 ^ 1) with 2.
      replace (- 2 ^ k) with ((- 2 ^ (k - 1)) * 2).
      * rewrite Z.div_mul by lia. symmetry. apply sint64_neg.
        assert (2 ^ (k - 1) <= 2 ^ 63) by (apply Z.pow_le_mono_r; lia).
        assert (0 < 2 ^ (k - 1)) by (apply Z.pow_pos_nonneg; lia).
        unfold two63. lia.
      * replace k with (k - 1 + 1) at 2 by lia.
        rewrite Z.pow_add_r by lia. lia.
  - do 2 f_equal.
    destruct (Z.ltb_spec val 0) as [Hlt|Hge].
    + rewrite (Hneg Hlt). rewrite wrap64_neg by lia.
      symmetry. apply Z.log2_unique; unfold two63, two64 in *; lia.
    + assert (Hq : val / 2 ^ k <> 0) by nia.
      assert (2 ^ k <= val).
      { destruct (Z.lt_ge_cases val (2 ^ k)); [|assumption].
        rewrite Z.div_small in Hq by lia. congruence. }
      assert (2 ^ (k + 1) <= two64)
        by (unfold two64; apply Z.pow_le_mono_r; lia).
      rewrite wrap64_small by lia.
      symmetry. apply Z.log2_unique; lia.
Qed.

Lemma clzl_portable_spec (val : Z) (fuel : nat) :
  val <> 0 -> - two63 <= val < two63 -> (64 <= fuel)%nat ->
  clzl_portable fuel val = Some (63 - Z.log2 (wrap64 val)).
Proof.
  intros Hnz Hv Hf. unfold clzl_portable.
  change (sint64 (Z.shiftl 1 63)) with (- 2 ^ 63).
  change 0 with (63 - 63) at 1.
  apply clzl_loop_spec; try lia.
  change (2 ^ (63 + 1)) with two64. unfold two63, two64 in *. lia.
Qed.

Lemma builtin_clzl_spec (val : Z) :
  val <> 0 -> - two63 <= val < two63 ->
  builtin_clzl 64 val = Some (63 - Z.log2 (wrap64 val)).
Proof.
  intros Hnz Hv. unfold builtin_clzl. fold two64. fold (wrap64 val).
  destruct (Z.eqb_spec (wrap64 val) 0) as [E|E]; [|reflexivity].
  exfalso. destruct (Z.ltb_spec val 0).
  - rewrite wrap64_neg in E by lia. unfold two63, two64 in *. lia.
  - rewrite wrap64_small in E by (unfold two63, two64 in *; lia). lia.
Qed.

Lemma wrap64_log2 (val : Z) :
  val <> 0 -> - two63 <= val < two63 ->
  0 < wrap64 val /\ 0 <= Z.log2 (wrap64 val) <= 63.
Proof.
  intros Hnz Hv.
  assert (H0 : 0 < wrap64 val).
  { destruct (Z.ltb_spec val 0).
    - rewrite wrap64_neg by lia. unfold two63, two64 in *. lia.
    - rewrite wrap64_small by (unfold two63, two64 in *; lia). lia. }
  split; [assumption|]. split; [apply Z.log2_nonneg|].
  assert (Z.log2 (wrap64 val) < 64); [|lia].
  apply Z.log2_lt_pow2; [assumption|apply wrap64_range].
Qed.

(** ** The minimal binary numeral *)

Lemma bits_from_digits (n : nat) (u : Z) (acc : Z) :
  horner 2 (leading_digits 2 (bits_from n u)) acc
  = acc * 2 ^ Z.of_nat n + u mod 2 ^ Z.of_nat n.
Proof.
  revert acc; induction n as [|m IH]; intros acc.
  - cbn. rewrite Z.mod_1_r. lia.
  - cbn [bits_from leading_digits].
    assert (Hb : Libc.digit_in 2
                   (if Z.testbit u (Z.of_nat m) then "1"%char else "0"%char)
                 = Some (Z.b2z (Z.testbit u (Z.of_nat m))))
      by (destruct (Z.testbit u (Z.of_nat m)); reflexivity).
    rewrite Hb. cbn [horner]. rewrite IH.
    rewrite Z.testbit_spec' by lia.
    rewrite Nat2Z.inj_succ, Z.pow_succ_r by lia.
    rewrite (Z.mul_comm 2 (2 ^ Z.of_nat m)).
    rewrite (Z.rem_mul_r u (2 ^ Z.of_nat m) 2) by lia. ring.
Qed.

Lemma minimal_binary_value (u : Z) :
  0 < u -> exact_value 2 (minimal_binary u) = u.
Proof.
  intros Hu. unfold exact_value, minimal_binary.
  rewrite bits_from_digits.
  pose proof (Z.log2_nonneg u).
  rewrite Z2Nat.id by lia.
  apply Z.mod_small. split; [lia|].
  pose proof (Z.log2_spec u Hu). replace (Z.log2 u + 1) with (Z.succ (Z.log2 u)) by lia. lia.
Qed.

Lemma minimal_binary_head (u : Z) :
  0 < u -> deref (minimal_binary u) = "1"%char.
Proof.
  intros Hu. unfold minimal_binary.
  pose proof (Z.log2_nonneg u).
  replace (Z.to_nat (Z.log2 u + 1)) with (S (Z.to_nat (Z.log2 u))) by lia.
  cbn [bits_from deref]. rewrite Z2Nat.id by lia.
  now rewrite Z.bit_log2.
Qed.

Lemma format_bin_spec (b : build) (fuel : nat) (val buflen : Z) :
  gnuc b = false \/ ulong_bits b = 64 ->
  val <> 0 -> - two63 <= val < two63 -> (64 <= fuel)%nat ->
  libconfig_format_bin b fuel val buflen
  = Some (string_take (Z.to_nat (wrap64 (buflen - 1)))
            (minimal_binary (wrap64 val))).
Proof.
  intros Hb Hnz Hv Hf. unfold libconfig_format_bin.
  assert (Hc : clzl b fuel val = Some (63 - Z.log2 (wrap64 val))).
  { unfold clzl. destruct (gnuc b) eqn:Hg.
    - destruct Hb as [Hb|Hb]; [discriminate|]. rewrite Hb.
      now apply builtin_clzl_spec.
    - now apply clzl_portable_spec. }
  rewrite Hc. f_equal.
  destruct (wrap64_log2 val Hnz Hv) as [Hu Hl].
  replace (63 - Z.log2 (wrap64 val))
    with (64 - Z.of_nat (Z.to_nat (Z.log2 (wrap64 val) + 1))) by lia.
  rewrite format_bin_loop_spec by (assumption || lia).
  rewrite Z.sub_0_r. reflexivity.
Qed.

(** ** Texts: prefixes, searching, trailing zeros *)

Lemma string_take_all (n : nat) (s : string) :
  (String.length s <= n)%nat -> string_take n s = s.
Proof.
  revert n; induction s as [|c r IH]; intros n Hn.
  - apply string_take_nil.
  - destruct n as [|n]; cbn in *; [lia|]. f_equal. apply IH. lia.
Qed.

Lemma string_take_length (n : nat) (s : string) :
  String.length (string_take n s) = Nat.min n (String.length s).
Proof.
  revert n; induction s as [|c r IH]; intros [|n]; cbn; try reflexivity.
  now rewrite IH.
Qed.

Lemma string_take_take (n m : nat) (s : string) :
  (n <= m)%nat -> string_take n (string_take m s) = string_take n s.
Proof.
  revert n m; induction s as [|c r IH]; intros [|n] [|m] H; cbn;
    try reflexivity; try lia.
  f_equal. apply IH. lia.
Qed.

Lemma string_app_length (s t : string) :
  String.length (s ++ t) = (String.length s + String.length t)%nat.
Proof. induction s as [|c r IH]; cbn; [reflexivity|now rewrite IH]. Qed.

Lemma string_app_assoc (s t u : string) : ((s ++ t) ++ u = s ++ (t ++ u))%string.
Proof. induction s as [|c r IH]; cbn; [reflexivity|now rewrite IH]. Qed.

Lemma zeros_snoc (k : nat) : ("0" ++ zeros k = zeros (S k))%string.
Proof. reflexivity. Qed.

(** A text whose last character is ['0'] is its prefix followed by it. *)
Lemma last_zero_split (buf : string) (q : nat) :
  String.length buf = S q -> code (char_at (Z.of_nat q) buf) = 48 ->
  buf = (string_take q buf ++ "0")%string.
Proof.
  unfold char_at. rewrite Nat2Z.id.
  revert q; induction buf as [|c r IH]; intros q Hl Hc; [discriminate|].
  destruct q as [|q]; cbn in *.
  - destruct r; [|discriminate]. f_equal.
    revert Hc; clear; all_ascii c; discriminate.
  - f_equal. apply IH; [lia|assumption].
Qed.

Lemma strchr_bound (s : string) (c : ascii) (p : nat) :
  strchr s c = Some p -> (p < String.length s)%nat.
Proof.
  revert p; induction s as [|a r IH]; intros p; cbn; [discriminate|].
  destruct (code a =? code c); [intros [= <-]; lia|].
  destruct (strchr r c) as [i|]; [|discriminate].
  intros [= <-]. specialize (IH i eq_refl). lia.
Qed.

Lemma strchr_app (s t : string) (c : ascii) :
  strchr (s ++ t) c
  = match strchr s c with
    | Some i => Some i
    | None =>
        match strchr t c with
        | Some j => Some (String.length s + j)%nat
        | None => None
        end
    end.
Proof.
  induction s as [|a r IH]; cbn.
  - destruct (strchr t c); reflexivity.
  - destruct (code a =? code c); [reflexivity|].
    rewrite IH. destruct (strchr r c); [reflexivity|].
    destruct (strchr t c); reflexivity.
Qed.

Lemma strchr_zeros (k : nat) (c : ascii) :
  code c <> 48 -> strchr (zeros k) c = None.
Proof.
  intros Hc. induction k as [|k IH]; cbn; [reflexivity|].
  change (code "0") with 48.
  destruct (Z.eqb_spec 48 (code c)); [congruence|]. now rewrite IH.
Qed.

(** ** The trailing-zero loop of [libconfig_format_double] *)

Lemma strip_zeros_spec (n : nat) (buf : string) (p : nat) :
  (String.length buf <= n)%nat -> (0 < String.length buf)%nat ->
  stripped buf
    (strip_zeros n buf (Z.of_nat (String.length buf) - 1) (Z.of_nat p)) p.
Proof.
  revert buf; induction n as [|n IH]; intros buf Hn Hpos; [lia|].
  cbn [strip_zeros].
  destruct (Z.ltb_spec (Z.of_nat p + 1) (Z.of_nat (String.length buf) - 1))
    as [Hlt|Hge].
  - destruct (Z.eqb_spec
                (code (char_at (Z.of_nat (String.length buf) - 1) buf)) 48)
      as [Hz|Hz].
    + destruct (String.length buf) as [|q] eqn:Hl; [lia|].
      replace (Z.of_nat (S q) - 1) with (Z.of_nat q) in * by lia.
      rewrite Nat2Z.id.
      pose proof (last_zero_split buf q Hl Hz) as Hsplit.
      assert (Hlq : String.length (string_take q buf) = q)
        by (rewrite string_take_length; lia).
      assert (IH' := IH (string_take q buf)).
      rewrite Hlq in IH'.
      destruct IH' as ((k & Hk) & Ht & Hlast); [lia|lia|].
      split; [|split].
      * exists (S k). rewrite Hsplit at 1. rewrite Hk at 1.
        rewrite string_app_assoc. f_equal.
        clear. induction k as [|k IHk]; cbn; [reflexivity|now rewrite IHk].
      * rewrite Ht. apply string_take_take. lia.
      * exact Hlast.
    + split; [|split].
      * exists 0%nat. cbn. clear. induction buf; cbn; [reflexivity|congruence].
      * reflexivity.
      * intros _. exact Hz.
  - split; [|split].
    + exists 0%nat. cbn. clear. induction buf; cbn; [reflexivity|congruence].
    + reflexivity.
    + intros H. lia.
Qed.

Lemma stripped_keeps_point (buf out : string) (p : nat) :
  strchr buf "." = Some p -> stripped buf out p -> strchr out "." = Some p.
Proof.
  intros Hp ((k & Hk) & _ & _). rewrite Hk, strchr_app in Hp.
  rewrite strchr_zeros in Hp by discriminate.
  destruct (strchr out "."); [assumption|discriminate].
Qed.

Lemma string_take_minimal_binary (n : nat) (val : Z) :
  val <> 0 -> - two63 <= val < two63 -> (64 <= n)%nat ->
  string_take n (minimal_binary (wrap64 val)) = minimal_binary (wrap64 val).
Proof.
  intros Hnz Hv Hn. apply string_take_all.
  destruct (wrap64_log2 val Hnz Hv) as [_ Hl].
  unfold minimal_binary.
  assert (Hb : forall m u, String.length (bits_from m u) = m)
    by (induction m; intros; cbn; [reflexivity|now f_equal]).
  rewrite Hb. lia.
Qed.

(** * Properties of the setting tree and of the copier *)

Local Close Scope string_scope.
Local Close Scope Z_scope.

(** ** Induction on trees *)

Lemma tree_ind (P : tree -> Prop) :
  (forall name ty fmt v cs, Forall P cs -> P (Node name ty fmt v cs)) ->
  forall t, P t.
Proof.
  intros H. fix IH 1. intros [name ty fmt v cs]. apply H.
  induction cs as [|c cs IHcs]; constructor; [apply IH|exact IHcs].
Qed.

(** ** Running the primitives *)

Lemma bind_done {A B : Type} (m : M A) (k : A -> M B) (h h' : heap) (a : A) :
  m h = Done a h' -> bind m k h = k a h'.
Proof. unfold bind. now intros ->. Qed.

Lemma load_some (h : heap) (p : ptr) (s : config_setting_t) :
  h !! p = Some s -> load (Some p) h = Done s h.
Proof. unfold load. now intros ->. Qed.

Lemma insert_snoc {A : Type} (l : list A) (x y : A) (a : nat) :
  a = length l -> <[a := y]> (l ++ [x]) = l ++ [y].
Proof.
  intros ->. rewrite insert_app_r_alt by lia.
  now rewrite Nat.sub_diag.
Qed.

Lemma create_spec (h : heap) (p : ptr) (x : config_setting_t)
    (name : option string) (ty : setting_type) (v : config_value_t) :
  p < length h ->
  create p x name ty v h
  = Done (Some (length h))
      (<[p := add_elem x (length h)]> h
       ++ [new_setting name ty CONFIG_FORMAT_DEFAULT v p]).
Proof.
  intros Hp. unfold create, bind, alloc, store, ret.
  rewrite insert_app_l by assumption. reflexivity.
Qed.

Lemma add_spec (h : heap) (D : ptr) (d : config_setting_t)
    (name : option string) (ty : setting_type) :
  h !! D = Some d -> accepts h d name ty = true ->
  config_setting_add (Some D) name ty h
  = Done (Some (length h))
      (<[D := add_elem d (length h)]> h
       ++ [new_setting (if positional d then None else name) ty
             CONFIG_FORMAT_DEFAULT (initial_value ty) D]).
Proof.
  intros Hd Hacc. unfold config_setting_add.
  rewrite (bind_done _ _ _ _ _ (load_some _ _ _ Hd)).
  assert (HD : D < length h) by (eapply lookup_lt_Some; eauto).
  unfold accepts, positional in *.
  destruct (st_type d); try discriminate; cbn.
  - destruct name as [n|].
    + apply bool_decide_eq_true in Hacc. rewrite Hacc.
      now apply create_spec.
    + now apply create_spec.
  - rewrite Hacc. now apply create_spec.
  - now apply create_spec.
Qed.

Lemma append_spec (h : heap) (D : ptr) (d : config_setting_t)
    (name : option string) (ty : setting_type) (v : config_value_t) :
  h !! D = Some d -> is_group_type (st_type d) = false ->
  accepts h d name ty = true ->
  append_elem (Some D) ty v h
  = Done (Some (length h))
      (<[D := add_elem d (length h)]> h
       ++ [new_setting None ty CONFIG_FORMAT_DEFAULT v D]).
Proof.
  intros Hd Hg Hacc. unfold append_elem.
  rewrite (bind_done _ _ _ _ _ (load_some _ _ _ Hd)).
  assert (HD : D < length h) by (eapply lookup_lt_Some; eauto).
  unfold accepts in *.
  destruct (st_type d); try discriminate; cbn.
  - rewrite Hacc. now apply create_spec.
  - now apply create_spec.
Qed.

Lemma set_value_spec (l : list config_setting_t) (name : option string)
    (ty : setting_type) (fmt : config_format) (v0 v : config_value_t)
    (par : ptr) :
  set_value (Some (length l)) ty v (l ++ [new_setting name ty fmt v0 par])
  = Done true (l ++ [new_setting name ty fmt v par]).
Proof.
  unfold set_value.
  erewrite bind_done
    by (apply load_some; rewrite lookup_app_r, Nat.sub_diag by lia;
        reflexivity).
  cbn [new_setting st_type]. rewrite bool_decide_eq_true_2 by reflexivity.
  unfold bind, store, ret. now rewrite insert_snoc.
Qed.

Lemma set_format_spec (l : list config_setting_t) (name : option string)
    (ty : setting_type) (fmt0 fmt : config_format) (v : config_value_t)
    (par : ptr) :
  is_integer_type ty = true ->
  config_setting_set_format (Some (length l)) fmt
    (l ++ [new_setting name ty fmt0 v par])
  = Done true (l ++ [new_setting name ty fmt v par]).
Proof.
  intros Hi. unfold config_setting_set_format.
  erewrite bind_done
    by (apply load_some; rewrite lookup_app_r, Nat.sub_diag by lia;
        reflexivity).
  cbn [new_setting st_type]. rewrite Hi.
  unfold bind, store, ret. now rewrite insert_snoc.
Qed.

(** ** Layouts *)

Lemma layout_unfold (name : option string) (ty : setting_type)
    (fmt : config_format) (v : config_value_t) (cs : list tree)
    (base : nat) (par : ptr) :
  layout (Node name ty fmt v cs) base par
  = new_setting name ty fmt
      (if is_aggregate_type ty then Vlist (roots cs (S base)) else v) par
    :: layout_list cs (S base) base.
Proof.
  cbn [layout]. unfold new_setting. f_equal.
  generalize (S base) as b. induction cs as [|c r IH]; intros b; cbn.
  - reflexivity.
  - now rewrite IH.
Qed.

Lemma length_layout (t : tree) :
  forall base par, length (layout t base par) = tree_size t.
Proof.
  induction t as [name ty fmt v cs IH] using tree_ind. intros base par.
  rewrite layout_unfold. cbn [length tree_size]. f_equal.
  generalize (S base) as b.
  induction IH as [|c r Hc _ IHr]; intros b; cbn.
  - reflexivity.
  - rewrite length_app, Hc, IHr. reflexivity.
Qed.

Lemma length_layout_list (l : list tree) (b : nat) (par : ptr) :
  length (layout_list l b par) = list_sum (map tree_size l).
Proof.
  revert b; induction l as [|c r IH]; intros b; cbn; [reflexivity|].
  now rewrite length_app, length_layout, IH.
Qed.

Lemma roots_app (l1 l2 : list tree) (b : nat) :
  roots (l1 ++ l2) b = roots l1 b ++ roots l2 (b + list_sum (map tree_size l1)).
Proof.
  revert b; induction l1 as [|c r IH]; intros b; cbn.
  - now rewrite Nat.add_0_r.
  - rewrite IH, Nat.add_assoc. reflexivity.
Qed.

Lemma layout_list_app (l1 l2 : list tree) (b : nat) (par : ptr) :
  layout_list (l1 ++ l2) b par
  = layout_list l1 b par
    ++ layout_list l2 (b + list_sum (map tree_size l1)) par.
Proof.
  revert b; induction l1 as [|c r IH]; intros b; cbn.
  - now rewrite Nat.add_0_r.
  - rewrite IH, <- app_assoc, Nat.add_assoc. reflexivity.
Qed.

Lemma length_roots (l : list tree) (b : nat) : length (roots l b) = length l.
Proof. revert b; induction l; intros; cbn; [reflexivity|now f_equal]. Qed.

(** The roots of laid-out trees hold the root settings. *)
Lemma layout_list_root (l : list tree) (par : ptr) :
  forall (pre : heap) (j : nat) (t : tree),
    l !! j = Some t ->
    exists r,
      roots l (length pre) !! j = Some r
      /\ (pre ++ layout_list l (length pre) par) !! r
         = Some (new_setting (t_name t) (t_type t) (t_format t)
                   (if is_aggregate_type (t_type t)
                    then Vlist (roots (t_children t) (S r))
                    else t_value t) par).
Proof.
  induction l as [|c l IH]; intros pre j t Hj; [discriminate|].
  destruct j as [|j]; cbn in Hj.
  - injection Hj as ->. exists (length pre). split; [reflexivity|].
    cbn [layout_list]. destruct t as [name ty fmt v cs].
    rewrite layout_unfold. cbn [t_name t_type t_format t_value t_children].
    rewrite lookup_app_r, Nat.sub_diag by lia. reflexivity.
  - cbn [roots layout_list].
    destruct (IH (pre ++ layout c (length pre) par) j t Hj) as (r & Hr & Hl).
    rewrite length_app, length_layout in Hr, Hl.
    exists r. split; [exact Hr|].
    rewrite <- app_assoc in Hl. exact Hl.
Qed.

(** ** Reading trees *)

Lemma mapM_read_ext (n : nat) (h h' : heap) (l : list ptr) rs :
  (forall p t ps, p ∈ l -> read n h p = Some (t, ps) ->
                  read n h' p = Some (t, ps)) ->
  mapM (read n h) l = Some rs -> mapM (read n h') l = Some rs.
Proof.
  intros H Hm. apply mapM_Some in Hm. apply mapM_Some.
  induction Hm as [|p [t ps] l rs Hp _ IH]; constructor.
  - apply H; [left|exact Hp].
  - apply IH. intros q t' ps' Hq. apply H. now right.
Qed.

(** The addresses of a tree that was read are allocated. *)
Lemma read_allocated (n : nat) (h : heap) :
  forall p t ps, read n h p = Some (t, ps) ->
                 forall q, q ∈ ps -> q < length h.
Proof.
  induction n as [|n IH]; intros p t ps Hr q Hq; [discriminate|].
  cbn [read] in Hr.
  destruct (h !! p) as [s|] eqn:Hs; [|discriminate].
  destruct (mapM (read n h) (elements_of s)) as [rs|] eqn:Hm; [|discriminate].
  injection Hr as <- <-.
  apply elem_of_cons in Hq as [->|Hq]; [eapply lookup_lt_Some; eauto|].
  apply list_elem_of_In, in_concat in Hq as (l & Hl & Hq).
  apply in_map_iff in Hl as ([t' ps'] & <- & Hl).
  apply list_elem_of_In in Hl, Hq. cbn [snd] in Hq.
  apply mapM_Some in Hm.
  apply list_elem_of_lookup in Hl as (i & Hi).
  destruct (Forall2_lookup_r _ _ _ _ _ Hm Hi) as (c & _ & Hc).
  eapply IH; eauto.
Qed.

(** Reading depends on the settings of the tree only. *)
Lemma read_frame (n : nat) (h h' : heap) :
  forall p t ps,
    read n h p = Some (t, ps) ->
    (forall q, q ∈ ps -> h' !! q = h !! q) ->
    read n h' p = Some (t, ps).
Proof.
  induction n as [|n IH]; intros p t ps Hr Hf; [discriminate|].
  cbn [read] in *.
  destruct (h !! p) as [s|] eqn:Hs; [|discriminate].
  destruct (mapM (read n h) (elements_of s)) as [rs|] eqn:Hm; [|discriminate].
  injection Hr as <- <-.
  rewrite Hf, Hs by left.
  erewrite mapM_read_ext; [reflexivity| |exact Hm].
  intros c t' ps' Hc Hrc. apply IH; [exact Hrc|].
  intros q Hq. apply Hf. right.
  apply list_elem_of_In, in_concat. exists ps'.
  split; [|now apply list_elem_of_In].
  apply mapM_Some in Hm.
  apply list_elem_of_lookup in Hc as (i & Hi).
  destruct (Forall2_lookup_l _ _ _ _ _ Hm Hi) as ([t2 ps2] & Hrs & Hc2).
  rewrite Hrc in Hc2. injection Hc2 as <- <-.
  apply in_map_iff. exists (t', ps'). split; [reflexivity|].
  apply list_elem_of_In. eapply list_elem_of_lookup_2; eauto.
Qed.


(** ** Copying a scalar *)

Lemma load_ret {A : Type} (f : config_setting_t -> A) (h : heap) (p : ptr)
    (s : config_setting_t) :
  h !! p = Some s -> (x <- load (Some p) ;; ret (f x)) h = Done (f s) h.
Proof. intros H. unfold bind, load, ret. now rewrite H. Qed.

Ltac run_accessors Hs :=
  repeat first
    [ rewrite (bind_done _ _ _ _ _ (load_ret _ _ _ _ Hs))
    | rewrite (bind_done _ _ _ _ _ (load_some _ _ _ Hs)) ].

Lemma lookup_after_create (h : heap) (D p : ptr) (x y : config_setting_t) :
  p < length h -> p <> D -> (<[D := x]> h ++ [y]) !! p = h !! p.
Proof.
  intros Hp Hne. rewrite lookup_app_l by (rewrite length_insert; lia).
  now apply list_lookup_insert_ne.
Qed.

Lemma copy_simple_scalar (fuel : nat) (h : heap) (D src : ptr)
    (d s : config_setting_t) :
  h !! src = Some s -> h !! D = Some d -> src <> D ->
  is_aggregate_type (st_type s) = false ->
  value_ok (st_type s) (st_value s) = true ->
  accepts h d (st_name s) (st_type s) = true ->
  config_setting_copy_simple (S fuel) (Some D) (Some src) h
  = Done tt (<[D := add_elem d (length h)]> h ++ [scalar_copy d s D]).
Proof.
  intros Hs Hd Hne Hagg Hv Hacc.
  cbn [config_setting_copy_simple].
  unfold config_setting_is_aggregate, config_setting_name,
    config_setting_type.
  run_accessors Hs. rewrite Hagg. run_accessors Hs.
  rewrite (bind_done _ _ _ _ _ (add_spec _ _ _ _ _ Hd Hacc)).
  assert (Hs' : forall y, (<[D := add_elem d (length h)]> h ++ [y]) !! src
                          = Some s).
  { intros y. rewrite lookup_after_create; [exact Hs| |exact Hne].
    eapply lookup_lt_Some; eauto. }
  set (l := <[D := add_elem d (length h)]> h) in *.
  assert (Hl : length h = length l) by (subst l; now rewrite length_insert).
  rewrite Hl. unfold scalar_copy.
  unfold config_setting_get_int, config_setting_get_int64,
    config_setting_get_float, config_setting_get_string,
    config_setting_get_bool, config_setting_set_int,
    config_setting_set_int64, config_setting_set_float,
    config_setting_set_string, config_setting_set_bool.
  destruct (st_type s) eqn:Hty; try discriminate;
    destruct (st_value s) eqn:Hval; try discriminate;
    cbn [is_integer_type initial_value].
  all: rewrite (bind_done _ _ _ _ _ (load_ret _ _ _ _ (Hs' _))), Hval.
  all: rewrite (bind_done _ _ _ _ _ (set_value_spec _ _ _ _ _ _ _)).
  all: try (rewrite (bind_done _ _ _ _ _ (load_some _ _ _ (Hs' _)));
            first
              [ rewrite (bind_done _ _ _ _ _
                           (set_format_spec _ _ CONFIG_TYPE_INT _ _ _ _
                              eq_refl))
              | rewrite (bind_done _ _ _ _ _
                           (set_format_spec _ _ CONFIG_TYPE_INT64 _ _ _ _
                              eq_refl)) ]).
  all: reflexivity.
Qed.

Lemma copy_elem_scalar (fuel : nat) (h : heap) (D src : ptr)
    (d s : config_setting_t) :
  h !! src = Some s -> h !! D = Some d -> src <> D ->
  is_aggregate_type (st_type s) = false ->
  value_ok (st_type s) (st_value s) = true ->
  is_group_type (st_type d) = false ->
  accepts h d (st_name s) (st_type s) = true ->
  config_setting_copy_elem (S fuel) (Some D) (Some src) h
  = Done tt (<[D := add_elem d (length h)]> h ++ [scalar_copy d s D]).
Proof.
  intros Hs Hd Hne Hagg Hv Hg Hacc.
  cbn [config_setting_copy_elem].
  unfold config_setting_is_aggregate, config_setting_type.
  run_accessors Hs. rewrite Hagg. run_accessors Hs.
  assert (Hs' : forall y, (<[D := add_elem d (length h)]> h ++ [y]) !! src
                          = Some s).
  { intros y. rewrite lookup_after_create; [exact Hs| |exact Hne].
    eapply lookup_lt_Some; eauto. }
  unfold scalar_copy, positional. rewrite Hg. cbn [negb].
  unfold config_setting_get_int, config_setting_get_int64,
    config_setting_get_float, config_setting_get_string,
    config_setting_get_bool, config_setting_set_int_elem,
    config_setting_set_int64_elem, config_setting_set_float_elem,
    config_setting_set_string_elem, config_setting_set_bool_elem.
  destruct (st_type s) eqn:Hty; try discriminate;
    destruct (st_value s) eqn:Hval; try discriminate;
    cbn [is_integer_type].
  all: rewrite (bind_done _ _ _ _ _ (load_ret _ _ _ _ Hs)), Hval.
  all: rewrite (bind_done _ _ _ _ _
                  (append_spec _ _ _ _ _ _ Hd Hg Hacc)).
  all: try (rewrite (bind_done _ _ _ _ _ (load_some _ _ _ (Hs' _)));
            set (l := <[D := add_elem d (length h)]> h) in *;
            assert (Hl : length h = length l)
              by (subst l; now rewrite length_insert);
            rewrite Hl;
            first
              [ rewrite (bind_done _ _ _ _ _
                           (set_format_spec _ _ CONFIG_TYPE_INT _ _ _ _
                              eq_refl))
              | rewrite (bind_done _ _ _ _ _
                           (set_format_spec _ _ CONFIG_TYPE_INT64 _ _ _ _
                              eq_refl)) ]).
  all: reflexivity.
Qed.


(** ** Names and types among elements *)

Lemma lookup_map {A B : Type} (f : A -> B) (l : list A) (i : nat) :
  map f l !! i = f <$> l !! i.
Proof. exact (list_lookup_fmap f l i). Qed.

Lemma get_member_none (h : heap) (l : list ptr) (name : string) :
  (forall r, r ∈ l ->
             exists s, h !! r = Some s /\ st_name s <> Some name) ->
  get_member h l name = None.
Proof.
  intros H. unfold get_member.
  induction l as [|r l IH]; [reflexivity|]. cbn [find].
  destruct (H r) as (s & -> & Hn); [left|].
  rewrite bool_decide_eq_false_2 by exact Hn.
  apply IH. intros r' Hr'. apply H. now right.
Qed.

Lemma child_names_unique (cs : list tree) (i j : nat) (x y : tree)
    (name : string) :
  NoDup (child_names cs) -> cs !! i = Some x -> cs !! j = Some y ->
  t_name x = Some name -> t_name y = Some name -> i = j.
Proof.
  unfold child_names. revert i j.
  induction cs as [|c cs IH]; intros i j Hnd Hi Hj Hx Hy; [discriminate|].
  assert (Hin : forall k z, cs !! k = Some z -> t_name z = Some name ->
                            name ∈ omap t_name cs).
  { intros k z Hk Hz. apply list_elem_of_omap. exists z.
    split; [eapply list_elem_of_lookup_2; eauto|exact Hz]. }
  cbn [omap list_omap] in Hnd.
  destruct i as [|i], j as [|j]; cbn in Hi, Hj.
  - reflexivity.
  - injection Hi as ->. rewrite Hx in Hnd.
    apply NoDup_cons_1_1 in Hnd.
    exfalso. apply Hnd. eapply Hin; eauto.
  - injection Hj as ->. rewrite Hy in Hnd.
    apply NoDup_cons_1_1 in Hnd.
    exfalso. apply Hnd. eapply Hin; eauto.
  - f_equal. apply IH; try assumption.
    destruct (t_name c); [now apply NoDup_cons_1_2 in Hnd|assumption].
Qed.

Lemma accepts_cases (h : heap) (d : config_setting_t)
    (name : option string) (ty : setting_type) :
  (st_type d = CONFIG_TYPE_GROUP
   /\ forall n, name = Some n -> get_member h (elements_of d) n = None)
  \/ (st_type d = CONFIG_TYPE_ARRAY
      /\ array_accepts h (elements_of d) ty = true)
  \/ st_type d = CONFIG_TYPE_LIST ->
  accepts h d name ty = true.
Proof.
  unfold accepts. intros [[-> H]|[[-> H]| ->]]; [|exact H|reflexivity].
  destruct name as [n|]; [|reflexivity].
  apply bool_decide_eq_true. now apply H.
Qed.

(** ** The loop of [config_setting_copy_aggregate] *)

Section CopyLoop.

Variable n : nat.
Variable fuel : nat.

Hypothesis copy_simple_children :
  forall h D d src t ps,
    read n h src = Some (t, ps) -> well_formed t = true -> D ∉ ps ->
    h !! D = Some d -> accepts h d (t_name t) (t_type t) = true ->
    config_setting_copy_simple fuel (Some D) (Some src) h
    = Done tt (copied h D d t).

Hypothesis copy_elem_children :
  forall h D d src t ps,
    read n h src = Some (t, ps) -> well_formed t = true -> D ∉ ps ->
    h !! D = Some d -> accepts h d (t_name t) (t_type t) = true ->
    is_group_type (st_type d) = false ->
    config_setting_copy_elem fuel (Some D) (Some src) h
    = Done tt (copied h D d t).

Variable h : heap.
Variables D src : ptr.
Variables d s : config_setting_t.
Variable rs : list (tree * list ptr).

Hypothesis src_setting : h !! src = Some s.
Hypothesis src_aggregate : is_aggregate_type (st_type s) = true.
Hypothesis children_read : mapM (read n h) (elements_of s) = Some rs.
Hypothesis src_well_formed :
  well_formed (Node (st_name s) (st_type s) (st_format s) Vnone
                 (map fst rs)) = true.
Hypothesis dest_setting : h !! D = Some d.
Hypothesis dest_outside : D ∉ src :: concat (map snd rs).

Local Abbreviation A := (length h).
Local Abbreviation cts :=
  (map (clone (negb (is_group_type (st_type s)))) (map fst rs)).
Local Abbreviation pre := (<[D := add_elem d A]> h).
Local Abbreviation root i := (agg_root d s D (roots (take i cts) (S A))).
Local Abbreviation heap_at i := (agg_heap h D d s (take i cts)).

Lemma loop_length_pre : length pre = A.
Proof. apply length_insert. Qed.

Lemma loop_length (i : nat) :
  length (heap_at i) = S A + list_sum (map tree_size (take i cts)).
Proof.
  unfold agg_heap. rewrite !length_app, loop_length_pre, length_layout_list.
  cbn [length]. lia.
Qed.

Lemma loop_old (i : nat) (q : ptr) :
  q < A -> q <> D -> (heap_at i) !! q = h !! q.
Proof.
  intros Hq Hne. unfold agg_heap.
  rewrite <- app_assoc, lookup_app_l by (rewrite loop_length_pre; lia).
  now apply list_lookup_insert_ne.
Qed.

Lemma loop_root (i : nat) : (heap_at i) !! A = Some (root i).
Proof.
  unfold agg_heap. rewrite <- app_assoc.
  rewrite lookup_app_r by (rewrite loop_length_pre; lia).
  now rewrite loop_length_pre, Nat.sub_diag.
Qed.

Lemma loop_src (i : nat) : (heap_at i) !! src = Some s.
Proof.
  rewrite loop_old; [exact src_setting|eapply lookup_lt_Some; eauto|].
  intros ->. apply dest_outside. left.
Qed.

Lemma loop_child (i : nat) (c : ptr) :
  elements_of s !! i = Some c ->
  exists t ps,
    rs !! i = Some (t, ps) /\ read n (heap_at i) c = Some (t, ps)
    /\ well_formed t = true /\ (A ∉ ps)
    /\ cts !! i
       = Some (clone (negb (is_group_type (st_type s))) t).
Proof.
  intros Hc. pose proof children_read as Hm. apply mapM_Some in Hm.
  destruct (Forall2_lookup_l _ _ _ _ _ Hm Hc) as ([t ps] & Hrs & Hr).
  exists t, ps.
  assert (Hin : forall q, q ∈ ps -> q ∈ concat (map snd rs)).
  { intros q Hq. apply list_elem_of_In, in_concat. exists ps.
    split; [|now apply list_elem_of_In].
    apply in_map_iff. exists (t, ps). split; [reflexivity|].
    apply list_elem_of_In. eapply list_elem_of_lookup_2; eauto. }
  assert (Hlt : forall q, q ∈ ps -> q < A)
    by (intros q Hq; eapply read_allocated; eauto).
  split; [exact Hrs|]. split; [|split; [|split]].
  - eapply read_frame; [exact Hr|]. intros q Hq.
    apply loop_old; [now apply Hlt|].
    intros ->. apply dest_outside. right. now apply Hin.
  - cbn [well_formed] in src_well_formed.
    apply andb_true_iff in src_well_formed as [_ Hwf].
    rewrite forallb_forall in Hwf. apply Hwf.
    apply in_map_iff. exists (t, ps). split; [reflexivity|].
    apply list_elem_of_In. eapply list_elem_of_lookup_2; eauto.
  - intros HA. apply Hlt in HA. lia.
  - rewrite !lookup_map, Hrs. reflexivity.
Qed.

Lemma loop_elements (i : nat) :
  elements_of (root i) = roots (take i cts) (S A).
Proof.
  unfold elements_of, agg_root. cbn [new_setting st_type st_value].
  now rewrite src_aggregate.
Qed.

(** The roots copied so far hold the names and types of the children. *)
Lemma loop_copied_root (i j : nat) (r : ptr) :
  roots (take i cts) (S A) !! j = Some r ->
  exists t ps x,
    j < i /\ rs !! j = Some (t, ps) /\ (heap_at i) !! r = Some x
    /\ st_type x = t_type t
    /\ st_name x
       = (if is_group_type (st_type s) then t_name t else None).
Proof.
  intros Hr.
  assert (Hj : j < length (take i cts)).
  { apply lookup_lt_Some in Hr. now rewrite length_roots in Hr. }
  destruct (lookup_lt_is_Some_2 _ _ Hj) as [t' Ht'].
  assert (Hji : j < i) by (rewrite length_take in Hj; lia).
  pose proof Ht' as Hc. rewrite lookup_take_lt in Hc by exact Hji.
  rewrite !lookup_map in Hc.
  destruct (rs !! j) as [[t ps]|] eqn:Hrs; [|discriminate].
  cbn in Hc. injection Hc as <-.
  destruct (layout_list_root _ A (pre ++ [root i]) j _ Ht') as (r' & Hr' & Hl).
  rewrite length_app, loop_length_pre in Hr', Hl. cbn [length] in Hr', Hl.
  replace (A + 1) with (S A) in Hr', Hl by lia.
  assert (Some r = Some r') as [= <-] by (rewrite <- Hr; exact Hr').
  exists t, ps. eexists. split; [exact Hji|]. split; [reflexivity|].
  split; [exact Hl|]. destruct t as [name ty fmt v cs]. cbn.
  split; [reflexivity|]. now destruct (is_group_type (st_type s)).
Qed.

Lemma loop_accepts (i : nat) (c : ptr) (t : tree) (ps : list ptr) :
  rs !! i = Some (t, ps) ->
  accepts (heap_at i) (root i) (t_name t) (t_type t) = true.
Proof.
  intros Hrs. apply accepts_cases. rewrite loop_elements.
  change (st_type (root i)) with (st_type s).
  pose proof src_well_formed as Hwf. cbn [well_formed] in Hwf.
  apply andb_true_iff in Hwf as [Hwf _].
  apply andb_true_iff in Hwf as [Hwf Harr].
  apply andb_true_iff in Hwf as [_ Hgrp].
  assert (Hti : map fst rs !! i = Some t)
    by (rewrite lookup_map, Hrs; reflexivity).
  assert (Hcases : st_type s = CONFIG_TYPE_GROUP
                   \/ st_type s = CONFIG_TYPE_ARRAY
                   \/ st_type s = CONFIG_TYPE_LIST).
  { pose proof src_aggregate as Ha.
    destruct (st_type s); try discriminate Ha; tauto. }
  destruct Hcases as [Hty|[Hty|Hty]]; rewrite Hty in Harr, Hgrp.
  - left. split; [exact Hty|]. intros name Hn.
    apply get_member_none.
    intros r Hr. apply list_elem_of_lookup in Hr as (j & Hr).
    destruct (loop_copied_root i j r Hr)
      as (t' & ps' & x & Hji & Hrs' & Hx & _ & Hname).
    exists x. split; [exact Hx|]. rewrite Hname, Hty. cbn.
    intros Hn'.
    assert (i = j); [|lia].
    eapply (child_names_unique (map fst rs) i j t t' name); eauto.
    + cbn in Hgrp. now apply bool_decide_eq_true in Hgrp.
    + rewrite lookup_map, Hrs'. reflexivity.
  - right. left. split; [exact Hty|].
    cbn in Harr. rewrite forallb_forall in Harr.
    assert (Hin : In t (map fst rs)).
    { apply list_elem_of_In. eapply list_elem_of_lookup_2; eauto. }
    specialize (Harr t Hin). apply andb_true_iff in Harr as [Hsc Hhd].
    apply bool_decide_eq_true in Hhd.
    unfold array_accepts. rewrite Hsc. cbn [andb].
    unfold first_type.
    destruct (roots (take i cts) (S A)) as [|r l] eqn:Hroots; [reflexivity|].
    destruct (loop_copied_root i 0 r) as
      (t0 & ps0 & x & _ & Hrs0 & Hx & Htype & _);
      [now rewrite Hroots|].
    rewrite Hx, Htype.
    apply bool_decide_eq_true.
    destruct rs as [|[t0' ps0'] rs']; [discriminate|].
    cbn in Hrs0, Hhd. injection Hrs0 as -> ->. congruence.
  - right. right. exact Hty.
Qed.

(** One more child copied. *)
Lemma loop_advance (i : nat) (t : tree) (ps : list ptr) :
  rs !! i = Some (t, ps) ->
  copied (heap_at i) A (root i) t = heap_at (S i).
Proof.
  intros Hrs.
  assert (Hc : cts !! i = Some (clone (negb (is_group_type (st_type s))) t))
    by (rewrite !lookup_map, Hrs; reflexivity).
  rewrite (take_S_r _ _ _ Hc).
  unfold copied. rewrite loop_length.
  set (b := S A + list_sum (map tree_size (take i cts))).
  unfold agg_heap at 2.
  rewrite roots_app, layout_list_app. cbn [roots layout_list].
  rewrite app_nil_r, app_assoc. fold b. f_equal.
  unfold agg_heap.
  rewrite insert_app_l by (rewrite length_app, loop_length_pre; cbn; lia).
  f_equal. rewrite insert_snoc by (symmetry; apply loop_length_pre).
  f_equal. unfold add_elem. rewrite loop_elements. reflexivity.
Qed.

Lemma loop_step (i : nat) (c : ptr) :
  elements_of s !! i = Some c ->
  (grp <- config_setting_is_group (Some src) ;;
   e <- config_setting_get_elem (Some src) i ;;
   if grp then config_setting_copy_simple fuel (Some A) e
   else config_setting_copy_elem fuel (Some A) e) (heap_at i)
  = Done tt (heap_at (S i)).
Proof.
  intros Hc.
  destruct (loop_child i c Hc) as (t & ps & Hrs & Hread & Hwf & HA & _).
  pose proof (loop_accepts i c t ps Hrs) as Hacc.
  pose proof (loop_advance i t ps Hrs) as Hadv.
  pose proof (loop_root i) as Hroot.
  unfold config_setting_is_group, config_setting_get_elem.
  rewrite (bind_done _ _ _ _ _ (load_ret _ _ _ _ (loop_src i))).
  rewrite (bind_done _ _ _ _ _ (load_ret _ _ _ _ (loop_src i))).
  rewrite Hc, <- Hadv.
  destruct (is_group_type (st_type s)) eqn:Hg.
  - eapply copy_simple_children; eauto.
  - eapply copy_elem_children; eauto.
Qed.

Lemma loop_spec (k : nat) :
  forall i, i + k = length (elements_of s) ->
  for_loop k i
    (fun i =>
       grp <- config_setting_is_group (Some src) ;;
       e <- config_setting_get_elem (Some src) i ;;
       if grp then config_setting_copy_simple fuel (Some A) e
       else config_setting_copy_elem fuel (Some A) e) (heap_at i)
  = Done tt (heap_at (i + k)).
Proof.
  induction k as [|k IH]; intros i Hi; cbn [for_loop].
  - now rewrite Nat.add_0_r.
  - destruct (lookup_lt_is_Some_2 (elements_of s) i ltac:(lia)) as [c Hc].
    rewrite (bind_done _ _ _ _ _ (loop_step i c Hc)).
    replace (i + S k) with (S i + k) by lia. apply IH. lia.
Qed.

(** The heap when the loop is over. *)
Lemma loop_result :
  heap_at (length (elements_of s))
  = copied h D d
      (Node (st_name s) (st_type s) (st_format s) Vnone (map fst rs)).
Proof.
  pose proof children_read as Hm.
  apply mapM_Some, Forall2_length in Hm.
  assert (Hlen : length cts <= length (elements_of s)).
  { rewrite !length_map. lia. }
  rewrite take_ge by exact Hlen.
  unfold copied, agg_heap. cbn [clone]. rewrite layout_unfold.
  rewrite src_aggregate.
  replace (is_integer_type (st_type s)) with false
    by (pose proof src_aggregate as Ha; destruct (st_type s);
        (discriminate Ha || reflexivity)).
  rewrite <- app_assoc. reflexivity.
Qed.

End CopyLoop.


(** ** The copy functions on a well-formed tree *)

Lemma read_unfold (n : nat) (h : heap) (p : ptr) (t : tree) (ps : list ptr) :
  read (S n) h p = Some (t, ps) ->
  exists s rs,
    h !! p = Some s /\ mapM (read n h) (elements_of s) = Some rs
    /\ t = Node (st_name s) (st_type s) (st_format s)
             (if is_aggregate_type (st_type s) then Vnone else st_value s)
             (map fst rs)
    /\ ps = p :: concat (map snd rs).
Proof.
  cbn [read]. intros Hr.
  destruct (h !! p) as [s|]; [|discriminate].
  destruct (mapM (read n h) (elements_of s)) as [rs|] eqn:Hm; [|discriminate].
  injection Hr as <- <-. exists s, rs. repeat split; (reflexivity || exact Hm).
Qed.

Lemma copy_aggregate_correct (n fuel : nat) :
  (forall h D d src t ps,
      read n h src = Some (t, ps) -> well_formed t = true -> D ∉ ps ->
      h !! D = Some d -> accepts h d (t_name t) (t_type t) = true ->
      config_setting_copy_simple fuel (Some D) (Some src) h
      = Done tt (copied h D d t)) ->
  (forall h D d src t ps,
      read n h src = Some (t, ps) -> well_formed t = true -> D ∉ ps ->
      h !! D = Some d -> accepts h d (t_name t) (t_type t) = true ->
      is_group_type (st_type d) = false ->
      config_setting_copy_elem fuel (Some D) (Some src) h
      = Done tt (copied h D d t)) ->
  forall h D d src t ps,
    read (S n) h src = Some (t, ps) -> well_formed t = true -> D ∉ ps ->
    h !! D = Some d -> accepts h d (t_name t) (t_type t) = true ->
    is_aggregate_type (t_type t) = true ->
    config_setting_copy_aggregate (S fuel) (Some D) (Some src) h
    = Done tt (copied h D d t).
Proof.
  intros IHs IHe h D d src t ps Hr Hwf HD Hd Hacc Hagg.
  destruct (read_unfold _ _ _ _ _ Hr) as (s & rs & Hs & Hm & -> & ->).
  cbn [t_name t_type] in *. rewrite Hagg in *.
  cbn [config_setting_copy_aggregate].
  unfold config_setting_name, config_setting_type, config_setting_length.
  run_accessors Hs.
  rewrite (bind_done _ _ _ _ _ (add_spec _ _ _ _ _ Hd Hacc)).
  assert (Hne : src <> D) by (intros ->; apply HD; left).
  assert (Hlt : src < length h) by (eapply lookup_lt_Some; eauto).
  assert (Hs1 : forall y, (<[D := add_elem d (length h)]> h ++ [y]) !! src
                          = Some s)
    by (intros y; rewrite lookup_after_create; assumption).
  rewrite (bind_done _ _ _ _ _ (load_ret _ _ _ _ (Hs1 _))).
  replace (initial_value (st_type s)) with (Vlist [])
    by (destruct (st_type s); (discriminate Hagg || reflexivity)).
  erewrite <- (loop_result n h D d s rs) by eassumption.
  pose proof (loop_spec n fuel IHs IHe h D src d s rs Hs Hagg Hm Hwf HD
                (length (elements_of s)) 0 eq_refl) as Hloop.
  cbn [Nat.add] in Hloop. rewrite <- Hloop. f_equal.
  unfold agg_heap, agg_root. cbn [take roots layout_list].
  now rewrite app_nil_r.
Qed.

Lemma scalar_layout (h : heap) (D : ptr) (d s : config_setting_t) :
  is_aggregate_type (st_type s) = false ->
  copied h D d (Node (st_name s) (st_type s) (st_format s) (st_value s) [])
  = <[D := add_elem d (length h)]> h ++ [scalar_copy d s D].
Proof.
  intros Hagg. unfold copied. cbn [clone map]. rewrite layout_unfold, Hagg.
  reflexivity.
Qed.

Lemma copy_children_correct (n : nat) :
  forall fuel, 2 * n <= fuel ->
  (forall h D d src t ps,
      read n h src = Some (t, ps) -> well_formed t = true -> D ∉ ps ->
      h !! D = Some d -> accepts h d (t_name t) (t_type t) = true ->
      config_setting_copy_simple fuel (Some D) (Some src) h
      = Done tt (copied h D d t))
  /\ (forall h D d src t ps,
         read n h src = Some (t, ps) -> well_formed t = true -> D ∉ ps ->
         h !! D = Some d -> accepts h d (t_name t) (t_type t) = true ->
         is_group_type (st_type d) = false ->
         config_setting_copy_elem fuel (Some D) (Some src) h
         = Done tt (copied h D d t)).
Proof.
  induction n as [|n IH]; intros fuel Hfuel.
  - split; intros; discriminate.
  - destruct fuel as [|[|fuel]]; [lia|lia|].
    destruct (IH fuel ltac:(lia)) as [IHs IHe].
    pose proof (copy_aggregate_correct n fuel IHs IHe) as Hagg.
    split.
    + intros h D d src t ps Hr Hwf HD Hd Hacc.
      destruct (is_aggregate_type (t_type t)) eqn:Ht.
      * specialize (Hagg h D d src t ps Hr Hwf HD Hd Hacc Ht).
        destruct (read_unfold _ _ _ _ _ Hr) as (s & rs & Hs & Hm & -> & ->).
        cbn [t_type] in Ht.
        cbn [config_setting_copy_simple].
        unfold config_setting_is_aggregate. run_accessors Hs.
        rewrite Ht in Hagg |- *. exact Hagg.
      * destruct (read_unfold _ _ _ _ _ Hr) as (s & rs & Hs & Hm & -> & ->).
        cbn [t_type t_name] in *. rewrite Ht in *.
        unfold elements_of in Hm. rewrite Ht in Hm.
        injection Hm as <-. cbn [map].
        rewrite scalar_layout by exact Ht.
        cbn [well_formed] in Hwf.
        repeat (apply andb_true_iff in Hwf as [Hwf _]).
        apply copy_simple_scalar; try assumption.
        intros ->. apply HD. left.
    + intros h D d src t ps Hr Hwf HD Hd Hacc Hg.
      destruct (is_aggregate_type (t_type t)) eqn:Ht.
      * specialize (Hagg h D d src t ps Hr Hwf HD Hd Hacc Ht).
        destruct (read_unfold _ _ _ _ _ Hr) as (s & rs & Hs & Hm & -> & ->).
        cbn [t_type] in Ht.
        cbn [config_setting_copy_elem].
        unfold config_setting_is_aggregate. run_accessors Hs.
        rewrite Ht in Hagg |- *. exact Hagg.
      * destruct (read_unfold _ _ _ _ _ Hr) as (s & rs & Hs & Hm & -> & ->).
        cbn [t_type t_name] in *. rewrite Ht in *.
        unfold elements_of in Hm. rewrite Ht in Hm.
        injection Hm as <-. cbn [map].
        rewrite scalar_layout by exact Ht.
        cbn [well_formed] in Hwf.
        repeat (apply andb_true_iff in Hwf as [Hwf _]).
        apply copy_elem_scalar; try assumption.
        intros ->. apply HD. left.
Qed.

(** [config_setting_copy] of a well-formed tree into a group or a list that
    is not part of the tree and accepts its root. *)
Theorem copy_correct (n fuel : nat) (h : heap) (dst src : ptr)
    (d : config_setting_t) (t : tree) (ps : list ptr) :
  read n h src = Some (t, ps) -> well_formed t = true -> dst ∉ ps ->
  h !! dst = Some d ->
  is_group_type (st_type d) || is_list_type (st_type d) = true ->
  accepts h d (t_name t) (t_type t) = true ->
  2 * n <= fuel ->
  config_setting_copy fuel (Some dst) (Some src) h
  = Done true (copied h dst d t).
Proof.
  intros Hr Hwf HP Hd Hty Hacc Hfuel.
  destruct n as [|n]; [discriminate|].
  destruct (read_unfold _ _ _ _ _ Hr) as (s & rs & Hs & _ & Ht & _).
  unfold config_setting_copy, config_setting_is_group,
    config_setting_is_list, config_setting_is_aggregate.
  run_accessors Hd.
  replace (negb (is_group_type (st_type d)) && negb (is_list_type (st_type d)))
    with false by (destruct (is_group_type (st_type d)),
                     (is_list_type (st_type d)); (discriminate || reflexivity)).
  run_accessors Hs.
  destruct (is_aggregate_type (st_type s)) eqn:Hagg.
  - destruct fuel as [|fuel]; [lia|].
    destruct (copy_children_correct n fuel ltac:(lia)) as [IHs IHe].
    erewrite bind_done; [reflexivity|].
    eapply copy_aggregate_correct; eauto.
    subst t. exact Hagg.
  - destruct (copy_children_correct (S n) fuel Hfuel) as [IHs _].
    erewrite bind_done; [reflexivity|]. eapply IHs; eauto.
Qed.


(** ** What a copy leaves alone *)

Lemma frame_refl (L : nat) (T : option ptr) (h : heap) : frame_ok L T h h.
Proof. split; [lia|reflexivity]. Qed.

Lemma frame_trans (L : nat) (T : option ptr) (h1 h2 h3 : heap) :
  frame_ok L T h1 h2 -> frame_ok L T h2 h3 -> frame_ok L T h1 h3.
Proof.
  intros [Hl1 H1] [Hl2 H2]. split; [lia|].
  intros p Hp Hne. now rewrite H2, H1.
Qed.

Lemma bind_inv {A B : Type} (m : M A) (k : A -> M B) (h h2 : heap) (b : B) :
  bind m k h = Done b h2 ->
  exists a h1, m h = Done a h1 /\ k a h1 = Done b h2.
Proof.
  unfold bind. destruct (m h) as [a h1| |]; [eauto|discriminate..].
Qed.

Lemma load_inv (p : option ptr) (h h' : heap) (s : config_setting_t) :
  load p h = Done s h' ->
  h' = h /\ exists a, p = Some a /\ h !! a = Some s.
Proof.
  unfold load. destruct p as [a|]; [|discriminate].
  destruct (h !! a) as [x|] eqn:Hx; [|discriminate].
  intros [= <- <-]. eauto.
Qed.

Lemma load_ret_inv {A : Type} (f : config_setting_t -> A) (p : option ptr)
    (h h' : heap) (a : A) :
  (x <- load p ;; ret (f x)) h = Done a h' -> h' = h.
Proof.
  intros H. apply bind_inv in H as (s & h1 & Hl & Hr).
  apply load_inv in Hl as [-> _]. now injection Hr.
Qed.

Lemma store_frame (L : nat) (T : option ptr) (a : ptr)
    (s : config_setting_t) (h : heap) :
  writable L T (Some a) -> frame_ok L T h (<[a := s]> h).
Proof.
  intros Hw. split; [now rewrite length_insert|].
  intros p Hp Hne. apply list_lookup_insert_ne.
  destruct Hw as [<-|Hw]; [intros ->; now apply Hne|lia].
Qed.

Lemma create_frame (L : nat) (T : option ptr) (p : ptr)
    (x : config_setting_t) (name : option string) (ty : setting_type)
    (v : config_value_t) (h h' : heap) (r : option ptr) :
  L <= length h -> writable L T (Some p) ->
  create p x name ty v h = Done r h' ->
  frame_ok L T h h' /\ r = Some (length h).
Proof.
  intros HL Hw. unfold create, bind, alloc, store, ret. intros [= <- <-].
  split; [|reflexivity]. split.
  - rewrite length_insert, length_app. lia.
  - intros q Hq Hne. rewrite list_lookup_insert_ne.
    + apply lookup_app_l. lia.
    + destruct Hw as [<-|Hw]; [intros ->; now apply Hne|lia].
Qed.

Lemma add_frame (L : nat) (T : option ptr) (parent : option ptr)
    (name : option string) (ty : setting_type) (h h' : heap)
    (r : option ptr) :
  L <= length h -> writable L T parent ->
  config_setting_add parent name ty h = Done r h' ->
  frame_ok L T h h' /\ writable L T r.
Proof.
  intros HL Hw. unfold config_setting_add.
  assert (Hnone : forall h0, frame_ok L T h0 h0 /\ writable L T None)
    by (intros; split; [apply frame_refl|now right]).
  destruct parent as [p|]; [|intros [= <- <-]; apply Hnone].
  intros H. apply bind_inv in H as (x & h1 & Hl & H).
  apply load_inv in Hl as [-> _].
  assert (Hc : forall nm v r0 h0,
             create p x nm ty v h = Done r0 h0 ->
             frame_ok L T h h0 /\ writable L T r0).
  { intros nm v r0 h0 Hc.
    destruct (create_frame L T _ _ _ _ _ _ _ _ HL Hw Hc) as [Hf ->].
    split; [exact Hf|]. right. exact HL. }
  destruct (st_type x); try (injection H as <- <-; apply Hnone).
  - destruct name as [n|]; [|eapply Hc; eauto].
    destruct (get_member h (elements_of x) n);
      [injection H as <- <-; apply Hnone|eapply Hc; eauto].
  - destruct (array_accepts h (elements_of x) ty);
      [eapply Hc; eauto|injection H as <- <-; apply Hnone].
  - eapply Hc; eauto.
Qed.

Lemma append_frame (L : nat) (T : option ptr) (parent : option ptr)
    (ty : setting_type) (v : config_value_t) (h h' : heap)
    (r : option ptr) :
  L <= length h -> writable L T parent ->
  append_elem parent ty v h = Done r h' ->
  frame_ok L T h h' /\ writable L T r.
Proof.
  intros HL Hw. unfold append_elem.
  assert (Hnone : forall h0, frame_ok L T h0 h0 /\ writable L T None)
    by (intros; split; [apply frame_refl|now right]).
  intros H. apply bind_inv in H as (x & h1 & Hl & H).
  apply load_inv in Hl as [-> (p & -> & _)].
  assert (Hc : forall nm v r0 h0,
             create p x nm ty v h = Done r0 h0 ->
             frame_ok L T h h0 /\ writable L T r0).
  { intros nm v0 r0 h0 Hc.
    destruct (create_frame L T _ _ _ _ _ _ _ _ HL Hw Hc) as [Hf ->].
    split; [exact Hf|]. right. exact HL. }
  destruct (st_type x); try (injection H as <- <-; apply Hnone).
  - destruct (array_accepts h (elements_of x) ty);
      [eapply Hc; eauto|injection H as <- <-; apply Hnone].
  - eapply Hc; eauto.
Qed.

Lemma set_value_frame (L : nat) (T : option ptr) (set : option ptr)
    (ty : setting_type) (v : config_value_t) (h h' : heap) (r : bool) :
  writable L T set -> set_value set ty v h = Done r h' -> frame_ok L T h h'.
Proof.
  intros Hw H. unfold set_value in H.
  apply bind_inv in H as (x & h1 & Hl & H).
  apply load_inv in Hl as [-> (a & -> & _)].
  destruct (bool_decide (st_type x = ty)).
  - unfold bind, store, ret in H. injection H as _ <-.
    now apply store_frame.
  - injection H as _ <-. apply frame_refl.
Qed.

Lemma set_format_frame (L : nat) (T : option ptr) (set : option ptr)
    (fmt : config_format) (h h' : heap) (r : bool) :
  writable L T set -> config_setting_set_format set fmt h = Done r h' ->
  frame_ok L T h h'.
Proof.
  intros Hw H. unfold config_setting_set_format in H.
  apply bind_inv in H as (x & h1 & Hl & H).
  apply load_inv in Hl as [-> (a & -> & _)].
  destruct (is_integer_type (st_type x)).
  - unfold bind, store, ret in H. injection H as _ <-.
    now apply store_frame.
  - injection H as _ <-. apply frame_refl.
Qed.

Lemma for_loop_frame (L : nat) (T : option ptr) (body : nat -> M unit) :
  (forall i h h', L <= length h -> body i h = Done tt h' ->
                  frame_ok L T h h') ->
  forall k i h h', L <= length h -> for_loop k i body h = Done tt h' ->
                   frame_ok L T h h'.
Proof.
  intros Hb. induction k as [|k IH]; intros i h h' HL H; cbn [for_loop] in H.
  - injection H as <-. apply frame_refl.
  - apply bind_inv in H as ([] & h1 & H1 & H2).
    pose proof (Hb _ _ _ HL H1) as Hf1.
    eapply frame_trans; [exact Hf1|].
    eapply IH; [|exact H2]. destruct Hf1. lia.
Qed.

Section Frames.

Variable L : nat.
Variable T : option ptr.

Lemma frames_ret {A : Type} (Q : A -> Prop) (a : A) :
  Q a -> frames L T Q (ret a).
Proof. intros Ha h b h' _ [= <- <-]. split; [apply frame_refl|exact Ha]. Qed.

Lemma frames_bind {A B : Type} (Q : A -> Prop) (R : B -> Prop)
    (m : M A) (k : A -> M B) :
  frames L T Q m -> (forall a, Q a -> frames L T R (k a)) ->
  frames L T R (bind m k).
Proof.
  intros Hm Hk h b h' HL H. apply bind_inv in H as (a & h1 & H1 & H2).
  destruct (Hm _ _ _ HL H1) as [Hf Ha].
  destruct (Hk a Ha h1 b h') as [Hf2 Hb]; [destruct Hf; lia|exact H2|].
  split; [eapply frame_trans; eauto|exact Hb].
Qed.

Lemma frames_load (p : option ptr) : frames L T (fun _ => True) (load p).
Proof.
  intros h s h' _ H. apply load_inv in H as [-> _].
  split; [apply frame_refl|exact I].
Qed.

Lemma frames_read {A : Type} (f : config_setting_t -> A) (p : option ptr) :
  frames L T (fun _ => True) (x <- load p ;; ret (f x)).
Proof.
  eapply frames_bind; [apply frames_load|]. intros s _. now apply frames_ret.
Qed.

Lemma frames_out_of_fuel {A : Type} (Q : A -> Prop) :
  frames L T Q (@out_of_fuel A).
Proof. intros h a h' _ H. discriminate H. Qed.

Lemma frames_add (parent : option ptr) (name : option string)
    (ty : setting_type) :
  writable L T parent ->
  frames L T (writable L T) (config_setting_add parent name ty).
Proof. intros Hw h a h' HL H. eapply add_frame; eauto. Qed.

Lemma frames_append (parent : option ptr) (ty : setting_type)
    (v : config_value_t) :
  writable L T parent ->
  frames L T (writable L T) (append_elem parent ty v).
Proof. intros Hw h a h' HL H. eapply append_frame; eauto. Qed.

Lemma frames_set_value (set : option ptr) (ty : setting_type)
    (v : config_value_t) :
  writable L T set -> frames L T (fun _ => True) (set_value set ty v).
Proof.
  intros Hw h a h' HL H. split; [eapply set_value_frame; eauto|exact I].
Qed.

Lemma frames_set_format (set : option ptr) (fmt : config_format) :
  writable L T set ->
  frames L T (fun _ => True) (config_setting_set_format set fmt).
Proof.
  intros Hw h a h' HL H. split; [eapply set_format_frame; eauto|exact I].
Qed.

Lemma frames_for_loop (body : nat -> M unit) (k i : nat) :
  (forall j, frames L T (fun _ => True) (body j)) ->
  frames L T (fun _ => True) (for_loop k i body).
Proof.
  intros Hb. revert i. induction k as [|k IH]; intros i; cbn [for_loop].
  - now apply frames_ret.
  - eapply frames_bind; [apply Hb|]. intros _ _. apply IH.
Qed.

Ltac frames_step :=
  first
    [ apply frames_out_of_fuel
    | apply frames_read
    | apply frames_load
    | apply frames_ret; exact I
    | apply frames_set_value; assumption
    | apply frames_set_format; assumption
    | apply frames_add; assumption
    | apply frames_append; assumption
    | eapply frames_bind; [|intros ? ?] ].

(** The copy functions write only through their [parent] argument and
    through the settings they create. *)
Lemma copy_frames (fuel : nat) :
  forall parent src, writable L T parent ->
    frames L T (fun _ => True) (config_setting_copy_simple fuel parent src)
    /\ frames L T (fun _ => True) (config_setting_copy_elem fuel parent src)
    /\ frames L T (fun _ => True)
         (config_setting_copy_aggregate fuel parent src).
Proof.
  induction fuel as [|fuel IH]; intros parent src Hw.
  - split; [|split]; apply frames_out_of_fuel.
  - destruct (IH parent src Hw) as (_ & _ & IHa).
    split; [|split].
    + cbn [config_setting_copy_simple].
      unfold config_setting_is_aggregate, config_setting_name,
        config_setting_type, config_setting_get_int,
        config_setting_get_int64, config_setting_get_float,
        config_setting_get_string, config_setting_get_bool,
        config_setting_set_int, config_setting_set_int64,
        config_setting_set_float, config_setting_set_string,
        config_setting_set_bool.
      eapply frames_bind; [apply frames_read|]. intros [] _; [exact IHa|].
      do 3 (eapply frames_bind; [frames_step|intros ? ?]).
      match goal with |- frames _ _ _ (match ?ty with _ => _ end) =>
        destruct ty end; repeat frames_step.
    + cbn [config_setting_copy_elem].
      unfold config_setting_is_aggregate, config_setting_type,
        config_setting_get_int, config_setting_get_int64,
        config_setting_get_float, config_setting_get_string,
        config_setting_get_bool, config_setting_set_int_elem,
        config_setting_set_int64_elem, config_setting_set_float_elem,
        config_setting_set_string_elem, config_setting_set_bool_elem.
      eapply frames_bind; [apply frames_read|]. intros [] _; [exact IHa|].
      eapply frames_bind; [frames_step|intros ty _].
      destruct ty; repeat frames_step.
    + cbn [config_setting_copy_aggregate].
      unfold config_setting_name, config_setting_type,
        config_setting_length, config_setting_is_group,
        config_setting_get_elem.
      do 2 (eapply frames_bind; [frames_step|intros ? ?]).
      eapply frames_bind; [apply frames_add; exact Hw|intros newAgg Hn].
      eapply frames_bind; [frames_step|intros ? ?].
      apply frames_for_loop. intros j.
      eapply frames_bind; [frames_step|intros grp _].
      eapply frames_bind; [frames_step|intros e _].
      destruct (IH newAgg e Hn) as (IHs & IHe & _).
      destruct grp; [exact IHs|exact IHe].
Qed.

End Frames.

Lemma copy_frame_top (L fuel : nat) (dst src : option ptr) :
  frames L dst (fun _ => True) (config_setting_copy fuel dst src).
Proof.
  unfold config_setting_copy, config_setting_is_group,
    config_setting_is_list, config_setting_is_aggregate.
  assert (Hw : writable L dst dst) by now left.
  destruct (copy_frames L dst fuel dst src Hw) as (Hs & _ & Ha).
  eapply frames_bind; [apply frames_read|intros grp _].
  eapply frames_bind; [apply frames_read|intros lst _].
  destruct (negb grp && negb lst); [now apply frames_ret|].
  eapply frames_bind; [apply frames_read|intros agg _].
  eapply frames_bind; [|intros ? _; now apply frames_ret].
  destruct agg; [exact Ha|exact Hs].
Qed.


(** ** Properties of [clone] *)

Lemma clone_name (pos : bool) (t : tree) :
  t_name (clone pos t) = if pos then None else t_name t.
Proof. now destruct t. Qed.

Lemma clone_type (pos : bool) (t : tree) : t_type (clone pos t) = t_type t.
Proof. now destruct t. Qed.

Lemma clone_size (t : tree) : forall pos, tree_size (clone pos t) = tree_size t.
Proof.
  induction t as [name ty fmt v cs IH] using tree_ind. intros pos.
  cbn [clone tree_size]. f_equal. rewrite map_map. f_equal.
  apply map_ext_Forall. eapply Forall_impl; [|exact IH]. intros c Hc. apply Hc.
Qed.

Lemma clone_depth (t : tree) :
  forall pos, tree_depth (clone pos t) = tree_depth t.
Proof.
  induction t as [name ty fmt v cs IH] using tree_ind. intros pos.
  cbn [clone tree_depth]. f_equal. rewrite map_map. f_equal.
  apply map_ext_Forall. eapply Forall_impl; [|exact IH]. intros c Hc. apply Hc.
Qed.

Lemma clone_well_formed (t : tree) :
  forall pos, well_formed (clone pos t) = well_formed t.
Proof.
  induction t as [name ty fmt v cs IH] using tree_ind. intros pos.
  cbn [clone well_formed].
  assert (Hnil : bool_decide (map (clone (negb (is_group_type ty))) cs = [])
                 = bool_decide (cs = []))
    by (destruct cs; reflexivity).
  assert (Hnames : is_group_type ty = true ->
                   child_names (map (clone (negb (is_group_type ty))) cs)
                   = child_names cs).
  { intros ->. unfold child_names. cbn [negb]. clear.
    induction cs as [|c cs IHc]; [reflexivity|].
    cbn [map omap list_omap]. rewrite clone_name.
    rewrite <- IHc. reflexivity. }
  assert (Harr : forallb
                   (fun c => is_scalar_type (t_type c)
                             && bool_decide
                                  (Some (t_type c)
                                   = t_type <$>
                                     head (map (clone
                                                  (negb (is_group_type ty)))
                                             cs)))
                   (map (clone (negb (is_group_type ty))) cs)
                 = forallb
                     (fun c => is_scalar_type (t_type c)
                               && bool_decide
                                    (Some (t_type c) = t_type <$> head cs))
                     cs).
  { assert (Hh : t_type <$> head (map (clone (negb (is_group_type ty))) cs)
                 = t_type <$> head cs)
      by (destruct cs; cbn; [reflexivity|now rewrite clone_type]).
    rewrite Hh. generalize (t_type <$> head cs). intros o. clear.
    induction cs as [|c cs IHc]; [reflexivity|].
    cbn [map forallb]. now rewrite clone_type, IHc. }
  assert (Hrec : forallb well_formed (map (clone (negb (is_group_type ty))) cs)
                 = forallb well_formed cs).
  { clear -IH. induction IH as [|c cs Hc _ IHc]; [reflexivity|].
    cbn [map forallb]. now rewrite Hc, IHc. }
  rewrite Hnil, Harr, Hrec.
  destruct (is_group_type ty) eqn:Hg; [now rewrite Hnames|reflexivity].
Qed.

Lemma clone_canonical (t : tree) :
  forall pos, canonical t = true ->
              clone pos t = with_name (if pos then None else t_name t) t.
Proof.
  induction t as [name ty fmt v cs IH] using tree_ind. intros pos Hc.
  cbn [canonical] in Hc.
  apply andb_true_iff in Hc as [Hc Hrec].
  apply andb_true_iff in Hc as [Hfmt Hnames].
  cbn [clone with_name t_name]. f_equal.
  - destruct (is_integer_type ty); [reflexivity|].
    cbn in Hfmt. now apply bool_decide_eq_true in Hfmt.
  - rewrite forallb_forall in Hrec.
    assert (Hn : forall c, In c cs ->
                   (if negb (is_group_type ty) then None else t_name c)
                   = t_name c).
    { intros c Hin. destruct (is_group_type ty); [reflexivity|].
      cbn in Hnames |- *. rewrite forallb_forall in Hnames.
      specialize (Hnames c Hin). now apply bool_decide_eq_true in Hnames. }
    clear Hnames Hfmt.
    induction IH as [|c cs Hc _ IHc]; [reflexivity|].
    cbn [map]. f_equal.
    + rewrite Hc by (apply Hrec; now left).
      rewrite Hn by now left. now destruct c.
    + apply IHc; intros; [apply Hrec|apply Hn]; now right.
Qed.

(** ** Reading a layout back *)

Lemma read_depth (n : nat) (h : heap) :
  forall p t ps, read n h p = Some (t, ps) -> tree_depth t <= n.
Proof.
  induction n as [|n IH]; intros p t ps Hr; [discriminate|].
  destruct (read_unfold _ _ _ _ _ Hr) as (s & rs & _ & Hm & -> & _).
  cbn [tree_depth]. apply le_n_S.
  apply mapM_Some in Hm. clear Hr.
  induction Hm as [|c [t ps'] l rs' Hc _ IHm]; cbn; [lia|].
  apply IH in Hc. lia.
Qed.

Lemma read_layout_list (cs : list tree) :
  Forall reads_back cs ->
  forall n pre post par',
    Forall (fun c => tree_depth c <= n) cs ->
    forallb well_formed cs = true ->
    exists rs,
      mapM (read n (pre ++ layout_list cs (length pre) par' ++ post))
        (roots cs (length pre)) = Some rs
      /\ map fst rs = cs
      /\ concat (map snd rs)
         = seq (length pre) (list_sum (map tree_size cs)).
Proof.
  induction 1 as [|c cs Hc _ IH]; intros n pre post par' Hd Hwf.
  - exists []. repeat split; reflexivity.
  - cbn [forallb] in Hwf. apply andb_true_iff in Hwf as [Hwc Hwf].
    apply Forall_cons_iff in Hd as [Hdc Hd].
    cbn [roots layout_list mapM].
    rewrite <- app_assoc.
    rewrite (Hc n pre _ par' Hdc Hwc). cbn [mbind option_bind].
    destruct (IH n (pre ++ layout c (length pre) par') post par' Hd Hwf)
      as (rs & Hm & Hfst & Hsnd).
    rewrite length_app, length_layout in Hm, Hsnd.
    rewrite <- app_assoc in Hm. rewrite Hm. cbn [mbind option_bind mret option_ret].
    eexists. split; [reflexivity|]. cbn [map fst snd concat].
    split; [now rewrite Hfst|].
    change (list_sum (tree_size c :: map tree_size cs))
      with (tree_size c + list_sum (map tree_size cs)).
    rewrite Hsnd, seq_app. reflexivity.
Qed.

Lemma read_layout (t : tree) : reads_back t.
Proof.
  induction t as [name ty fmt v cs IH] using tree_ind.
  intros n pre post par Hd Hwf.
  destruct n as [|n]; [cbn in Hd; lia|].
  cbn [tree_depth] in Hd. apply le_S_n in Hd.
  rewrite layout_unfold. cbn [read].
  rewrite lookup_app_r, Nat.sub_diag by lia. cbn [app lookup list_lookup].
  cbn [well_formed] in Hwf.
  apply andb_true_iff in Hwf as [Hwf Hrec].
  apply andb_true_iff in Hwf as [Hwf _].
  apply andb_true_iff in Hwf as [Hwf _].
  apply andb_true_iff in Hwf as [Hval Hshape].
  unfold elements_of. cbn [new_setting st_type st_value st_name st_format].
  destruct (is_aggregate_type ty) eqn:Hagg.
  - assert (Hds : Forall (fun c => tree_depth c <= n) cs).
    { clear -Hd. induction cs as [|c cs IHc]; constructor; cbn in Hd; [lia|].
      apply IHc. lia. }
    destruct (read_layout_list cs IH n
                (pre ++ [new_setting name ty fmt
                           (Vlist (roots cs (S (length pre)))) par])
                post (length pre) Hds Hrec) as (rs & Hm & Hfst & Hsnd).
    rewrite length_app in Hm, Hsnd. cbn [length] in Hm, Hsnd.
    replace (length pre + 1) with (S (length pre)) in Hm, Hsnd by lia.
    rewrite <- app_assoc in Hm. cbn [app] in Hm.
    rewrite Hm. cbv beta iota. rewrite Hfst, Hsnd.
    cbn [tree_size seq]. do 3 f_equal.
    destruct ty, v; (discriminate Hval || discriminate Hagg || reflexivity).
  - cbn in Hshape. apply bool_decide_eq_true in Hshape. subst cs.
    reflexivity.
Qed.

(** The copy can be read from the heap [copied] describes. *)
Lemma read_copied (n : nat) (h : heap) (D : ptr) (d : config_setting_t)
    (t : tree) :
  tree_depth t <= n -> well_formed t = true ->
  read n (copied h D d t) (length h)
  = Some (clone (positional d) t, seq (length h) (tree_size t)).
Proof.
  intros Hd Hwf. unfold copied.
  pose proof (read_layout (clone (positional d) t) n
                (<[D := add_elem d (length h)]> h) [] D) as H.
  rewrite length_insert, app_nil_r, clone_depth, clone_well_formed,
    clone_size in H.
  now apply H.
Qed.

(** ** A copy into the source itself *)

Lemma bind_out_of_fuel {A B : Type} (m : M A) (k : A -> M B) (h : heap) :
  m h = OutOfFuel -> bind m k h = OutOfFuel.
Proof. unfold bind. now intros ->. Qed.

(** Copying an empty group into itself: the copy becomes an element of the
    source before the elements are counted, and is itself an empty group
    that is then copied into itself. *)
Lemma self_copy_diverges (fuel : nat) :
  forall (h : heap) (p : ptr) (s : config_setting_t),
    h !! p = Some s -> st_type s = CONFIG_TYPE_GROUP ->
    elements_of s = [] ->
    config_setting_copy_simple fuel (Some p) (Some p) h = OutOfFuel
    /\ config_setting_copy_aggregate fuel (Some p) (Some p) h = OutOfFuel.
Proof.
  induction fuel as [|fuel IH]; intros h p s Hs Hty Hel; [now split|].
  destruct (IH h p s Hs Hty Hel) as [_ IHa].
  split.
  - cbn [config_setting_copy_simple].
    unfold config_setting_is_aggregate. run_accessors Hs.
    rewrite Hty. exact IHa.
  - cbn [config_setting_copy_aggregate].
    unfold config_setting_name, config_setting_type, config_setting_length,
      config_setting_is_group, config_setting_get_elem.
    run_accessors Hs.
    assert (Hacc : accepts h s (st_name s) (st_type s) = true).
    { unfold accepts. rewrite Hty, Hel.
      destruct (st_name s); reflexivity. }
    rewrite (bind_done _ _ _ _ _ (add_spec _ _ _ _ _ Hs Hacc)).
    set (A := length h).
    set (x := new_setting _ _ _ _ _).
    assert (Hp : p < A) by (eapply lookup_lt_Some; eauto).
    assert (Hs1 : (<[p := add_elem s A]> h ++ [x]) !! p
                  = Some (add_elem s A)).
    { rewrite lookup_app_l by (rewrite length_insert; exact Hp).
      now apply list_lookup_insert_eq. }
    assert (Hx : (<[p := add_elem s A]> h ++ [x]) !! A = Some x).
    { rewrite lookup_app_r by (rewrite length_insert; subst A; lia).
      rewrite length_insert. subst A. now rewrite Nat.sub_diag. }
    assert (Hel1 : elements_of (add_elem s A) = [A]).
    { unfold elements_of at 1. cbn [add_elem st_type st_value].
      now rewrite Hty, Hel. }
    rewrite (bind_done _ _ _ _ _ (load_ret _ _ _ _ Hs1)), Hel1.
    cbn [length for_loop].
    apply bind_out_of_fuel.
    rewrite (bind_done _ _ _ _ _ (load_ret _ _ _ _ Hs1)).
    rewrite (bind_done _ _ _ _ _ (load_ret _ _ _ _ Hs1)), Hel1.
    cbn [add_elem st_type]. rewrite Hty. cbn [is_group_type lookup list_lookup].
    apply (IH _ A x Hx).
    + subst x. cbn. now rewrite Hty.
    + subst x. unfold elements_of. cbn. now rewrite Hty.
Qed.

Lemma self_copy_never_returns (fuel : nat) (h : heap) (p : ptr)
    (s : config_setting_t) :
  h !! p = Some s -> st_type s = CONFIG_TYPE_GROUP -> elements_of s = [] ->
  config_setting_copy fuel (Some p) (Some p) h = OutOfFuel.
Proof.
  intros Hs Hty Hel.
  unfold config_setting_copy, config_setting_is_group,
    config_setting_is_list, config_setting_is_aggregate.
  run_accessors Hs. rewrite Hty. cbn [is_group_type negb andb].
  run_accessors Hs. rewrite Hty. cbn [is_aggregate_type].
  apply bind_out_of_fuel. eapply self_copy_diverges; eauto.
Qed.

(** ** The copy in the heap *)

Lemma names_follow_kind_clone (t : tree) :
  forall pos, names_follow_kind t (clone pos t) = true.
Proof.
  induction t as [name ty fmt v cs IH] using tree_ind. intros pos.
  cbn [clone names_follow_kind].
  induction IH as [|c cs Hc _ IHc]; [reflexivity|].
  cbn [map]. rewrite Hc, IHc, clone_name.
  rewrite bool_decide_eq_true_2; [reflexivity|].
  now destruct (is_group_type ty).
Qed.

Lemma copied_dest (h : heap) (D : ptr) (d : config_setting_t) (t : tree) :
  h !! D = Some d -> copied h D d t !! D = Some (add_elem d (length h)).
Proof.
  intros Hd. unfold copied.
  assert (D < length h) by (eapply lookup_lt_Some; eauto).
  rewrite lookup_app_l by (now rewrite length_insert).
  now apply list_lookup_insert_eq.
Qed.


(** * Further properties of the numeric literal codec *)

Local Open Scope string_scope.
Local Open Scope Z_scope.

Lemma binary_char (c : ascii) :
  (code c =? 48) || (code c =? 49) = true ->
  c = "0"%char \/ c = "1"%char.
Proof. all_ascii c; (discriminate || tauto). Qed.

Lemma binary_digits (s : string) :
  is_binary s = true ->
  length (leading_digits 2 s) = String.length s /\ drop_digits 2 s = "".
Proof.
  induction s as [|c r IH]; cbn [is_binary]; [now split|].
  intros H. apply andb_true_iff in H as [Hc Hr].
  destruct (IH Hr) as [IH1 IH2].
  cbn [leading_digits drop_digits]. rewrite digit_in_2, Hc.
  cbn [length String.length]. now rewrite IH1.
Qed.

Lemma horner_bound (s : string) :
  0 <= horner 2 (leading_digits 2 s) 0
     < 2 ^ Z.of_nat (length (leading_digits 2 s)).
Proof.
  induction s as [|c r IH]; cbn [leading_digits]; [cbn; lia|].
  destruct (Libc.digit_in 2 c) as [d|] eqn:E; [|cbn; lia].
  apply digit_in_range in E.
  cbn [horner length]. rewrite horner_acc.
  rewrite Nat2Z.inj_succ, Z.pow_succ_r by lia. nia.
Qed.

Lemma bits_from_binary (s : string) (acc : Z) :
  is_binary s = true ->
  bits_from (String.length s) (horner 2 (leading_digits 2 s) acc) = s.
Proof.
  revert acc. induction s as [|c r IH]; intros acc; cbn [is_binary]; [reflexivity|].
  intros H. apply andb_true_iff in H as [Hc Hr].
  cbn [leading_digits]. rewrite digit_in_2, Hc.
  cbn [horner String.length bits_from].
  rewrite (IH _ Hr). f_equal.
  rewrite horner_acc.
  destruct (binary_digits r Hr) as [Hl _].
  pose proof (horner_bound r) as Hb. rewrite Hl in *.
  set (n := Z.of_nat (String.length r)) in *.
  set (v := horner 2 (leading_digits 2 r) 0) in *.
  rewrite Z.testbit_eqb by lia.
  replace ((acc * 2 + (if code c =? 49 then 1 else 0)) * 2 ^ n + v)
    with (v + (acc * 2 + (if code c =? 49 then 1 else 0)) * 2 ^ n) by ring.
  rewrite Z.div_add by lia. rewrite Z.div_small by lia.
  rewrite Z.add_0_l.
  destruct (binary_char c Hc) as [-> | ->]; cbn [code]; 
    change (code "0" =? 49) with false; change (code "1" =? 49) with true;
    cbv beta iota.
  all: rewrite Z.add_comm, Z_mod_plus_full; reflexivity.
Qed.

Lemma minimal_binary_of_binary (s : string) :
  is_binary s = true -> deref s = "1"%char ->
  minimal_binary (exact_value 2 s) = s
  /\ 2 ^ (Z.of_nat (String.length s) - 1) <= exact_value 2 s
     < 2 ^ Z.of_nat (String.length s).
Proof.
  intros Hb Hh.
  assert (Hr : 2 ^ (Z.of_nat (String.length s) - 1) <= exact_value 2 s
               < 2 ^ Z.of_nat (String.length s)).
  { destruct s as [|c r]; [discriminate Hh|]. cbn [deref] in Hh. subst c.
    cbn [is_binary] in Hb. apply andb_true_iff in Hb as [_ Hr].
    unfold exact_value. cbn [leading_digits].
    change (Libc.digit_in 2 "1") with (Some 1).
    cbn [horner String.length]. rewrite horner_acc.
    destruct (binary_digits r Hr) as [Hl _].
    pose proof (horner_bound r) as Hbd. rewrite Hl in *.
    rewrite Nat2Z.inj_succ.
    replace (Z.succ (Z.of_nat (String.length r)) - 1)
      with (Z.of_nat (String.length r)) by lia.
    rewrite Z.pow_succ_r by lia. lia. }
  split; [|exact Hr].
  unfold minimal_binary.
  assert (Hlen : (0 < String.length s)%nat)
    by (destruct s; [discriminate Hh|cbn; lia]).
  assert (Hlog : Z.log2 (exact_value 2 s) = Z.of_nat (String.length s) - 1).
  { apply Z.log2_unique; [lia|].
    replace (Z.succ (Z.of_nat (String.length s) - 1))
      with (Z.of_nat (String.length s)) by lia. exact Hr. }
  rewrite Hlog.
  replace (Z.to_nat (Z.of_nat (String.length s) - 1 + 1))
    with (String.length s) by lia.
  now apply bits_from_binary.
Qed.

Lemma wrap64_sint64 (u : Z) : 0 <= u < two64 -> wrap64 (sint64 u) = u.
Proof.
  intros H. unfold sint64. rewrite (wrap64_small u H).
  destruct (Z.ltb_spec u two63).
  - now apply wrap64_small.
  - unfold wrap64. replace (u - two64) with (u + (-1) * two64) by ring.
    rewrite Z_mod_plus_full. now apply Z.mod_small.
Qed.

Lemma sint64_range (u : Z) : - two63 <= sint64 u < two63.
Proof.
  unfold sint64.
  assert (H := Z.mod_pos_bound u two64 ltac:(reflexivity)).
  fold (wrap64 u) in H.
  destruct (Z.ltb_spec (wrap64 u) two63); unfold two63, two64 in *; lia.
Qed.

Lemma sint64_wrap64 (val : Z) : - two63 <= val < two63 -> sint64 (wrap64 val) = val.
Proof.
  intros H. destruct (Z.neg_nonneg_cases val).
  - rewrite wrap64_neg by lia. unfold sint64.
    rewrite wrap64_small by (unfold two63, two64 in *; lia).
    destruct (Z.ltb_spec (val + two64) two63); unfold two63, two64 in *; lia.
  - rewrite wrap64_small by (unfold two63, two64 in *; lia).
    now apply sint64_small.
Qed.

Lemma leading_digits_head (base : Z) (s : string) :
  leading_digits base s <> [] ->
  exists h r d, s = String h r /\ Libc.digit_in base h = Some d.
Proof.
  destruct s as [|h r]; cbn; [congruence|].
  destruct (Libc.digit_in base h) as [d|] eqn:E; [|congruence].
  intros _. now exists h, r, d.
Qed.

Lemma parse_integer_hex_literal (x : ascii) (body : string) :
  x = "x"%char \/ x = "X"%char ->
  leading_digits 16 body <> [] ->
  libconfig_parse_integer (String "0" (String x body))
  = if at_end (drop_digits 16 body) && (exact_value 16 body <? two63)
    then (exact_value 16 body, true) else (0, false).
Proof.
  intros Hx Hd. rewrite parse_integer_refines.
  pose proof (exact_value_nonneg 16 body) as Hnn.
  unfold spec_parse_integer.
  assert (Hs : Libc.sign (Libc.skip_space (String "0" (String x body)))
               = (false, String "0" (String x body))) by reflexivity.
  rewrite Hs.
  assert (Hp : has_hex_prefix (String "0" (String x body)) = true)
    by (destruct Hx as [-> | ->]; reflexivity).
  unfold detect_base, literal_digits. rewrite Hp. cbn [advance].
  destruct (leading_digits 16 body) eqn:E; [congruence|].
  destruct (at_end (drop_digits 16 body)); cbn [andb]; [|reflexivity].
  assert ((- two63 <=? exact_value 16 body) = true) as ->
    by (apply Z.leb_le; unfold two63; lia).
  reflexivity.
Qed.

Lemma parse_bin64_prefixed (mingw : bool) (body : string) :
  leading_digits 2 body <> [] -> exact_value 2 body < two64 ->
  libconfig_parse_bin64 mingw (String "0" (String "b" body))
  = Some (exact_value 2 body).
Proof.
  intros Hd Hv. pose proof (exact_value_nonneg 2 body) as Hnn.
  destruct mingw.
  - rewrite parse_bin64_mingw_prefixed by now left.
    now rewrite wrap64_small by lia.
  - rewrite parse_bin64_posix_digits by assumption.
    unfold clamp_u64.
    destruct (Z.leb_spec two64 (exact_value 2 body)); [lia|reflexivity].
Qed.

Lemma parse_hex64_prefixed (mingw : bool) (x : ascii) (body : string) :
  x = "x"%char \/ x = "X"%char -> exact_value 16 body < two64 ->
  libconfig_parse_hex64 mingw (String "0" (String x body))
  = exact_value 16 body.
Proof.
  intros Hx Hv. pose proof (exact_value_nonneg 16 body) as Hnn.
  destruct mingw.
  - rewrite parse_hex64_mingw_prefixed by assumption.
    now rewrite wrap64_small by lia.
  - rewrite parse_hex64_posix_prefixed by assumption.
    unfold clamp_u64.
    destruct (Z.leb_spec two64 (exact_value 16 body)); [lia|reflexivity].
Qed.

Lemma minimal_binary_digits (u : Z) :
  0 < u -> leading_digits 2 (minimal_binary u) <> [].
Proof.
  intros Hu. pose proof (minimal_binary_head u Hu) as Hh.
  destruct (minimal_binary u) as [|c r]; [discriminate Hh|].
  cbn [deref] in Hh. subst c. discriminate.
Qed.

Lemma format_bin_loop_bounds (n : nat) (val limit c i : Z) :
  (String.length (format_bin_loop n val limit c i) <= n)%nat
  /\ (i <= limit ->
      Z.of_nat (String.length (format_bin_loop n val limit c i)) <= limit - i)
  /\ is_binary (format_bin_loop n val limit c i) = true.
Proof.
  revert c i. induction n as [|m IH]; intros c i; cbn [format_bin_loop].
  - cbn. repeat split; lia.
  - destruct ((c <? 64) && (i <? limit)) eqn:E.
    + apply andb_true_iff in E as [_ Hi]. apply Z.ltb_lt in Hi.
      destruct (IH (c + 1) (i + 1)) as (H1 & H2 & H3).
      cbn [String.length is_binary]. repeat split.
      * lia.
      * intros _. specialize (H2 ltac:(lia)). lia.
      * rewrite H3. now destruct (Z.land val _ =? 0).
    + cbn. repeat split; lia.
Qed.

Lemma clzl_loop_zero (fuel : nat) (check leading : Z) :
  - two63 <= check < 0 -> clzl_loop fuel 0 check leading = None.
Proof.
  revert check leading. induction fuel as [|f IH]; intros check leading H;
    [reflexivity|].
  cbn [clzl_loop]. rewrite Z.land_0_l.
  replace (check =? 0) with false by (symmetry; apply Z.eqb_neq; lia).
  cbn [Z.eqb andb negb]. apply IH.
  rewrite Z.shiftr_div_pow2 by lia. change (2 ^ 1) with 2.
  assert (- two63 <= check / 2 < 0).
  { split.
    - apply Z.div_le_lower_bound; unfold two63 in *; lia.
    - apply Z.div_lt_upper_bound; lia. }
  rewrite sint64_neg by assumption. assumption.
Qed.

Lemma zeros_length (k : nat) : String.length (zeros k) = k.
Proof. induction k; cbn; congruence. Qed.

Lemma strtoull_space (c : ascii) (s : string) (base : Z) :
  Libc.isspace c = true ->
  Libc.result (Libc.strtoull (String c s) base)
  = Libc.result (Libc.strtoull s base).
Proof.
  intros Hc. unfold Libc.strtoull, Libc.subject.
  cbn [Libc.skip_space]. rewrite Hc.
  destruct (Libc.sign (Libc.skip_space s)) as [neg s1].
  destruct (Libc.prefix base s1) as [b s2].
  destruct (Libc.digits b s2 0 0) as [[v n] rest].
  destruct n; [reflexivity|].
  now destruct (two64 <=? v).
Qed.

Lemma strtoull_hex_signed (sg x : ascii) (body : string) :
  sg = "-"%char \/ sg = "+"%char ->
  x = "x"%char \/ x = "X"%char ->
  leading_digits 16 body <> [] -> exact_value 16 body < two64 ->
  Libc.result (Libc.strtoull (String sg (String "0" (String x body))) 16)
  = wrap64 (if code sg =? 45 then - exact_value 16 body
            else exact_value 16 body).
Proof.
  intros Hs Hx Hd Hv.
  destruct (leading_digits_head 16 body Hd) as (h & r & d & -> & Hh).
  assert (Hxd : Libc.isxdigit h = true).
  { rewrite digit_in_16 in Hh. now destruct (Libc.isxdigit h). }
  unfold Libc.strtoull, Libc.subject.
  assert (E1 : Libc.sign (Libc.skip_space
                            (String sg (String "0" (String x (String h r)))))
               = (code sg =? 45, String "0" (String x (String h r))))
    by (destruct Hs as [-> | ->]; reflexivity).
  rewrite E1.
  assert (E2 : Libc.prefix 16 (String "0" (String x (String h r)))
               = (16, String h r)).
  { unfold Libc.prefix. rewrite Hxd.
    destruct Hx as [-> | ->]; reflexivity. }
  rewrite E2, digits_spec. fold (exact_value 16 (String h r)).
  destruct (leading_digits 16 (String h r)) eqn:El; [congruence|].
  cbn [length Nat.add].
  destruct (Z.leb_spec two64 (exact_value 16 (String h r))); [lia|].
  reflexivity.
Qed.

Lemma strtoull_range (s : string) (base : Z) :
  0 <= Libc.result (Libc.strtoull s base) < two64.
Proof.
  unfold Libc.strtoull.
  destruct (Libc.subject s base) as [[[neg v] n] rest].
  destruct n; [cbn; unfold two64; lia|].
  destruct (two64 <=? v); cbn [Libc.result].
  - unfold two64. lia.
  - apply Z.mod_pos_bound. reflexivity.
Qed.

Lemma uint_digits (d : Decimal.uint) :
  drop_digits 10 (NilEmpty.string_of_uint d) = ""
  /\ forall acc : positive,
       horner 10 (leading_digits 10 (NilEmpty.string_of_uint d)) (Z.pos acc)
       = Z.pos (Pos.of_uint_acc d acc).
Proof.
  induction d as [|d [IH1 IH2]|d [IH1 IH2]|d [IH1 IH2]|d [IH1 IH2]
                  |d [IH1 IH2]|d [IH1 IH2]|d [IH1 IH2]|d [IH1 IH2]
                  |d [IH1 IH2]|d [IH1 IH2]];
    (split; [try reflexivity; exact IH1|intros acc; try reflexivity]);
    cbn [NilEmpty.string_of_uint leading_digits Pos.of_uint_acc];
    match goal with
    | |- context [Libc.digit_in 10 ?c] =>
        let v := eval vm_compute in (Libc.digit_in 10 c) in
        change (Libc.digit_in 10 c) with v
    end;
    cbn [horner]; rewrite <- IH2; f_equal; lia.
Qed.

Lemma uint_value (d : Decimal.uint) :
  horner 10 (leading_digits 10 (NilEmpty.string_of_uint d)) 0
  = Z.of_N (Pos.of_uint d).
Proof.
  induction d; cbn [NilEmpty.string_of_uint leading_digits Pos.of_uint];
    try reflexivity;
    match goal with
    | |- context [Libc.digit_in 10 ?c] =>
        let v := eval vm_compute in (Libc.digit_in 10 c) in
        change (Libc.digit_in 10 c) with v
    end;
    cbn [horner]; try assumption;
    cbn [Z.mul Z.add Z.of_N]; apply (proj2 (uint_digits _)).
Qed.

Lemma nzhead_not_zero (d u : Decimal.uint) : Decimal.nzhead d <> Decimal.D0 u.
Proof. induction d; cbn; congruence. Qed.

Lemma to_uint_head (p : positive) :
  exists c r,
    NilEmpty.string_of_uint (Pos.to_uint p) = String c r
    /\ Libc.digit_in 10 c <> None /\ code c <> 48.
Proof.
  assert (Hn : Decimal.unorm (Pos.to_uint p) = Pos.to_uint p).
  { rewrite <- DecimalPos.Unsigned.to_of, DecimalPos.Unsigned.of_to.
    reflexivity. }
  pose proof (DecimalPos.Unsigned.to_uint_nonnil p) as Hnil.
  pose proof (DecimalPos.Unsigned.to_uint_nonzero p) as Hnz.
  destruct (Pos.to_uint p) as [|d|d|d|d|d|d|d|d|d|d] eqn:E;
    [congruence| |eexists _, _; cbn; split; [reflexivity|split; vm_compute; congruence]..].
  exfalso. unfold Decimal.unorm in Hn. cbn [Decimal.nzhead] in Hn.
  pose proof (nzhead_not_zero d) as Hz.
  destruct (Decimal.nzhead d) eqn:Ed; try congruence.
Qed.

Lemma decimal_positive (n : Z) :
  0 < n ->
  exists c r,
    Libc.decimal n = String c r
    /\ Libc.digit_in 10 c <> None /\ code c <> 48
    /\ drop_digits 10 (Libc.decimal n) = ""
    /\ exact_value 10 (Libc.decimal n) = n.
Proof.
  intros Hn. unfold Libc.decimal.
  destruct n as [|p|p]; try lia. cbn [Z.to_N N.to_uint].
  destruct (to_uint_head p) as (c & r & E & Hd & Hc).
  assert (Hs : NilZero.string_of_uint (Pos.to_uint p)
               = NilEmpty.string_of_uint (Pos.to_uint p)).
  { unfold NilZero.string_of_uint.
    pose proof (DecimalPos.Unsigned.to_uint_nonnil p).
    now destruct (Pos.to_uint p). }
  rewrite Hs. exists c, r. split; [exact E|]. split; [exact Hd|].
  split; [exact Hc|]. split; [apply uint_digits|].
  unfold exact_value. rewrite uint_value, DecimalPos.Unsigned.of_to.
  reflexivity.
Qed.

Lemma parse_integer_digits (neg : bool) (c : ascii) (r : string) :
  Libc.digit_in 10 c <> None -> code c <> 48 ->
  drop_digits 10 (String c r) = "" ->
  let v := exact_value 10 (String c r) in
  let sv := if neg then - v else v in
  - two63 <= sv < two63 ->
  libconfig_parse_integer ((if neg then "-" else "") ++ String c r)
  = (sv, true).
Proof.
  intros Hd Hc Hdrop v sv Hr. rewrite parse_integer_refines.
  unfold spec_parse_integer.
  assert (Hcs : Libc.isspace c = false /\ (code c =? 45) = false
                /\ (code c =? 43) = false /\ (code c =? 48) = false).
  { revert Hd Hc. clear. all_ascii c; intros; repeat split; congruence. }
  destruct Hcs as (Hsp & Hm & Hp & Hz).
  assert (Hs : Libc.sign (Libc.skip_space ((if neg then "-" else "") ++ String c r))
               = (neg, String c r)).
  { destruct neg; cbn [append Libc.skip_space].
    - cbn. now rewrite Hsp.
    - rewrite Hsp. cbn [Libc.sign]. now rewrite Hm, Hp. }
  rewrite Hs.
  assert (Hb : detect_base (String c r) = 10).
  { unfold detect_base, has_hex_prefix, has_prefix. cbn [deref].
    destruct r; rewrite ?Hz; cbn [andb]; rewrite ?Hz; reflexivity. }
  assert (Hl : literal_digits (String c r) = String c r).
  { unfold literal_digits, has_hex_prefix, has_prefix.
    destruct r; rewrite ?Hz; reflexivity. }
  rewrite Hb, Hl, Hdrop. fold v. fold sv.
  destruct (leading_digits 10 (String c r)) eqn:El.
  { cbn [leading_digits] in El. destruct (Libc.digit_in 10 c); congruence. }
  change (at_end "") with true. cbn [andb].
  destruct (Z.leb_spec (- two63) sv); [|lia].
  destruct (Z.ltb_spec sv two63); [|lia]. reflexivity.
Qed.


Local Close Scope string_scope.
Local Close Scope Z_scope.

(** * Further properties of the copier *)

Lemma stable_refl (h : heap) : stable h h.
Proof. intros p s Hs. now exists s. Qed.

Lemma stable_trans (h1 h2 h3 : heap) :
  stable h1 h2 -> stable h2 h3 -> stable h1 h3.
Proof.
  intros H12 H23 p s Hs.
  destruct (H12 p s Hs) as (s2 & H2 & Hn2 & Ht2).
  destruct (H23 p s2 H2) as (s3 & H3 & Hn3 & Ht3).
  exists s3. repeat split; congruence.
Qed.

Lemma stable_insert (h : heap) (a : ptr) (x y : config_setting_t) :
  h !! a = Some x -> st_name y = st_name x -> st_type y = st_type x ->
  stable h (<[a := y]> h).
Proof.
  intros Hx Hn Ht p s Hs. destruct (decide (p = a)) as [->|Hne].
  - exists y. rewrite list_lookup_insert_eq by (eapply lookup_lt_Some; eauto).
    rewrite Hx in Hs. injection Hs as <-. now repeat split.
  - exists s. rewrite list_lookup_insert_ne by congruence. now repeat split.
Qed.

Lemma stable_app (h l : heap) : stable h (h ++ l).
Proof.
  intros p s Hs. exists s. split; [|now split].
  rewrite lookup_app_l; [exact Hs|]. eapply lookup_lt_Some; eauto.
Qed.

Lemma keeps_ret {A : Type} (a : A) : keeps (ret a).
Proof. intros h b h' [= _ <-]. apply stable_refl. Qed.

Lemma keeps_bind {A B : Type} (m : M A) (k : A -> M B) :
  keeps m -> (forall a, keeps (k a)) -> keeps (bind m k).
Proof.
  intros Hm Hk h b h' H. apply bind_inv in H as (a & h1 & H1 & H2).
  eapply stable_trans; [eapply Hm|eapply Hk]; eauto.
Qed.

Lemma keeps_load (p : option ptr) : keeps (load p).
Proof. intros h s h' H. apply load_inv in H as [-> _]. apply stable_refl. Qed.

Lemma keeps_out_of_fuel {A : Type} : keeps (@out_of_fuel A).
Proof. intros h a h' H. discriminate H. Qed.

Lemma keeps_create (p : ptr) (x : config_setting_t) (name : option string)
    (ty : setting_type) (v : config_value_t) (h h' : heap) (r : option ptr) :
  h !! p = Some x -> create p x name ty v h = Done r h' -> stable h h'.
Proof.
  intros Hx H. rewrite create_spec in H by (eapply lookup_lt_Some; eauto).
  injection H as _ <-.
  eapply stable_trans; [|apply stable_app].
  now apply (stable_insert h p x).
Qed.

Lemma keeps_add (parent : option ptr) (name : option string)
    (ty : setting_type) : keeps (config_setting_add parent name ty).
Proof.
  intros h r h'. unfold config_setting_add.
  destruct parent as [p|]; [|intros [= _ <-]; apply stable_refl].
  intros H. apply bind_inv in H as (x & h1 & Hl & H).
  apply load_inv in Hl as [-> (a & [= <-] & Hx)].
  destruct (st_type x); try (injection H as _ <-; apply stable_refl).
  - destruct name as [n|]; [|eapply keeps_create; eauto].
    destruct (get_member h (elements_of x) n);
      [injection H as _ <-; apply stable_refl|eapply keeps_create; eauto].
  - destruct (array_accepts h (elements_of x) ty);
      [eapply keeps_create; eauto|injection H as _ <-; apply stable_refl].
  - eapply keeps_create; eauto.
Qed.

Lemma keeps_append (parent : option ptr) (ty : setting_type)
    (v : config_value_t) : keeps (append_elem parent ty v).
Proof.
  intros h r h' H. unfold append_elem in H.
  apply bind_inv in H as (x & h1 & Hl & H).
  apply load_inv in Hl as [-> (a & -> & Hx)].
  destruct (st_type x); try (injection H as _ <-; apply stable_refl).
  - destruct (array_accepts h (elements_of x) ty);
      [eapply keeps_create; eauto|injection H as _ <-; apply stable_refl].
  - eapply keeps_create; eauto.
Qed.

Lemma keeps_set_value (set : option ptr) (ty : setting_type)
    (v : config_value_t) : keeps (set_value set ty v).
Proof.
  intros h r h' H. unfold set_value in H.
  apply bind_inv in H as (x & h1 & Hl & H).
  apply load_inv in Hl as [-> (a & -> & Hx)].
  destruct (bool_decide (st_type x = ty)).
  - injection H as _ <-. now apply (stable_insert h a x).
  - injection H as _ <-. apply stable_refl.
Qed.

Lemma keeps_set_format (set : option ptr) (fmt : config_format) :
  keeps (config_setting_set_format set fmt).
Proof.
  intros h r h' H. unfold config_setting_set_format in H.
  apply bind_inv in H as (x & h1 & Hl & H).
  apply load_inv in Hl as [-> (a & -> & Hx)].
  destruct (is_integer_type (st_type x)).
  - injection H as _ <-. now apply (stable_insert h a x).
  - injection H as _ <-. apply stable_refl.
Qed.

Lemma keeps_for_loop (body : nat -> M unit) (k i : nat) :
  (forall j, keeps (body j)) -> keeps (for_loop k i body).
Proof.
  intros Hb. revert i. induction k as [|k IH]; intros i; cbn [for_loop].
  - apply keeps_ret.
  - apply keeps_bind; [apply Hb|intros _; apply IH].
Qed.

Ltac keeps_step :=
  first
    [ apply keeps_out_of_fuel
    | apply keeps_load
    | apply keeps_ret
    | apply keeps_set_value
    | apply keeps_set_format
    | apply keeps_add
    | apply keeps_append
    | apply keeps_bind; [|intros ?] ].

Lemma copy_keeps (fuel : nat) :
  forall parent src,
    keeps (config_setting_copy_simple fuel parent src)
    /\ keeps (config_setting_copy_elem fuel parent src)
    /\ keeps (config_setting_copy_aggregate fuel parent src).
Proof.
  induction fuel as [|fuel IH]; intros parent src.
  - split; [|split]; apply keeps_out_of_fuel.
  - destruct (IH parent src) as (_ & _ & IHa).
    split; [|split].
    + cbn [config_setting_copy_simple].
      unfold config_setting_is_aggregate, config_setting_name,
        config_setting_type, config_setting_get_int,
        config_setting_get_int64, config_setting_get_float,
        config_setting_get_string, config_setting_get_bool,
        config_setting_set_int, config_setting_set_int64,
        config_setting_set_float, config_setting_set_string,
        config_setting_set_bool.
      apply keeps_bind; [repeat keeps_step|]. intros []; [exact IHa|].
      do 3 (apply keeps_bind; [repeat keeps_step|intros ?]).
      match goal with |- keeps (match ?ty with _ => _ end) =>
        destruct ty end; repeat keeps_step.
    + cbn [config_setting_copy_elem].
      unfold config_setting_is_aggregate, config_setting_type,
        config_setting_get_int, config_setting_get_int64,
        config_setting_get_float, config_setting_get_string,
        config_setting_get_bool, config_setting_set_int_elem,
        config_setting_set_int64_elem, config_setting_set_float_elem,
        config_setting_set_string_elem, config_setting_set_bool_elem.
      apply keeps_bind; [repeat keeps_step|]. intros []; [exact IHa|].
      apply keeps_bind; [repeat keeps_step|intros ty].
      destruct ty; repeat keeps_step.
    + cbn [config_setting_copy_aggregate].
      unfold config_setting_name, config_setting_type,
        config_setting_length, config_setting_is_group,
        config_setting_get_elem.
      do 4 (apply keeps_bind; [repeat keeps_step|intros ?]).
      apply keeps_for_loop. intros j.
      do 2 (apply keeps_bind; [repeat keeps_step|intros ?]).
      match goal with |- keeps (if ?g then _ else _) => destruct g end;
        apply IH.
Qed.

Lemma add_inv (P : ptr) (name : option string) (ty : setting_type)
    (h h' : heap) (r : option ptr) :
  config_setting_add (Some P) name ty h = Done r h' ->
  exists x,
    h !! P = Some x
    /\ ((r = None /\ h' = h)
        \/ (r = Some (length h)
            /\ is_aggregate_type (st_type x) = true
            /\ h' = <[P := add_elem x (length h)]> h
                    ++ [new_setting
                          (if is_group_type (st_type x) then name else None)
                          ty CONFIG_FORMAT_DEFAULT (initial_value ty) P])).
Proof.
  unfold config_setting_add. intros H.
  apply bind_inv in H as (x & h1 & Hl & H).
  apply load_inv in Hl as [-> (a & [= <-] & Hx)].
  exists x. split; [exact Hx|].
  assert (HP : P < length h) by (eapply lookup_lt_Some; eauto).
  destruct (st_type x) eqn:Hty;
    try (injection H as <- <-; left; now split).
  - destruct name as [n|].
    + destruct (get_member h (elements_of x) n);
        [injection H as <- <-; left; now split|].
      rewrite create_spec in H by exact HP. injection H as <- <-.
      right. now repeat split.
    + rewrite create_spec in H by exact HP. injection H as <- <-.
      right. now repeat split.
  - destruct (array_accepts h (elements_of x) ty);
      [|injection H as <- <-; left; now split].
    rewrite create_spec in H by exact HP. injection H as <- <-.
    right. now repeat split.
  - rewrite create_spec in H by exact HP. injection H as <- <-.
    right. now repeat split.
Qed.

Lemma read_inv {A : Type} (f : config_setting_t -> A) (p : option ptr)
    (h h' : heap) (a : A) :
  (x <- load p ;; ret (f x)) h = Done a h' ->
  h' = h /\ exists e s, p = Some e /\ h !! e = Some s /\ a = f s.
Proof.
  intros H. apply bind_inv in H as (s & h1 & Hl & H).
  apply load_inv in Hl as [-> (e & -> & Hs)].
  injection H as <- <-. split; [reflexivity|]. now exists e, s.
Qed.

Ltac frames_next :=
  first
    [ apply frames_out_of_fuel
    | apply frames_read
    | apply frames_load
    | apply frames_ret; exact I
    | apply frames_set_value; assumption
    | apply frames_set_format; assumption
    | apply frames_add; assumption
    | apply frames_append; assumption
    | eapply frames_bind; [|intros ? ?] ].

Lemma copy_elements_frames (L fuel : nat) (r src : option ptr) :
  frames L r (fun _ => True) (copy_elements fuel r src).
Proof.
  unfold copy_elements, config_setting_length, config_setting_is_group,
    config_setting_get_elem.
  eapply frames_bind; [apply frames_read|intros n _].
  apply frames_for_loop. intros j.
  eapply frames_bind; [apply frames_read|intros grp _].
  eapply frames_bind; [apply frames_read|intros e _].
  destruct (copy_frames L r fuel r e ltac:(now left)) as (Hs & He & _).
  now destruct grp.
Qed.

Lemma copy_elements_keeps (fuel : nat) (r src : option ptr) :
  keeps (copy_elements fuel r src).
Proof.
  unfold copy_elements, config_setting_length, config_setting_is_group,
    config_setting_get_elem.
  apply keeps_bind; [repeat keeps_step|intros n].
  apply keeps_for_loop. intros j.
  do 2 (apply keeps_bind; [repeat keeps_step|intros ?]).
  match goal with |- keeps (if ?g then _ else _) => destruct g end;
    apply copy_keeps.
Qed.

(** A returning copy into [P] by name first adds a setting with the name
    and type of the source to [P] and from then on writes only through the
    setting added and those allocated later. *)
Lemma copy_simple_shape (fuel : nat) (P e : ptr) (h h' : heap) :
  (config_setting_copy_simple fuel (Some P) (Some e) h = Done tt h'
   \/ config_setting_copy_aggregate fuel (Some P) (Some e) h = Done tt h') ->
  exists se r ha,
    h !! e = Some se
    /\ config_setting_add (Some P) (st_name se) (st_type se) h = Done r ha
    /\ frame_ok (length ha) r ha h' /\ stable ha h'.
Proof.
  revert h h'. induction fuel as [|fuel IH]; intros h h' [H|H];
    try discriminate H.
  - cbn [config_setting_copy_simple] in H.
    apply bind_inv in H as (agg & h1 & Ha & H).
    apply read_inv in Ha as [-> (e' & se & [= <-] & Hs & ->)].
    destruct (is_aggregate_type (st_type se)) eqn:Hagg;
      [apply IH; now right|].
    revert H.
    unfold config_setting_name, config_setting_type. run_accessors Hs.
    intros H. apply bind_inv in H as (set & ha & Hadd & H).
    exists se, set, ha. split; [exact Hs|]. split; [exact Hadd|].
    assert (Hf : frames (length ha) set (fun _ => True)
                   (match st_type se with
        | CONFIG_TYPE_INT =>
            v <- config_setting_get_int (Some e) ;;
            config_setting_set_int set v ;;;
            s <- load (Some e) ;;
            config_setting_set_format set (st_format s) ;;; ret tt
        | CONFIG_TYPE_INT64 =>
            v <- config_setting_get_int64 (Some e) ;;
            config_setting_set_int64 set v ;;;
            s <- load (Some e) ;;
            config_setting_set_format set (st_format s) ;;; ret tt
        | CONFIG_TYPE_FLOAT =>
            v <- config_setting_get_float (Some e) ;;
            config_setting_set_float set v ;;; ret tt
        | CONFIG_TYPE_STRING =>
            v <- config_setting_get_string (Some e) ;;
            config_setting_set_string set v ;;; ret tt
        | CONFIG_TYPE_BOOL =>
            v <- config_setting_get_bool (Some e) ;;
            config_setting_set_bool set v ;;; ret tt
        | _ => ret tt
        end)).
    { assert (Hw : writable (length ha) set set) by now left.
      unfold config_setting_get_int,
        config_setting_get_int64, config_setting_get_float,
        config_setting_get_string, config_setting_get_bool,
        config_setting_set_int, config_setting_set_int64,
        config_setting_set_float, config_setting_set_string,
        config_setting_set_bool.
      destruct (st_type se); repeat frames_next. }
    assert (Hk : keeps
                   (match st_type se with
        | CONFIG_TYPE_INT =>
            v <- config_setting_get_int (Some e) ;;
            config_setting_set_int set v ;;;
            s <- load (Some e) ;;
            config_setting_set_format set (st_format s) ;;; ret tt
        | CONFIG_TYPE_INT64 =>
            v <- config_setting_get_int64 (Some e) ;;
            config_setting_set_int64 set v ;;;
            s <- load (Some e) ;;
            config_setting_set_format set (st_format s) ;;; ret tt
        | CONFIG_TYPE_FLOAT =>
            v <- config_setting_get_float (Some e) ;;
            config_setting_set_float set v ;;; ret tt
        | CONFIG_TYPE_STRING =>
            v <- config_setting_get_string (Some e) ;;
            config_setting_set_string set v ;;; ret tt
        | CONFIG_TYPE_BOOL =>
            v <- config_setting_get_bool (Some e) ;;
            config_setting_set_bool set v ;;; ret tt
        | _ => ret tt
        end)).
    { unfold config_setting_get_int,
        config_setting_get_int64, config_setting_get_float,
        config_setting_get_string, config_setting_get_bool,
        config_setting_set_int, config_setting_set_int64,
        config_setting_set_float, config_setting_set_string,
        config_setting_set_bool.
      destruct (st_type se); repeat keeps_step. }
    split.
    + now apply (Hf ha tt h' (le_n _)).
    + now apply (Hk ha tt h').
  - cbn [config_setting_copy_aggregate] in H.
    apply bind_inv in H as (name & h1 & Hn & H).
    apply read_inv in Hn as [-> (e' & se & [= <-] & Hs & ->)].
    revert H. unfold config_setting_type. run_accessors Hs. intros H.
    apply bind_inv in H as (newAgg & ha & Hadd & H).
    exists se, newAgg, ha. split; [exact Hs|]. split; [exact Hadd|].
    fold (copy_elements fuel newAgg (Some e)) in H. split.
    + now apply (copy_elements_frames (length ha) fuel newAgg (Some e)
                   ha tt h' (le_n _)).
    + now apply (copy_elements_keeps fuel newAgg (Some e) ha tt h').
Qed.

Lemma elements_add_elem (x : config_setting_t) (a : ptr) :
  is_aggregate_type (st_type x) = true ->
  elements_of (add_elem x a) = elements_of x ++ [a].
Proof.
  intros H. unfold elements_of at 1. cbn [add_elem st_type st_value].
  now rewrite H.
Qed.

Lemma for_loop_S (body : nat -> M unit) (k i : nat) :
  for_loop (S k) i body = (body i ;;; for_loop k (S i) body).
Proof. reflexivity. Qed.

Lemma for_loop_snoc (body : nat -> M unit) (k i : nat) (h : heap) :
  for_loop (S k) i body h
  = (for_loop k i body ;;; body (i + k)) h.
Proof.
  revert i h. induction k as [|k IH]; intros i h.
  - cbn [for_loop]. rewrite Nat.add_0_r. unfold bind, ret.
    now destruct (body i h) as [[] ?| |].
  - rewrite (for_loop_S body (S k) i), (for_loop_S body k i).
    unfold bind. destruct (body i h) as [[] h1| |]; [|reflexivity..].
    rewrite IH. unfold bind. now rewrite Nat.add_succ_comm.
Qed.

Lemma self_free_accepts (h : heap) (s : config_setting_t) :
  is_group_type (st_type s) || is_list_type (st_type s) = true ->
  self_free h s -> accepts h s (st_name s) (st_type s) = true.
Proof.
  intros Hty Hsf. unfold accepts. unfold self_free in Hsf.
  destruct (st_type s); try discriminate Hty; [|reflexivity].
  destruct (st_name s) as [nm|]; [|reflexivity].
  apply bool_decide_eq_true. now apply get_member_none.
Qed.

Section SelfCopy.

Variable fuel : nat.
Variable h : heap.
Variable q : ptr.
Variable sq : config_setting_t.

Hypothesis source : h !! q = Some sq.
Hypothesis kind :
  is_group_type (st_type sq) || is_list_type (st_type sq) = true.

Local Abbreviation L := (length h).

Local Abbreviation self_copy_inv := (self_copy_inv h q sq).
Local Abbreviation self_copy_body := (self_copy_body fuel h q).

Lemma source_aggregate : is_aggregate_type (st_type sq) = true.
Proof. destruct (st_type sq); (discriminate kind || reflexivity). Qed.

Lemma source_allocated : q < L.
Proof. eapply lookup_lt_Some; eauto. Qed.

Lemma self_free_same (h1 h2 : heap) (s1 s2 : config_setting_t) :
  st_type s1 = st_type s2 -> st_name s1 = st_name s2 ->
  (forall nm, st_type s1 = CONFIG_TYPE_GROUP -> st_name s1 = Some nm ->
              forall c, c ∈ elements_of s2 ->
                        exists sc, h2 !! c = Some sc /\ st_name sc <> Some nm) ->
  self_free h2 s2.
Proof.
  intros Ht Hn H. unfold self_free. rewrite <- Ht, <- Hn.
  destruct (st_type s1) eqn:E; try exact I.
  destruct (st_name s1) as [nm|] eqn:En; [|exact I].
  now apply H.
Qed.

Lemma self_copy_step (i : nat) (hi hj : heap) :
  self_copy_inv hi -> i < length (elements_of sq) ->
  self_copy_body i hi = Done tt hj -> self_copy_inv hj.
Proof.
  intros (Hq & Hfq & sL & HL & HtL & HnL & HfL) Hi H.
  pose proof source_aggregate as Hagg. pose proof source_allocated as HqL.
  assert (HLi : L < length hi) by (eapply lookup_lt_Some; eauto).
  unfold self_copy_body, config_setting_is_group, config_setting_get_elem in H.
  revert H. run_accessors Hq. cbn [add_elem st_type].
  rewrite (elements_add_elem sq L Hagg).
  rewrite lookup_app_l by exact Hi.
  destruct (lookup_lt_is_Some_2 _ _ Hi) as [c Hc]. rewrite Hc.
  assert (Hcin : c ∈ elements_of sq) by (eapply list_elem_of_lookup_2; eauto).
  intros H.
  destruct (st_type sq) eqn:Hty; try discriminate kind;
    cbn [is_group_type] in H, HnL.
  - (* a group *)
    destruct (st_name sq) as [nm|] eqn:Hnm.
    + (* with a name *)
      apply (fun H => copy_simple_shape fuel L c hi hj (or_introl H)) in H.
      destruct H as (se & r & ha & Hse & Hadd & Hfr & Hst).
      assert (Hfq' := Hfq). unfold self_free in Hfq'.
      rewrite Hty, Hnm in Hfq'.
      assert (HtL' : st_type sL = CONFIG_TYPE_GROUP) by congruence.
      assert (HnL' : st_name sL = Some nm)
        by (rewrite HnL, ?Hty; cbn [is_group_type];
            first [reflexivity|exact Hnm]).
      assert (HfL' := HfL). unfold self_free in HfL'.
      rewrite HtL', HnL' in HfL'.
      destruct (Hfq' c Hcin) as (sc & Hsc & Hne).
      rewrite Hse in Hsc. injection Hsc as <-.
      apply add_inv in Hadd as (x & Hx & Hres).
      rewrite HL in Hx. injection Hx as <-.
      destruct Hfr as [Hlen Hfr].
      assert (Hold : forall p sp, hi !! p = Some sp ->
                       st_name sp <> Some nm ->
                       exists sp', hj !! p = Some sp'
                                   /\ st_name sp' <> Some nm).
      { intros p sp Hp Hnp.
        assert (p <> L) by (intros ->; rewrite HL in Hp;
                            injection Hp as <-; congruence).
        assert (Hpa : ha !! p = Some sp).
        { destruct Hres as [[_ ->]|(_ & _ & ->)]; [exact Hp|].
          rewrite lookup_after_create; [exact Hp| |assumption].
          eapply lookup_lt_Some; eauto. }
        destruct (Hst p sp Hpa) as (sp' & Hp' & Hn' & _).
        exists sp'. split; [exact Hp'|congruence]. }
      assert (Hq' : hj !! q = Some (add_elem sq L)).
      { destruct Hres as [[-> ->]|(-> & _ & ->)].
        - rewrite Hfr; [exact Hq|lia|discriminate].
        - rewrite Hfr.
          + rewrite lookup_after_create; [exact Hq|lia|lia].
          + rewrite length_app, length_insert. lia.
          + intros [= E]. lia. }
      split; [exact Hq'|]. split.
      { apply (self_free_same hi hj sq sq eq_refl eq_refl).
        intros nm' _ Hnm' c' Hc'. rewrite Hnm in Hnm'. injection Hnm' as <-.
        destruct (Hfq' c' Hc') as (sc' & Hsc' & Hne').
        eapply Hold; eauto. }
      destruct Hres as [[-> ->]|(-> & _ & ->)].
      * exists sL. split; [rewrite Hfr; [exact HL|lia|discriminate]|].
        split; [cbn [add_elem st_type]; congruence|].
        split; [cbn [add_elem st_name]; rewrite ?Hty; cbn [is_group_type];
                congruence|].
        apply (self_free_same hi hj sL sL eq_refl eq_refl).
        intros nm' _ Hnm' c' Hc'. rewrite HnL' in Hnm'.
        injection Hnm' as <-.
        destruct (HfL' c' Hc') as (sc' & Hsc' & Hne').
        eapply Hold; eauto.
      * exists (add_elem sL (length hi)).
        assert (HaggL : is_aggregate_type (st_type sL) = true)
          by now rewrite HtL'.
        split.
        { rewrite Hfr.
          - rewrite lookup_app_l by (rewrite length_insert; lia).
            now apply list_lookup_insert_eq.
          - rewrite length_app, length_insert. lia.
          - intros [= E]. lia. }
        split; [cbn [add_elem st_type]; congruence|].
        split; [cbn [add_elem st_name]; rewrite ?Hty; cbn [is_group_type];
                congruence|].
        apply (self_free_same hi hj sL (add_elem sL (length hi))
                 eq_refl eq_refl).
        intros nm' _ Hnm' c' Hc'. rewrite HnL' in Hnm'.
        injection Hnm' as <-.
        rewrite (elements_add_elem sL _ HaggL) in Hc'.
        apply elem_of_app in Hc' as [Hc'|Hc'].
        -- destruct (HfL' c' Hc') as (sc' & Hsc' & Hne').
           eapply Hold; eauto.
        -- apply list_elem_of_singleton in Hc' as ->.
           set (new := new_setting _ _ _ _ _) in *.
           assert (Hnew : (<[L := add_elem sL (length hi)]> hi ++ [new])
                          !! length hi = Some new).
           { rewrite lookup_app_r by (rewrite length_insert; lia).
             rewrite length_insert, Nat.sub_diag. reflexivity. }
           destruct (Hst _ _ Hnew) as (sp' & Hp' & Hn' & _).
           exists sp'. split; [exact Hp'|]. rewrite Hn'.
           subst new. cbn [new_setting st_name]. rewrite HtL'.
           cbn [is_group_type]. exact Hne.
    + (* without a name *)
      destruct (copy_frames (length hi) (Some L) fuel (Some L) (Some c)
                  ltac:(now left)) as (Hs & _ & _).
      destruct (Hs hi tt hj (le_n _) H) as [[Hlen Hfr] _].
      destruct (copy_keeps fuel (Some L) (Some c)) as (Hk & _ & _).
      specialize (Hk hi tt hj H).
      split; [rewrite Hfr; [exact Hq|lia|intros [= E]; lia]|].
      split; [unfold self_free; now rewrite Hty, Hnm|].
      destruct (Hk L sL HL) as (sL' & HL' & Hn' & Ht').
      exists sL'. split; [exact HL'|]. split; [congruence|].
      split; [rewrite ?Hty; cbn [is_group_type]; congruence|].
      unfold self_free. rewrite Ht', Hn', HtL, HnL, ?Hty.
      cbn [is_group_type]. now rewrite ?Hnm.
  - (* a list *)
    destruct (copy_frames (length hi) (Some L) fuel (Some L) (Some c)
                ltac:(now left)) as (_ & He & _).
    destruct (He hi tt hj (le_n _) H) as [[Hlen Hfr] _].
    destruct (copy_keeps fuel (Some L) (Some c)) as (_ & Hk & _).
    specialize (Hk hi tt hj H).
    split; [rewrite Hfr; [exact Hq|lia|intros [= E]; lia]|].
    split; [unfold self_free; now rewrite Hty|].
    destruct (Hk L sL HL) as (sL' & HL' & Hn' & Ht').
    exists sL'. split; [exact HL'|]. split; [congruence|].
    split; [rewrite ?Hty; cbn [is_group_type]; congruence|].
    unfold self_free. now rewrite Ht', HtL, ?Hty.
Qed.

Lemma self_copy_loop (k i : nat) (hi hk : heap) :
  self_copy_inv hi -> i + k <= length (elements_of sq) ->
  for_loop k i self_copy_body hi = Done tt hk -> self_copy_inv hk.
Proof.
  revert i hi. induction k as [|k IH]; intros i hi Hinv Hik H.
  - injection H as <-. exact Hinv.
  - cbn [for_loop] in H. apply bind_inv in H as ([] & hj & Hb & H).
    apply (IH (S i) hj); [|lia|exact H].
    eapply self_copy_step; eauto. lia.
Qed.

End SelfCopy.

Lemma self_copy_start (h : heap) (q : ptr) (sq : config_setting_t) :
  h !! q = Some sq ->
  is_group_type (st_type sq) || is_list_type (st_type sq) = true ->
  self_free h sq ->
  self_copy_inv h q sq
    (<[q := add_elem sq (length h)]> h
     ++ [new_setting (if positional sq then None else st_name sq)
           (st_type sq) CONFIG_FORMAT_DEFAULT (initial_value (st_type sq))
           q]).
Proof.
  intros Hs Hk Hsf.
  assert (Hq : q < length h) by (eapply lookup_lt_Some; eauto).
  set (new := new_setting _ _ _ _ _).
  split; [|split].
  - rewrite lookup_app_l by (rewrite length_insert; exact Hq).
    now apply list_lookup_insert_eq.
  - apply (self_free_same h _ sq sq eq_refl eq_refl).
    intros nm Hty Hnm c Hc. unfold self_free in Hsf.
    rewrite Hty, Hnm in Hsf. destruct (Hsf c Hc) as (sc & Hsc & Hne).
    exists sc. split; [|exact Hne].
    rewrite lookup_after_create; [exact Hsc|eapply lookup_lt_Some; eauto|].
    intros ->. rewrite Hs in Hsc. injection Hsc as <-. congruence.
  - exists new. split.
    + rewrite lookup_app_r by (rewrite length_insert; lia).
      now rewrite length_insert, Nat.sub_diag.
    + split; [reflexivity|]. split.
      * subst new. cbn [new_setting st_name]. unfold positional.
        now destruct (is_group_type (st_type sq)).
      * unfold self_free, elements_of. subst new.
        cbn [new_setting st_type st_value st_name].
        destruct (st_type sq); try discriminate Hk; cbn; [|exact I].
        destruct (if positional sq then None else st_name sq); [|exact I].
        intros c Hc. now apply elem_of_nil in Hc.
Qed.

(** Copying a group or a list into itself: the copy becomes the last
    element of the source before the elements are counted, so that the
    loop ends with the copy of the copy into itself, one call deeper. *)
Lemma self_copy_diverges_general (fuel : nat) :
  forall (h : heap) (q : ptr) (sq : config_setting_t),
    h !! q = Some sq ->
    is_group_type (st_type sq) || is_list_type (st_type sq) = true ->
    self_free h sq ->
    forall h',
      config_setting_copy_aggregate fuel (Some q) (Some q) h <> Done tt h'
      /\ config_setting_copy_simple fuel (Some q) (Some q) h <> Done tt h'
      /\ config_setting_copy_elem fuel (Some q) (Some q) h <> Done tt h'.
Proof.
  induction fuel as [|fuel IH]; intros h q sq Hs Hk Hsf h';
    [repeat split; discriminate|].
  assert (Hagg : is_aggregate_type (st_type sq) = true)
    by (destruct (st_type sq); (discriminate Hk || reflexivity)).
  destruct (IH h q sq Hs Hk Hsf h') as (IHa & _ & _).
  split; [|split].
  - intros H. cbn [config_setting_copy_aggregate] in H. revert H.
    unfold config_setting_name, config_setting_type, config_setting_length.
    run_accessors Hs.
    rewrite (bind_done _ _ _ _ _
               (add_spec _ _ _ _ _ Hs (self_free_accepts h sq Hk Hsf))).
    pose proof (self_copy_start h q sq Hs Hk Hsf) as Hinv.
    set (h1 := _ ++ _) in *.
    destruct Hinv as (Hq1 & Hinv).
    rewrite (bind_done _ _ _ _ _ (load_ret _ _ _ _ Hq1)).
    rewrite (elements_add_elem sq _ Hagg), length_app. cbn [length].
    rewrite Nat.add_1_r.
    change (for_loop (S (length (elements_of sq))) 0 _ h1)
      with (for_loop (S (length (elements_of sq))) 0
              (self_copy_body fuel h q) h1).
    rewrite for_loop_snoc. intros H.
    apply bind_inv in H as ([] & h2 & Hloop & H).
    apply (self_copy_loop fuel h q sq Hs Hk) in Hloop;
      [|now split|cbn; lia].
    destruct Hloop as (Hq2 & _ & sL & HL & HtL & HnL & HfL).
    revert H. cbn [Nat.add].
    unfold self_copy_body, config_setting_is_group, config_setting_get_elem.
    run_accessors Hq2. rewrite (elements_add_elem sq _ Hagg).
    rewrite lookup_app_r by lia. rewrite Nat.sub_diag. cbn [lookup list_lookup].
    assert (HkL : is_group_type (st_type sL) || is_list_type (st_type sL)
                  = true) by now rewrite HtL.
    destruct (IH h2 (length h) sL HL HkL HfL h') as (_ & IHs & IHe).
    now destruct (is_group_type (st_type (add_elem sq (length h)))).
  - cbn [config_setting_copy_simple].
    unfold config_setting_is_aggregate. run_accessors Hs.
    now rewrite Hagg.
  - cbn [config_setting_copy_elem].
    unfold config_setting_is_aggregate. run_accessors Hs.
    now rewrite Hagg.
Qed.

Lemma accepts_self_free (h : heap) (s : config_setting_t) :
  accepts h s (st_name s) (st_type s) = true ->
  Forall (fun c => c < length h) (elements_of s) ->
  self_free h s.
Proof.
  intros Hacc Hall. unfold self_free. unfold accepts in Hacc.
  destruct (st_type s); try exact I.
  destruct (st_name s) as [nm|]; [|exact I].
  apply bool_decide_eq_true in Hacc. unfold get_member in Hacc.
  intros c Hc.
  rewrite Forall_forall in Hall. 
  destruct (lookup_lt_is_Some_2 h c) as [sc Hsc].
  { apply Hall. now apply list_elem_of_In. }
  exists sc. split; [exact Hsc|].
  pose proof (find_none _ _ Hacc c ltac:(now apply list_elem_of_In)) as Hf.
  cbn beta in Hf. rewrite Hsc in Hf.
  now apply bool_decide_eq_false in Hf.
Qed.


(** * The claims about the numeric literal codec *)

Local Open Scope string_scope.
Local Open Scope Z_scope.

(** C5 (amended).  In the MinGW build a text that does not begin with [0x]
    or [0X] yields 0.  In both builds a text with the prefix yields the
    value of the hexadecimal digits that follow it, up to the first
    character that is not one (when that value fits 64 bits) and so
    ["0x1F"] yields 31.  In the default build the function is
    [strtoull(s, NULL, 16)], for which the prefix is optional, and ["1F"]
    yields 31 as well. *)
Theorem parse_hex64_prefix_contract (mingw : bool) (s : string) :
  (mingw = true -> has_hex_prefix s = false ->
   libconfig_parse_hex64 mingw s = 0)
  /\ (has_hex_prefix s = true ->
      exact_value 16 (advance (advance s)) < two64 ->
      libconfig_parse_hex64 mingw s = exact_value 16 (advance (advance s)))
  /\ libconfig_parse_hex64 mingw "0x1F" = 31
  /\ libconfig_parse_hex64 false "1F" = 31.
Proof.
  repeat split.
  - intros -> H. now apply parse_hex64_mingw_noprefix.
  - intros Hp Hv.
    destruct s as [|z [|x body]]; try discriminate Hp.
    unfold has_hex_prefix, has_prefix in Hp. cbn [advance] in *.
    apply andb_true_iff in Hp as [Hz Hx].
    assert (z = "0"%char) as ->
      by (revert Hz; clear; all_ascii z; discriminate).
    assert (Hx' : x = "x"%char \/ x = "X"%char)
      by (revert Hx; clear; all_ascii x; (discriminate || tauto)).
    pose proof (exact_value_nonneg 16 body) as Hnn.
    destruct mingw.
    + rewrite parse_hex64_mingw_prefixed by assumption.
      apply wrap64_small. lia.
    + rewrite parse_hex64_posix_prefixed by assumption.
      unfold clamp_u64. destruct (Z.leb_spec two64 (exact_value 16 body)); lia.
  - destruct mingw; reflexivity.
Qed.

Lemma parse_hex64_prefix_contract_witness :
  libconfig_parse_hex64 true "1F" = 0
  /\ libconfig_parse_hex64 false "0x1Fg" = 31.
Proof.
  split.
  - apply (proj1 (parse_hex64_prefix_contract true "1F")); reflexivity.
  - apply (proj1 (proj2 (parse_hex64_prefix_contract false "0x1Fg")));
      reflexivity.
Defined.

(** C5 as stated fails in the default build: ["1F"] has no prefix and the
    result is not 0. *)
Lemma parse_hex64_noprefix_counterexample :
  ~ (has_hex_prefix "1F" = false -> libconfig_parse_hex64 false "1F" = 0).
Proof. intros H. specialize (H eq_refl). discriminate H. Qed.

(** C6 (amended).  In the MinGW build a text that does not begin with [0b]
    or [0B] yields 0.  In both builds a text with the prefix followed by at
    least one binary digit yields the value of the binary digits up to the
    first other character (when it fits 64 bits), so ["0b101"] yields 5;
    in the MinGW build this also holds when no digit follows the prefix.
    In the default build the first two bytes are skipped without being
    looked at. *)
Theorem parse_bin64_prefix_contract (mingw : bool) (s : string) :
  (mingw = true -> has_bin_prefix s = false ->
   libconfig_parse_bin64 mingw s = Some 0)
  /\ (has_bin_prefix s = true ->
      mingw = true \/ leading_digits 2 (advance (advance s)) <> [] ->
      exact_value 2 (advance (advance s)) < two64 ->
      libconfig_parse_bin64 mingw s
      = Some (exact_value 2 (advance (advance s))))
  /\ libconfig_parse_bin64 mingw "0b101" = Some 5
  /\ (forall a b body,
        s = String a (String b body) ->
        leading_digits 2 body <> [] -> exact_value 2 body < two64 ->
        libconfig_parse_bin64 false s = Some (exact_value 2 body)).
Proof.
  repeat split.
  - intros -> H. now apply parse_bin64_mingw_noprefix.
  - intros Hp Hd Hv.
    destruct s as [|z [|x body]]; try discriminate Hp.
    unfold has_bin_prefix, has_prefix in Hp. cbn [advance] in *.
    apply andb_true_iff in Hp as [Hz Hx].
    assert (z = "0"%char) as ->
      by (revert Hz; clear; all_ascii z; discriminate).
    assert (Hx' : x = "b"%char \/ x = "B"%char)
      by (revert Hx; clear; all_ascii x; (discriminate || tauto)).
    pose proof (exact_value_nonneg 2 body) as Hnn.
    destruct mingw.
    + rewrite parse_bin64_mingw_prefixed by assumption.
      f_equal. apply wrap64_small. lia.
    + destruct Hd as [Hd|Hd]; [discriminate|].
      rewrite parse_bin64_posix_digits by assumption.
      unfold clamp_u64. destruct (Z.leb_spec two64 (exact_value 2 body)); [lia|reflexivity].
  - destruct mingw; reflexivity.
  - intros a b body -> Hd Hv.
    pose proof (exact_value_nonneg 2 body) as Hnn.
    rewrite parse_bin64_posix_digits by assumption.
    unfold clamp_u64. destruct (Z.leb_spec two64 (exact_value 2 body)); [lia|reflexivity].
Qed.

Lemma parse_bin64_prefix_contract_witness :
  libconfig_parse_bin64 true "101" = Some 0
  /\ libconfig_parse_bin64 false "0b1012" = Some 5
  /\ libconfig_parse_bin64 false "zz11" = Some 3.
Proof.
  split; [|split].
  - apply (proj1 (parse_bin64_prefix_contract true "101")); reflexivity.
  - apply (proj1 (proj2 (parse_bin64_prefix_contract false "0b1012")));
      [reflexivity|right; discriminate|reflexivity].
  - apply (proj2 (proj2 (proj2 (parse_bin64_prefix_contract false "zz11")))
             "z"%char "z"%char "11");
      [reflexivity|discriminate|reflexivity].
Defined.

(** C6 as stated fails in the default build: ["10101"] has no prefix and
    the result is 5. *)
Lemma parse_bin64_noprefix_counterexample :
  ~ (has_bin_prefix "10101" = false ->
     libconfig_parse_bin64 false "10101" = Some 0).
Proof. intros H. specialize (H eq_refl). discriminate H. Qed.

(** C7 (amended).  Both functions return a value only and never look at
    [errno].  In the MinGW build the result is the exact value of the
    consumed digits reduced modulo [2^64], and nothing tells of the
    overflow: [errno] is as it was.  In the default build [strtoull] does
    the conversion, and a digit sequence beyond the unsigned 64-bit range
    yields [2^64 - 1], not the value modulo [2^64], with [errno] left at
    [ERANGE]. *)
Theorem parse64_overflow (x b : ascii) (body : string) :
  x = "x"%char \/ x = "X"%char ->
  b = "b"%char \/ b = "B"%char ->
  libconfig_parse_hex64 true (String "0" (String x body))
  = wrap64 (exact_value 16 body)
  /\ libconfig_parse_bin64 true (String "0" (String b body))
     = Some (wrap64 (exact_value 2 body))
  /\ (two64 <= exact_value 16 body ->
      libconfig_parse_hex64 false (String "0" (String x body)) = two64 - 1)
  /\ (two64 <= exact_value 2 body ->
      libconfig_parse_bin64 false (String "0" (String b body))
      = Some (two64 - 1))
  /\ (forall errno,
        libconfig_parse_hex64_errno true (String "0" (String x body)) errno
        = errno)
  /\ (forall errno,
        libconfig_parse_bin64_errno true (String "0" (String b body)) errno
        = Some errno)
  /\ (forall errno,
        libconfig_parse_hex64_errno false (String "0" (String x body)) errno
        = if two64 <=? exact_value 16 body then Libc.ERANGE else errno)
  /\ (two64 <= exact_value 2 body ->
      forall errno,
        libconfig_parse_bin64_errno false (String "0" (String b body)) errno
        = Some Libc.ERANGE).
Proof.
  intros Hx Hb.
  split; [now apply parse_hex64_mingw_prefixed|].
  split; [now apply parse_bin64_mingw_prefixed|].
  split.
  { intros Hov. rewrite parse_hex64_posix_prefixed by assumption.
    unfold clamp_u64.
    destruct (Z.leb_spec two64 (exact_value 16 body)); [reflexivity|lia]. }
  split.
  { intros Hov. rewrite parse_bin64_posix_digits.
    + unfold clamp_u64.
      destruct (Z.leb_spec two64 (exact_value 2 body)); [reflexivity|lia].
    + intros E. unfold exact_value in Hov. rewrite E in Hov.
      cbn in Hov. unfold two64 in Hov. lia. }
  split; [reflexivity|]. split; [reflexivity|]. split.
  - intros errno. unfold libconfig_parse_hex64_errno, Libc.errno_after.
    now rewrite erange_hex_prefixed.
  - intros Hov errno. unfold libconfig_parse_bin64_errno, Libc.errno_after.
    now rewrite erange_bin_overflow.
Qed.

Lemma parse64_overflow_witness :
  libconfig_parse_hex64 true "0x1FFFFFFFFFFFFFFFF2" = wrap64 (2 ^ 68 - 14)
  /\ libconfig_parse_hex64 false "0x1FFFFFFFFFFFFFFFF2" = two64 - 1.
Proof.
  pose proof (parse64_overflow "x" "b" "1FFFFFFFFFFFFFFFF2"
                (or_introl eq_refl) (or_introl eq_refl)) as (H1 & _ & H3 & _).
  split.
  - exact H1.
  - apply H3. vm_compute. discriminate.
Defined.

(** C7 as stated fails in the default build: seventeen hexadecimal digits
    of exact value [2^64] give [2^64 - 1], while the value modulo [2^64]
    is 0. *)
Lemma parse_hex64_overflow_counterexample :
  two64 <= exact_value 16 "10000000000000000"
  /\ libconfig_parse_hex64 false "0x10000000000000000"
     <> wrap64 (exact_value 16 "10000000000000000").
Proof. split; vm_compute; discriminate. Qed.

(** C4.  [libconfig_parse_integer] agrees on every text with the parser the
    specification describes: after the white space and sign that
    [strtoll] accepts, a leading [0x]/[0X] selects base 16, a leading [0]
    base 8, anything else base 10; [ok] is true exactly when the whole text
    was consumed and no range error occurred, and the value is 0 whenever
    [ok] is false.  ["08"] is read in base 8, stops at the [8] and fails. *)
Theorem parse_integer_contract (s : string) :
  libconfig_parse_integer s = spec_parse_integer s
  /\ (snd (libconfig_parse_integer s) = true <->
      at_end (Libc.endptr (Libc.strtoll s 0)) = true
      /\ Libc.erange (Libc.strtoll s 0) = false)
  /\ fst (libconfig_parse_integer s)
     = (if snd (libconfig_parse_integer s)
        then Libc.result (Libc.strtoll s 0) else 0)
  /\ libconfig_parse_integer "08" = (0, false)
  /\ detect_base "08" = 8
  /\ drop_digits (detect_base "08") (literal_digits "08") = "8".
Proof.
  split; [apply parse_integer_refines|].
  unfold libconfig_parse_integer, at_end.
  destruct (code (deref (Libc.endptr (Libc.strtoll s 0))) =? 0);
    destruct (Libc.erange (Libc.strtoll s 0)); cbn;
    repeat split; intros; try tauto; try discriminate;
    try (exfalso; intuition discriminate).
Qed.

Lemma parse_integer_contract_witness :
  snd (libconfig_parse_integer "0x1A") = true
  /\ libconfig_parse_integer "0x1A" = (26, true).
Proof.
  split.
  - apply (proj1 (proj2 (parse_integer_contract "0x1A"))).
    split; reflexivity.
  - rewrite (proj1 (parse_integer_contract "0x1A")). reflexivity.
Defined.

(** [libconfig_format_bin] where [clzl] counts over 64 bits, that is with
    the [clzl] of [util.c] itself or with [__builtin_clzl] on a 64-bit
    [unsigned long].  For a nonzero [int64_t] value and a buffer of at
    least two bytes it leaves in the buffer the first [buflen - 1]
    characters of the binary numeral of the two's complement pattern of the
    value, most significant bit first.  That numeral starts with ['1'] and
    its value is the pattern; a buffer of more than 64 bytes holds all of
    it, and 5 gives ["101"]. *)
Theorem format_bin_contract (b : build) (fuel : nat) (val buflen : Z) :
  gnuc b = false \/ ulong_bits b = 64 ->
  val <> 0 -> - two63 <= val < two63 ->
  2 <= buflen < two64 -> (64 <= fuel)%nat ->
  libconfig_format_bin b fuel val buflen
  = Some (string_take (Z.to_nat (buflen - 1)) (minimal_binary (wrap64 val)))
  /\ deref (minimal_binary (wrap64 val)) = "1"%char
  /\ exact_value 2 (minimal_binary (wrap64 val)) = wrap64 val
  /\ (64 < buflen ->
      libconfig_format_bin b fuel val buflen
      = Some (minimal_binary (wrap64 val)))
  /\ (val = 5 -> 4 <= buflen ->
      libconfig_format_bin b fuel val buflen = Some "101").
Proof.
  intros Hb Hnz Hv Hlen Hf.
  destruct (wrap64_log2 val Hnz Hv) as [Hu Hl].
  assert (E : libconfig_format_bin b fuel val buflen
              = Some (string_take (Z.to_nat (buflen - 1))
                        (minimal_binary (wrap64 val)))).
  { rewrite format_bin_spec by assumption.
    rewrite (wrap64_small (buflen - 1)) by lia. reflexivity. }
  repeat split.
  - exact E.
  - now apply minimal_binary_head.
  - now apply minimal_binary_value.
  - intros Hbig. rewrite E. f_equal.
    apply string_take_minimal_binary; (assumption || lia).
  - intros -> Hbig. rewrite E. f_equal.
    change (minimal_binary (wrap64 5)) with "101".
    apply string_take_all. cbn. lia.
Qed.

Lemma format_bin_contract_witness :
  libconfig_format_bin lp64_gcc 64 5 3 = Some "10"
  /\ libconfig_format_bin portable 64 (-1) 80
     = Some (minimal_binary (two64 - 1)).
Proof.
  split.
  - apply (proj1 (format_bin_contract lp64_gcc 64 5 3
                    (or_intror eq_refl) ltac:(discriminate)
                    ltac:(split; [discriminate|reflexivity])
                    ltac:(split; [discriminate|reflexivity])
                    (le_n 64))).
  - apply (proj1 (proj2 (proj2 (proj2
             (format_bin_contract portable 64 (-1) 80
                (or_introl eq_refl) ltac:(discriminate)
                ltac:(split; [discriminate|reflexivity])
                ltac:(split; [discriminate|reflexivity])
                (le_n 64)))))).
    reflexivity.
Defined.

(** C9.  The binary text of a nonzero value is not its numeral without
    leading zeros in every build.  [clzl] is [__builtin_clzl] under GCC,
    whose argument is an [unsigned long]: where that type has 32 bits the
    count for 5 is 29 instead of 61, the loop emits the bits 34 to 0, and
    the text is 32 zeros followed by [101].  The [clzl] written out in
    [util.c] for other compilers counts over the 64 bits of the value, as
    does the builtin on a 64-bit [unsigned long], and both give ["101"]. *)
Theorem format_bin_clzl_width (fuel : nat) :
  clzl ilp32_gcc fuel 5 = Some 29
  /\ libconfig_format_bin ilp32_gcc fuel 5 65
     = Some "00000000000000000000000000000000101"
  /\ minimal_binary (wrap64 5) = "101"
  /\ libconfig_format_bin ilp32_gcc fuel 5 65
     <> Some (minimal_binary (wrap64 5))
  /\ clzl portable (64 + fuel) 5 = Some 61
  /\ libconfig_format_bin portable (64 + fuel) 5 65 = Some "101"
  /\ libconfig_format_bin lp64_gcc fuel 5 65 = Some "101".
Proof.
  repeat split; try reflexivity.
  discriminate.
Qed.

(** C8.  With a buffer of at least four bytes, [libconfig_format_double]
    returns the rendered text unchanged when it contains an ['e']; appends
    [".0"] when it contains neither ['e'] nor ['.']; and otherwise removes
    trailing ['0'] characters from the end, leaving the text up to and
    including the character after the first decimal point untouched and
    stopping at the first character that is not ['0'].  The result always
    contains a ['.'] or an ['e'].  With room for the whole rendering, 1.0
    and 100.0 at precision 2 in fixed notation give ["1.0"] and
    ["100.0"]. *)
Theorem format_double_contract (printf_g : Z -> double -> string)
    (val : double) (precision : Z) (sci_ok : bool) (buflen : Z) :
  4 <= buflen ->
  let text :=
    snprintf_double printf_g (wrap64 (buflen - 3)) sci_ok precision val in
  (exists out,
      libconfig_format_double printf_g val precision sci_ok buflen = Some out
      /\ (strchr text "e" <> None -> out = text)
      /\ (strchr text "e" = None -> strchr text "." = None ->
          out = (text ++ ".0")%string)
      /\ (strchr text "e" = None ->
          forall p, strchr text "." = Some p -> stripped text out p)
      /\ (strchr out "." <> None \/ strchr out "e" <> None))
  /\ (8 <= buflen < two64 ->
      libconfig_format_double printf_g double_1 2 false buflen = Some "1.0")
  /\ (10 <= buflen < two64 ->
      libconfig_format_double printf_g double_100 2 false buflen
      = Some "100.0").
Proof.
  intros Hlen text. split; [|split].
  - unfold libconfig_format_double. fold text.
    destruct (Z.ltb_spec buflen 4); [lia|].
    destruct (strchr text "e") as [i|] eqn:He.
    + exists text. repeat split; try congruence. right. congruence.
    + destruct (strchr text ".") as [p|] eqn:Hp.
      * assert (Hs := strip_zeros_spec (String.length text) text p
                        (le_n _) ltac:(apply strchr_bound in Hp; lia)).
        eexists. split; [reflexivity|].
        split; [congruence|]. split; [congruence|]. split.
        -- intros _ p' [= <-]. exact Hs.
        -- left. erewrite stripped_keeps_point; eauto.
      * exists (text ++ ".0")%string. repeat split; try congruence.
        left. rewrite strchr_app, Hp. cbn. discriminate.
  - intros Hb. unfold libconfig_format_double, snprintf_double.
    destruct (Z.ltb_spec buflen 4); [lia|].
    rewrite wrap64_small by lia.
    replace (Libc.printf_f 2 double_1) with "1.00" by (vm_compute; reflexivity).
    rewrite string_take_all by (cbn [String.length]; lia). reflexivity.
  - intros Hb. unfold libconfig_format_double, snprintf_double.
    destruct (Z.ltb_spec buflen 4); [lia|].
    rewrite wrap64_small by lia.
    replace (Libc.printf_f 2 double_100) with "100.00"
      by (vm_compute; reflexivity).
    rewrite string_take_all by (cbn [String.length]; lia). reflexivity.
Qed.

Lemma format_double_contract_witness :
  libconfig_format_double (fun _ _ => "1e+02") double_100 2 false 64
  = Some "100.0"
  /\ libconfig_format_double (fun _ _ => "1e+02") double_100 2 true 64
     = Some "1e+02".
Proof.
  split.
  - apply (proj2 (proj2 (format_double_contract (fun _ _ => "1e+02")
                           double_100 2 false 64 ltac:(discriminate)))).
    split; [discriminate|reflexivity].
  - destruct (proj1 (format_double_contract (fun _ _ => "1e+02")
                       double_100 2 true 64 ltac:(discriminate)))
      as (out & E & Hexp & _).
    rewrite E. f_equal. apply Hexp. discriminate.
Defined.

(** * The claims about the setting copier *)

Local Close Scope string_scope.
Local Close Scope Z_scope.

(** C1 (amended).  For every source subtree that satisfies the invariants
    of the data model and every destination of type group or list that is
    not a setting of the source subtree and accepts its root (a group has
    no element of that name yet), [config_setting_copy] returns true and
    adds, as the last element of the destination, a copy with the same
    type, scalar value, format flag and children in the same order at
    every node, and the same name at every node except that the root of the
    copy has no name when the destination is a list. *)
Theorem copy_creates_clone (n fuel : nat) (h : heap) (dst src : ptr)
    (d : config_setting_t) (t : tree) (ps : list ptr) :
  read n h src = Some (t, ps) ->
  well_formed t = true -> canonical t = true ->
  dst ∉ ps -> h !! dst = Some d ->
  is_group_type (st_type d) || is_list_type (st_type d) = true ->
  accepts h d (t_name t) (t_type t) = true ->
  2 * n <= fuel ->
  exists h',
    config_setting_copy fuel (Some dst) (Some src) h = Done true h'
    /\ h' !! dst = Some (add_elem d (length h))
    /\ read n h' (length h)
       = Some (with_name
                 (if is_group_type (st_type d) then t_name t else None) t,
               seq (length h) (tree_size t)).
Proof.
  intros Hr Hwf Hcan Hdst Hd Hty Hacc Hfuel.
  exists (copied h dst d t). split; [|split].
  - eapply copy_correct; eauto.
  - now apply copied_dest.
  - rewrite read_copied by (assumption || eapply read_depth; eauto).
    rewrite clone_canonical by assumption.
    unfold positional. now destruct (is_group_type (st_type d)).
Qed.

Lemma copy_creates_clone_witness :
  exists h',
    config_setting_copy 6 (Some 4) (Some 1) example_heap = Done true h'
    /\ h' !! 4 = Some (add_elem (setting (Some "d"%string) CONFIG_TYPE_GROUP
                                   CONFIG_FORMAT_DEFAULT (Vlist []) (Some 0))
                         7)
    /\ read 3 h' 7 = Some (example_tree, [7; 8; 9; 10; 11]).
Proof.
  apply (copy_creates_clone 3 6 example_heap 4 1
           (setting (Some "d"%string) CONFIG_TYPE_GROUP
              CONFIG_FORMAT_DEFAULT (Vlist []) (Some 0))
           example_tree [1; 2; 3; 5; 6]).
  - reflexivity.
  - reflexivity.
  - reflexivity.
  - vm_compute. intros H. repeat (apply elem_of_cons in H as [H|H];
      [discriminate H|]). now apply elem_of_nil in H.
  - reflexivity.
  - reflexivity.
  - reflexivity.
  - lia.
Defined.

(** C1 as stated fails for a list destination: the copy of the named
    integer [x] made under the list [l] has no name. *)
Lemma copy_into_list_counterexample :
  exists h' t t',
    config_setting_copy 2 (Some 3) (Some 2) example_heap = Done true h'
    /\ read 1 example_heap 2 = Some (t, [2])
    /\ read 1 h' 7 = Some (t', [7])
    /\ t_name t = Some "x"%string /\ t_name t' = None /\ t' <> t.
Proof.
  do 3 eexists. repeat split; try reflexivity. discriminate.
Qed.

(** C2 (amended).  For every destination that is neither a group nor a
    list and every source, [config_setting_copy] returns false and leaves
    the heap, hence both trees, as it was.  For a destination that is a
    group or a list every call that returns returns true, and the call
    does return when the source subtree satisfies the invariants of the
    data model, does not contain the destination, and the destination
    accepts its root. *)
Theorem copy_guard (fuel : nat) (h : heap) (dst : ptr)
    (src : option ptr) (d : config_setting_t) :
  h !! dst = Some d ->
  (is_group_type (st_type d) || is_list_type (st_type d) = false ->
   config_setting_copy fuel (Some dst) src h = Done false h)
  /\ (is_group_type (st_type d) || is_list_type (st_type d) = true ->
      (forall r h',
          config_setting_copy fuel (Some dst) src h = Done r h' -> r = true)
      /\ (forall n s t ps,
             src = Some s -> read n h s = Some (t, ps) ->
             well_formed t = true -> dst ∉ ps ->
             accepts h d (t_name t) (t_type t) = true -> 2 * n <= fuel ->
             exists h',
               config_setting_copy fuel (Some dst) src h = Done true h')).
Proof.
  intros Hd. split; [|intros Hty; split].
  - intros Hty.
    unfold config_setting_copy, config_setting_is_group,
      config_setting_is_list.
    run_accessors Hd.
    destruct (is_group_type (st_type d)), (is_list_type (st_type d));
      (discriminate Hty || reflexivity).
  - intros r h'.
    unfold config_setting_copy, config_setting_is_group,
      config_setting_is_list.
    run_accessors Hd.
    replace (negb (is_group_type (st_type d))
             && negb (is_list_type (st_type d))) with false
      by (destruct (is_group_type (st_type d)), (is_list_type (st_type d));
          (discriminate Hty || reflexivity)).
    intros H.
    apply bind_inv in H as (agg & h1 & _ & H).
    apply bind_inv in H as (u & h2 & _ & H).
    now injection H.
  - intros n s t ps -> Hr Hwf Hdst Hacc Hfuel.
    exists (copied h dst d t). eapply copy_correct; eauto.
Qed.

Lemma copy_guard_witness :
  config_setting_copy 0 (Some 2) (Some 1) example_heap
  = Done false example_heap
  /\ exists h',
       config_setting_copy 6 (Some 4) (Some 1) example_heap = Done true h'.
Proof.
  split.
  - apply (proj1 (copy_guard 0 example_heap 2 (Some 1)
                    (setting (Some "x"%string) CONFIG_TYPE_INT
                       CONFIG_FORMAT_HEX (Vint 5%Z) (Some 1)) eq_refl)).
    reflexivity.
  - refine (proj2 (proj2 (copy_guard 6 example_heap 4 (Some 1)
                            (setting (Some "d"%string) CONFIG_TYPE_GROUP
                               CONFIG_FORMAT_DEFAULT (Vlist []) (Some 0))
                            eq_refl) eq_refl)
              3 1 example_tree [1; 2; 3; 5; 6]
              eq_refl eq_refl eq_refl _ eq_refl _).
    + intros H. repeat (apply elem_of_cons in H as [H|H];
        [discriminate H|]). now apply elem_of_nil in H.
    + vm_compute. lia.
Defined.

(** C2 as stated fails for the empty group [d] copied into itself: the
    destination is a group, and no amount of fuel makes the call return. *)
Lemma copy_into_itself_counterexample :
  ~ exists fuel h',
      config_setting_copy fuel (Some 4) (Some 4) example_heap = Done true h'.
Proof.
  intros (fuel & h' & H).
  rewrite (self_copy_never_returns fuel example_heap 4
             (setting (Some "d"%string) CONFIG_TYPE_GROUP
                CONFIG_FORMAT_DEFAULT (Vlist []) (Some 0))) in H
    by reflexivity.
  discriminate H.
Qed.

(** C3.  [config_setting_copy_aggregate] creates the copy of the aggregate
    and then copies each element in order, through
    [config_setting_copy_simple] when the source is a group and through
    [config_setting_copy_elem] when it is a list or an array.  In the copy
    that results, at every depth the elements of a group carry the names of
    the originals and the elements of a list or an array carry none. *)
Theorem copy_dispatch_by_source_kind (n fuel : nat) (h : heap)
    (dst src : ptr) (d : config_setting_t) (t : tree) (ps : list ptr) :
  read n h src = Some (t, ps) -> well_formed t = true ->
  dst ∉ ps -> h !! dst = Some d ->
  is_group_type (st_type d) || is_list_type (st_type d) = true ->
  accepts h d (t_name t) (t_type t) = true ->
  2 * n <= fuel ->
  (forall parent,
      config_setting_copy_aggregate (S fuel) parent (Some src)
      = (name <- config_setting_name (Some src) ;;
         ty <- config_setting_type (Some src) ;;
         newAgg <- config_setting_add parent name ty ;;
         len <- config_setting_length (Some src) ;;
         for_loop len 0
           (fun i =>
              grp <- config_setting_is_group (Some src) ;;
              e <- config_setting_get_elem (Some src) i ;;
              if grp then config_setting_copy_simple fuel newAgg e
              else config_setting_copy_elem fuel newAgg e)))
  /\ exists h' t',
       config_setting_copy fuel (Some dst) (Some src) h = Done true h'
       /\ read n h' (length h) = Some (t', seq (length h) (tree_size t))
       /\ names_follow_kind t t' = true
       /\ (forall i c c',
              t_children t !! i = Some c -> t_children t' !! i = Some c' ->
              t_name c'
              = if is_group_type (t_type t) then t_name c else None).
Proof.
  intros Hr Hwf Hdst Hd Hty Hacc Hfuel.
  split; [reflexivity|].
  exists (copied h dst d t), (clone (positional d) t).
  split; [eapply copy_correct; eauto|].
  split; [apply read_copied; (assumption || eapply read_depth; eauto)|].
  split; [apply names_follow_kind_clone|].
  intros i c c' Hc Hc'. destruct t as [name ty fmt v cs].
  cbn [clone t_children t_type] in *.
  rewrite lookup_map, Hc in Hc'. injection Hc' as <-.
  rewrite clone_name. now destruct (is_group_type ty).
Qed.

Lemma copy_dispatch_by_source_kind_witness :
  exists h' t',
    config_setting_copy 6 (Some 2) (Some 1) example_list_heap = Done true h'
    /\ read 3 h' 5 = Some (t', [5; 6; 7])
    /\ names_follow_kind example_list_tree t' = true.
Proof.
  destruct (copy_dispatch_by_source_kind 3 6 example_list_heap 2 1
              (setting (Some "d"%string) CONFIG_TYPE_GROUP
                 CONFIG_FORMAT_DEFAULT (Vlist []) (Some 0))
              example_list_tree [1; 3; 4]
              eq_refl eq_refl
              ltac:(intros H;
                    repeat (apply elem_of_cons in H as [H|H];
                            [discriminate H|]);
                    now apply elem_of_nil in H)
              eq_refl eq_refl eq_refl ltac:(vm_compute; lia))
    as (_ & h' & t' & Hc & Hr & Hn & _).
  exists h', t'. repeat split; assumption.
Defined.

(** C10 (amended).  For every call of [config_setting_copy], and of each of
    its three helpers, whose destination is not a setting of the source
    subtree, every setting of the source subtree is the same after the call
    as before it, whatever the call returns, so the same tree is read from
    the source.  Such a call does return when the source subtree satisfies
    the invariants of the data model and the destination is a group or a
    list that accepts its root. *)
Theorem copy_preserves_source (n fuel : nat) (h : heap) (dst src : ptr)
    (t : tree) (ps : list ptr) :
  read n h src = Some (t, ps) -> dst ∉ ps ->
  (forall r h',
      config_setting_copy fuel (Some dst) (Some src) h = Done r h' ->
      unchanged ps h h' /\ read n h' src = Some (t, ps))
  /\ (forall h',
         config_setting_copy_simple fuel (Some dst) (Some src) h
         = Done tt h' ->
         unchanged ps h h' /\ read n h' src = Some (t, ps))
  /\ (forall h',
         config_setting_copy_elem fuel (Some dst) (Some src) h
         = Done tt h' ->
         unchanged ps h h' /\ read n h' src = Some (t, ps))
  /\ (forall h',
         config_setting_copy_aggregate fuel (Some dst) (Some src) h
         = Done tt h' ->
         unchanged ps h h' /\ read n h' src = Some (t, ps))
  /\ (forall d,
         h !! dst = Some d -> well_formed t = true ->
         is_group_type (st_type d) || is_list_type (st_type d) = true ->
         accepts h d (t_name t) (t_type t) = true -> 2 * n <= fuel ->
         exists h',
           config_setting_copy fuel (Some dst) (Some src) h = Done true h').
Proof.
  intros Hr Hdst.
  assert (Hframe : forall h', frame_ok (length h) (Some dst) h h' ->
                     unchanged ps h h' /\ read n h' src = Some (t, ps)).
  { intros h' [_ Hf].
    assert (Hu : unchanged ps h h').
    { intros p Hp. apply Hf.
      - eapply read_allocated; eauto.
      - intros [= ->]. now apply Hdst. }
    split; [exact Hu|]. eapply read_frame; eauto. }
  assert (Hw : writable (length h) (Some dst) (Some dst)) by now left.
  destruct (copy_frames (length h) (Some dst) fuel (Some dst) (Some src) Hw)
    as (Hs & He & Ha).
  split; [|split; [|split; [|split]]].
  - intros r h' H. apply Hframe.
    now apply (copy_frame_top (length h) fuel (Some dst) (Some src) h r h').
  - intros h' H. apply Hframe. now apply (Hs h tt h').
  - intros h' H. apply Hframe. now apply (He h tt h').
  - intros h' H. apply Hframe. now apply (Ha h tt h').
  - intros d Hd Hwf Hty Hacc Hfuel.
    exists (copied h dst d t). eapply copy_correct; eauto.
Qed.

Lemma copy_preserves_source_witness :
  exists h',
    config_setting_copy 6 (Some 4) (Some 1) example_heap = Done true h'
    /\ read 3 h' 1 = Some (example_tree, [1; 2; 3; 5; 6]).
Proof.
  destruct (copy_preserves_source 3 6 example_heap 4 1 example_tree
              [1; 2; 3; 5; 6] eq_refl
              ltac:(intros H;
                    repeat (apply elem_of_cons in H as [H|H];
                            [discriminate H|]);
                    now apply elem_of_nil in H))
    as (Hcopy & _ & _ & _ & Hret).
  destruct (Hret (setting (Some "d"%string) CONFIG_TYPE_GROUP
                    CONFIG_FORMAT_DEFAULT (Vlist []) (Some 0))
              eq_refl eq_refl eq_refl eq_refl ltac:(vm_compute; lia))
    as [h' Hc].
  exists h'. split; [exact Hc|]. exact (proj2 (Hcopy true h' Hc)).
Defined.

(** C10 as stated fails for the empty group [d] copied into itself: the
    first thing the call does is to add the copy to the source, which
    changes its element list, and the call does not return. *)
Lemma copy_into_itself_changes_source :
  (exists h1,
      config_setting_add (Some 4) (Some "d"%string) CONFIG_TYPE_GROUP
        example_heap = Done (Some 7) h1
      /\ elements_of <$> example_heap !! 4 = Some []
      /\ elements_of <$> h1 !! 4 = Some [7])
  /\ ~ exists fuel r h',
         config_setting_copy fuel (Some 4) (Some 4) example_heap
         = Done r h'.
Proof.
  split.
  - eexists. repeat split; reflexivity.
  - intros (fuel & r & h' & H).
    rewrite (self_copy_never_returns fuel example_heap 4
               (setting (Some "d"%string) CONFIG_TYPE_GROUP
                  CONFIG_FORMAT_DEFAULT (Vlist []) (Some 0))) in H
      by reflexivity.
    discriminate H.
Qed.

(** * Further properties *)

Local Open Scope string_scope.
Local Open Scope Z_scope.

(** X1.  A hexadecimal literal [0x...] that is made of hexadecimal digits
    to its end is read alike by [libconfig_parse_integer] and
    [libconfig_parse_hex64] while its value is below [2^63].  From [2^63]
    on [libconfig_parse_integer] fails, and [libconfig_parse_hex64] still
    returns the value (up to [2^64 - 1]), which is negative once it is
    taken as an [int64_t]. *)
Theorem hex_literal_parsers (mingw : bool) (x : ascii) (body : string) :
  x = "x"%char \/ x = "X"%char ->
  leading_digits 16 body <> [] -> at_end (drop_digits 16 body) = true ->
  (exact_value 16 body < two63 ->
   libconfig_parse_integer (String "0" (String x body))
   = (exact_value 16 body, true)
   /\ libconfig_parse_hex64 mingw (String "0" (String x body))
      = exact_value 16 body)
  /\ (two63 <= exact_value 16 body ->
      libconfig_parse_integer (String "0" (String x body)) = (0, false))
  /\ (two63 <= exact_value 16 body < two64 ->
      libconfig_parse_hex64 mingw (String "0" (String x body))
      = exact_value 16 body
      /\ sint64 (exact_value 16 body) = exact_value 16 body - two64).
Proof.
  intros Hx Hd He. pose proof (exact_value_nonneg 16 body) as Hnn.
  rewrite (parse_integer_hex_literal x body Hx Hd), He. cbn [andb].
  split; [|split].
  - intros Hv. split.
    + now apply Z.ltb_lt in Hv as ->.
    + apply parse_hex64_prefixed; [assumption|unfold two63, two64 in *; lia].
  - intros Hv. now apply Z.ltb_ge in Hv as ->.
  - intros [Hlo Hhi]. split.
    + now apply parse_hex64_prefixed.
    + unfold sint64. rewrite wrap64_small by lia.
      now apply Z.ltb_ge in Hlo as ->.
Qed.

Lemma hex_literal_parsers_witness :
  libconfig_parse_integer "0x7fffffffffffffff" = (two63 - 1, true)
  /\ libconfig_parse_hex64 true "0x7fffffffffffffff" = two63 - 1
  /\ libconfig_parse_integer "0X8000000000000000" = (0, false)
  /\ libconfig_parse_hex64 false "0X8000000000000000" = two63.
Proof.
  pose proof (hex_literal_parsers true "x" "7fffffffffffffff"
                (or_introl eq_refl) ltac:(discriminate) eq_refl)
    as (H1 & _ & _).
  pose proof (hex_literal_parsers false "X" "8000000000000000"
                (or_intror eq_refl) ltac:(discriminate) eq_refl)
    as (_ & H2 & H3).
  split; [|split; [|split]].
  - exact (proj1 (H1 eq_refl)).
  - exact (proj2 (H1 eq_refl)).
  - apply H2. discriminate.
  - apply H3. split; [discriminate|reflexivity].
Defined.

(** X2.  [libconfig_parse_integer] reads back the decimal numeral of every
    integer of the [long long] range, [-2^63] and [2^63 - 1] included: the
    result is the integer and [ok] is true. *)
Theorem parse_integer_reads_decimal (n : Z) :
  - two63 <= n < two63 ->
  libconfig_parse_integer (signed_decimal n) = (n, true).
Proof.
  intros Hn. unfold signed_decimal.
  destruct (Z.ltb_spec n 0) as [Hneg|Hpos].
  - destruct (decimal_positive (- n) ltac:(lia)) as (c & r & E & Hd & Hc & Hdr & Hv).
    rewrite E in *.
    pose proof (parse_integer_digits true c r Hd Hc Hdr) as H.
    cbv zeta in H. rewrite Hv in H.
    replace (- - n) with n in H by lia. apply H. lia.
  - destruct (Z.eq_dec n 0) as [->|Hnz]; [reflexivity|].
    destruct (decimal_positive n ltac:(lia)) as (c & r & E & Hd & Hc & Hdr & Hv).
    rewrite E in *.
    pose proof (parse_integer_digits false c r Hd Hc Hdr) as H.
    cbv zeta in H. rewrite Hv in H. apply H. lia.
Qed.

Lemma parse_integer_reads_decimal_witness :
  libconfig_parse_integer (signed_decimal (- two63)) = (- two63, true).
Proof.
  apply parse_integer_reads_decimal. split; [reflexivity|reflexivity].
Defined.

(** X3.  Without [__MINGW32__], [libconfig_parse_hex64] is [strtoull]: white
    space before the literal is skipped, and a sign before it is honoured,
    a minus sign giving the value negated modulo [2^64].  With
    [__MINGW32__] the same texts give 0, their first character not being
    ['0']. *)
Theorem parse_hex64_space_and_sign (c sg x : ascii) (body : string) :
  Libc.isspace c = true ->
  sg = "-"%char \/ sg = "+"%char ->
  x = "x"%char \/ x = "X"%char ->
  leading_digits 16 body <> [] -> exact_value 16 body < two64 ->
  let literal := String "0" (String x body) in
  libconfig_parse_hex64 false (String c literal)
  = libconfig_parse_hex64 false literal
  /\ libconfig_parse_hex64 false (String c (String sg literal))
     = wrap64 (if code sg =? 45 then - exact_value 16 body
               else exact_value 16 body)
  /\ libconfig_parse_hex64 true (String c literal) = 0
  /\ libconfig_parse_hex64 true (String sg literal) = 0.
Proof.
  intros Hc Hs Hx Hd Hv literal. unfold libconfig_parse_hex64.
  split; [|split; [|split]].
  - now apply strtoull_space.
  - rewrite strtoull_space by assumption. now apply strtoull_hex_signed.
  - cbn [deref]. 
    assert ((code c =? 48) = false) as ->
      by (revert Hc; clear; all_ascii c; (discriminate || reflexivity)).
    reflexivity.
  - cbn [deref]. destruct Hs as [-> | ->]; reflexivity.
Qed.

Lemma parse_hex64_space_and_sign_witness :
  libconfig_parse_hex64 false " 0x1F" = libconfig_parse_hex64 false "0x1F"
  /\ libconfig_parse_hex64 false " -0x1F" = wrap64 (- 31)
  /\ libconfig_parse_hex64 true " 0x1F" = 0
  /\ libconfig_parse_hex64 true "-0x1F" = 0.
Proof.
  apply (parse_hex64_space_and_sign " " "-" "x" "1F").
  - reflexivity.
  - now left.
  - now left.
  - discriminate.
  - reflexivity.
Defined.

(** X4.  Without [__MINGW32__], [libconfig_parse_bin64] reads from [s + 2]
    whatever [s] holds: for a text of fewer than two characters that is
    past its end and there is no result, where the MinGW code returns 0.
    For a text of two characters or more both builds return a value of the
    unsigned 64-bit range. *)
Theorem parse_bin64_short_text (mingw : bool) (s : string) :
  ((String.length s < 2)%nat ->
   libconfig_parse_bin64 false s = None
   /\ libconfig_parse_bin64 true s = Some 0)
  /\ ((2 <= String.length s)%nat ->
      exists v, libconfig_parse_bin64 mingw s = Some v /\ 0 <= v < two64).
Proof.
  split.
  - intros Hl. destruct s as [|a [|b r]]; cbn [String.length] in Hl; try lia.
    + now split.
    + split; [reflexivity|].
      unfold libconfig_parse_bin64. cbn [deref advance].
      destruct (negb (code a =? 48)); reflexivity.
  - intros Hl. destruct s as [|a [|b r]]; cbn [String.length] in Hl; try lia.
    destruct mingw.
    + unfold libconfig_parse_bin64. cbn [deref advance].
      destruct (negb (code a =? 48));
        [exists 0; split; [reflexivity|unfold two64; lia]|].
      destruct (negb (code b =? 98) && negb (code b =? 66));
        [exists 0; split; [reflexivity|unfold two64; lia]|].
      eexists. split; [reflexivity|].
      rewrite bin_loop_spec by (unfold two64; lia).
      apply Z.mod_pos_bound. reflexivity.
    + eexists. split; [reflexivity|]. apply strtoull_range.
Qed.

Lemma parse_bin64_short_text_witness :
  (libconfig_parse_bin64 false "0" = None
   /\ libconfig_parse_bin64 true "0" = Some 0)
  /\ exists v, libconfig_parse_bin64 false "0b" = Some v /\ 0 <= v < two64.
Proof.
  split.
  - apply (proj1 (parse_bin64_short_text false "0")). cbn. lia.
  - apply (proj2 (parse_bin64_short_text false "0b")). cbn. lia.
Defined.

(** X5.  Where [clzl] counts over 64 bits, the text [libconfig_format_bin]
    writes for a nonzero value into a buffer of more than 64 bytes, put
    after [0b], is read back by [libconfig_parse_bin64] in either build as
    the two's complement pattern of the value, which as an [int64_t] is the
    value. *)
Theorem format_bin_then_parse (b : build) (mingw : bool) (fuel : nat)
    (val buflen : Z) :
  gnuc b = false \/ ulong_bits b = 64 ->
  val <> 0 -> - two63 <= val < two63 ->
  64 < buflen < two64 -> (64 <= fuel)%nat ->
  exists out,
    libconfig_format_bin b fuel val buflen = Some out
    /\ libconfig_parse_bin64 mingw ("0b" ++ out) = Some (wrap64 val)
    /\ sint64 (wrap64 val) = val.
Proof.
  intros Hb Hnz Hv Hlen Hf.
  destruct (wrap64_log2 val Hnz Hv) as [Hu _].
  exists (minimal_binary (wrap64 val)). split; [|split].
  - rewrite format_bin_spec by assumption.
    rewrite (wrap64_small (buflen - 1)) by lia. f_equal.
    apply string_take_minimal_binary; (assumption || lia).
  - change ("0b" ++ minimal_binary (wrap64 val))
      with (String "0" (String "b" (minimal_binary (wrap64 val)))).
    rewrite parse_bin64_prefixed.
    + now rewrite minimal_binary_value.
    + now apply minimal_binary_digits.
    + rewrite minimal_binary_value by assumption.
      apply Z.mod_pos_bound. reflexivity.
  - now apply sint64_wrap64.
Qed.

Lemma format_bin_then_parse_witness :
  exists out,
    libconfig_format_bin portable 64 (-6) 65 = Some out
    /\ libconfig_parse_bin64 false ("0b" ++ out) = Some (wrap64 (-6))
    /\ sint64 (wrap64 (-6)) = -6.
Proof.
  apply (format_bin_then_parse portable false 64 (-6) 65).
  - now left.
  - discriminate.
  - split; [discriminate|reflexivity].
  - split; reflexivity.
  - apply le_n.
Defined.

(** X6.  The other way round: a binary numeral of at most 64 digits that
    begins with [1], read by [libconfig_parse_bin64] after [0b] and written
    by [libconfig_format_bin] into a buffer of more than 64 bytes, comes
    back unchanged. *)
Theorem parse_bin_then_format (b : build) (mingw : bool) (fuel : nat)
    (digits : string) (buflen : Z) :
  gnuc b = false \/ ulong_bits b = 64 ->
  is_binary digits = true -> deref digits = "1"%char ->
  (String.length digits <= 64)%nat ->
  64 < buflen < two64 -> (64 <= fuel)%nat ->
  exists u,
    libconfig_parse_bin64 mingw ("0b" ++ digits) = Some u
    /\ libconfig_format_bin b fuel (sint64 u) buflen = Some digits.
Proof.
  intros Hb Hbin Hh Hl Hlen Hf.
  destruct (minimal_binary_of_binary digits Hbin Hh) as [Hm Hr].
  assert (Hp : 0 < 2 ^ (Z.of_nat (String.length digits) - 1)).
  { apply Z.pow_pos_nonneg; [lia|].
    destruct digits; [discriminate Hh|cbn [String.length]; lia]. }
  assert (Hu : 0 < exact_value 2 digits < two64).
  { split; [lia|]. eapply Z.lt_le_trans; [apply Hr|].
    unfold two64. apply Z.pow_le_mono_r; lia. }
  exists (exact_value 2 digits). split.
  - change ("0b" ++ digits) with (String "0" (String "b" digits)).
    apply parse_bin64_prefixed; [|lia].
    destruct digits as [|c r]; [discriminate Hh|].
    cbn [deref] in Hh. subst c. discriminate.
  - pose proof (sint64_range (exact_value 2 digits)) as Hs.
    assert (Hw : wrap64 (sint64 (exact_value 2 digits)) = exact_value 2 digits)
      by (apply wrap64_sint64; lia).
    rewrite format_bin_spec; try assumption.
    + rewrite (wrap64_small (buflen - 1)) by lia. rewrite Hw, Hm.
      f_equal. apply string_take_all. lia.
    + intros E. rewrite E in Hw. change (wrap64 0) with 0 in Hw. lia.
Qed.

Lemma parse_bin_then_format_witness :
  exists u,
    libconfig_parse_bin64 true ("0b" ++ "1001") = Some u
    /\ libconfig_format_bin lp64_gcc 64 (sint64 u) 65 = Some "1001".
Proof.
  apply (parse_bin_then_format lp64_gcc true 64 "1001" 65).
  - now right.
  - reflexivity.
  - reflexivity.
  - cbn. lia.
  - split; reflexivity.
  - apply le_n.
Defined.

(** X7.  In every build, whatever [clzl] returned, the text
    [libconfig_format_bin] writes into a buffer of at least one byte is
    shorter than the buffer, so that the terminating NUL fits, is at most
    64 characters long and holds only ['0'] and ['1']. *)
Theorem format_bin_within_buffer (b : build) (fuel : nat) (val buflen : Z)
    (out : string) :
  1 <= buflen < two64 ->
  libconfig_format_bin b fuel val buflen = Some out ->
  Z.of_nat (String.length out) < buflen
  /\ (String.length out <= 64)%nat
  /\ is_binary out = true.
Proof.
  intros Hlen H. unfold libconfig_format_bin in H.
  destruct (clzl b fuel val) as [c|]; [|discriminate H].
  apply (inj Some) in H. subst out. rewrite wrap64_small by lia.
  destruct (format_bin_loop_bounds 64 val (buflen - 1) c 0) as (H1 & H2 & H3).
  specialize (H2 ltac:(lia)).
  split; [lia|]. split; [exact H1|exact H3].
Qed.

Lemma format_bin_within_buffer_witness :
  Z.of_nat (String.length "0000000") < 8
  /\ (String.length "0000000" <= 64)%nat
  /\ is_binary "0000000" = true.
Proof.
  apply (format_bin_within_buffer ilp32_gcc 0 5 8 "0000000").
  - split; [discriminate|reflexivity].
  - reflexivity.
Defined.

(** X8.  The ends of the buffer range, for a nonzero value where [clzl]
    counts over 64 bits.  A buffer of one byte receives the empty text.
    For [buflen = 0] the bound [buflen - 1] of the loop wraps to
    [SIZE_MAX]: the whole numeral, at least one character, is written to a
    buffer that has no room at all. *)
Theorem format_bin_buffer_edges (b : build) (fuel : nat) (val : Z) :
  gnuc b = false \/ ulong_bits b = 64 ->
  val <> 0 -> - two63 <= val < two63 -> (64 <= fuel)%nat ->
  libconfig_format_bin b fuel val 1 = Some ""
  /\ libconfig_format_bin b fuel val 0 = Some (minimal_binary (wrap64 val))
  /\ (0 < String.length (minimal_binary (wrap64 val)))%nat.
Proof.
  intros Hb Hnz Hv Hf. rewrite !format_bin_spec by assumption.
  destruct (wrap64_log2 val Hnz Hv) as [Hu _].
  split; [reflexivity|]. split.
  - f_equal. apply string_take_minimal_binary; try assumption.
    change (wrap64 (0 - 1)) with (two64 - 1). unfold two64. lia.
  - pose proof (minimal_binary_head _ Hu) as Hh.
    destruct (minimal_binary (wrap64 val)); [discriminate Hh|cbn; lia].
Qed.

Lemma format_bin_buffer_edges_witness :
  libconfig_format_bin lp64_gcc 64 5 1 = Some ""
  /\ libconfig_format_bin lp64_gcc 64 5 0 = Some (minimal_binary (wrap64 5))
  /\ (0 < String.length (minimal_binary (wrap64 5)))%nat.
Proof.
  apply (format_bin_buffer_edges lp64_gcc 64 5).
  - now right.
  - discriminate.
  - split; [discriminate|reflexivity].
  - apply le_n.
Defined.

(** X9.  Built without [__GNUC__], [libconfig_format_bin] does not return
    for the value 0.  In the [clzl] of [util.c], [check] starts at
    [1ll << 63] and is shifted right as a signed number, so it never
    becomes 0 and, no bit of 0 being set, the loop does not end with any
    amount of fuel. *)
Theorem format_bin_zero (fuel : nat) (ulong : Z) (buflen : Z) :
  clzl {| gnuc := false; ulong_bits := ulong |} fuel 0 = None
  /\ libconfig_format_bin {| gnuc := false; ulong_bits := ulong |}
       fuel 0 buflen = None.
Proof.
  assert (H : clzl_portable fuel 0 = None).
  { unfold clzl_portable. apply clzl_loop_zero.
    split; [discriminate|reflexivity]. }
  unfold libconfig_format_bin, clzl. cbn [gnuc].
  now rewrite H.
Qed.

(** X10.  For a nonzero [int64_t] the [clzl] of [util.c] ends within 64
    iterations and returns the number [c] of leading zero bits of the
    64-bit pattern of the value, i.e. [2^(63-c) <= pattern < 2^(64-c)];
    [__builtin_clzl] on a 64-bit [unsigned long] returns the same
    number. *)
Theorem clzl_leading_zeros (fuel : nat) (val : Z) :
  val <> 0 -> - two63 <= val < two63 -> (64 <= fuel)%nat ->
  exists c,
    clzl portable fuel val = Some c
    /\ clzl lp64_gcc fuel val = Some c
    /\ 0 <= c <= 63
    /\ 2 ^ (63 - c) <= wrap64 val < 2 ^ (64 - c).
Proof.
  intros Hnz Hv Hf. destruct (wrap64_log2 val Hnz Hv) as [Hu Hl].
  exists (63 - Z.log2 (wrap64 val)). split; [|split; [|split]].
  - now apply clzl_portable_spec.
  - now apply builtin_clzl_spec.
  - lia.
  - replace (63 - (63 - Z.log2 (wrap64 val))) with (Z.log2 (wrap64 val)) by ring.
    replace (64 - (63 - Z.log2 (wrap64 val)))
      with (Z.succ (Z.log2 (wrap64 val))) by ring.
    now apply Z.log2_spec.
Qed.

Lemma clzl_leading_zeros_witness :
  exists c,
    clzl portable 64 5 = Some c /\ clzl lp64_gcc 64 5 = Some c
    /\ 0 <= c <= 63 /\ 2 ^ (63 - c) <= wrap64 5 < 2 ^ (64 - c).
Proof.
  apply (clzl_leading_zeros 64 5).
  - discriminate.
  - split; [discriminate|reflexivity].
  - apply le_n.
Defined.

(** X11.  The text [libconfig_format_double] leaves in a buffer of at least
    four bytes is at least two characters shorter than the buffer, for
    every conversion [%.*g]: the three bytes held back from [snprintf] make
    room for the [".0"] that may be appended and for the NUL. *)
Theorem format_double_within_buffer (printf_g : Z -> double -> string)
    (val : double) (precision : Z) (sci_ok : bool) (buflen : Z)
    (out : string) :
  4 <= buflen < two64 ->
  libconfig_format_double printf_g val precision sci_ok buflen = Some out ->
  Z.of_nat (String.length out) + 2 <= buflen.
Proof.
  intros Hlen H. unfold libconfig_format_double in H.
  destruct (Z.ltb_spec buflen 4); [lia|].
  rewrite wrap64_small in H by lia.
  set (text := snprintf_double printf_g (buflen - 3) sci_ok precision val) in *.
  assert (Ht : Z.of_nat (String.length text) <= buflen - 4).
  { unfold text, snprintf_double. rewrite string_take_length. lia. }
  destruct (strchr text "e") as [i|]; [injection H as <-; lia|].
  destruct (strchr text ".") as [p|] eqn:Hp.
  - injection H as <-.
    destruct (strip_zeros_spec (String.length text) text p (le_n _)
                ltac:(apply strchr_bound in Hp; lia)) as ([k Hk] & _).
    apply (f_equal String.length) in Hk.
    rewrite string_app_length in Hk. lia.
  - injection H as <-. rewrite string_app_length. cbn [String.length]. lia.
Qed.

Lemma format_double_within_buffer_witness :
  Z.of_nat (String.length "100.0") + 2 <= 10.
Proof.
  apply (format_double_within_buffer (fun _ _ => "") double_100 2 false 10).
  - split; [discriminate|reflexivity].
  - reflexivity.
Defined.

(** X12.  After [libconfig_set_fatal_error_func(NULL)], whatever was
    installed before, the library's handler is in place.  Then each of
    [libconfig_malloc], [libconfig_calloc] and [libconfig_realloc] returns
    the pointer of a successful allocation and leaves the process as it
    was; on a failed allocation it writes the failure message to file
    descriptor 2 and aborts.  None of them ever returns a null pointer. *)
Theorem allocation_with_library_handler (returns : nat -> bool)
    (malloc : Z -> option nat) (calloc : Z -> Z -> option nat)
    (realloc : option nat -> Z -> option nat)
    (p : process) (ptr : option nat) (nmemb size : Z) :
  let q := {| __libconfig_fatal_error_func := library_handler;
              events := events p |} in
  let failed :=
    Ends (emit q [posix_write 2 __libconfig_malloc_failure_message; abort]) in
  libconfig_set_fatal_error_func None p = Returns tt q
  /\ libconfig_malloc returns malloc size q
     = match malloc size with
       | Some a => Returns (Some a) q
       | None => failed
       end
  /\ libconfig_calloc returns calloc nmemb size q
     = match calloc nmemb size with
       | Some a => Returns (Some a) q
       | None => failed
       end
  /\ libconfig_realloc returns realloc ptr size q
     = match realloc ptr size with
       | Some a => Returns (Some a) q
       | None => failed
       end
  /\ (forall r, libconfig_malloc returns malloc size q <> Returns None r)
  /\ (forall r, libconfig_calloc returns calloc nmemb size q
                <> Returns None r)
  /\ (forall r, libconfig_realloc returns realloc ptr size q
                <> Returns None r).
Proof.
  intros q failed.
  unfold libconfig_malloc, libconfig_calloc, libconfig_realloc.
  split; [reflexivity|].
  destruct (malloc size), (calloc nmemb size), (realloc ptr size);
    repeat split; try reflexivity; intros r; discriminate.
Qed.

(** X13.  After [libconfig_set_fatal_error_func(f)] with a function [f] of
    the application, a failed allocation in [libconfig_malloc],
    [libconfig_calloc] or [libconfig_realloc] calls [f] once with the
    failure message and nothing is written or aborted by the library; if
    [f] returns, the wrapper returns the null pointer to its caller.  A
    successful allocation calls nothing. *)
Theorem allocation_with_application_handler (returns : nat -> bool)
    (malloc : Z -> option nat) (calloc : Z -> Z -> option nat)
    (realloc : option nat -> Z -> option nat)
    (p : process) (f : nat) (ptr : option nat) (nmemb size : Z) :
  let q := {| __libconfig_fatal_error_func := application_handler f;
              events := events p |} in
  let failed :=
    let q' := emit q [called f __libconfig_malloc_failure_message] in
    if returns f then Returns None q' else Ends q' in
  libconfig_set_fatal_error_func (Some (application_handler f)) p
  = Returns tt q
  /\ libconfig_malloc returns malloc size q
     = match malloc size with
       | Some a => Returns (Some a) q
       | None => failed
       end
  /\ libconfig_calloc returns calloc nmemb size q
     = match calloc nmemb size with
       | Some a => Returns (Some a) q
       | None => failed
       end
  /\ libconfig_realloc returns realloc ptr size q
     = match realloc ptr size with
       | Some a => Returns (Some a) q
       | None => failed
       end.
Proof.
  intros q failed.
  unfold libconfig_malloc, libconfig_calloc, libconfig_realloc, failed,
    checked, libconfig_fatal_error.
  cbn [__libconfig_fatal_error_func q].
  split; [reflexivity|].
  destruct (malloc size), (calloc nmemb size), (realloc ptr size),
    (returns f); repeat split; reflexivity.
Qed.

Local Close Scope string_scope.
Local Close Scope Z_scope.

(** X14.  The predicates of [Setting] that compare [_type] by the order of
    the enumerators pick the right types: [isAggregate] holds of groups,
    arrays and lists only, [isScalar] of the numbers, strings and booleans
    only, no type is both, [TypeNone] alone is neither, and no type is a
    number and a string.  They agree, type for type, with the predicates
    the copier uses on the settings of the C library. *)
Theorem type_predicates (t : Setting.Type_) (ty : setting_type) :
  Setting.isAggregate t
  = Setting.isGroup t || Setting.isArray t || Setting.isList t
  /\ Setting.isScalar t
     = Setting.isNumber t || Setting.isString t
       || Setting.eq t Setting.TypeBoolean
  /\ Setting.isScalar t && Setting.isAggregate t = false
  /\ Setting.isScalar t || Setting.isAggregate t
     = negb (Setting.eq t Setting.TypeNone)
  /\ Setting.isNumber t && Setting.isString t = false
  /\ Setting.isAggregate (Setting.of_setting_type ty) = is_aggregate_type ty
  /\ Setting.isScalar (Setting.of_setting_type ty) = is_scalar_type ty
  /\ Setting.isGroup (Setting.of_setting_type ty) = is_group_type ty
  /\ Setting.isList (Setting.of_setting_type ty) = is_list_type ty
  /\ Setting.isArray (Setting.of_setting_type ty) = is_array_type ty.
Proof. destruct t, ty; repeat split; reflexivity. Qed.

(** X15.  Whatever the heap looks like and however source and destination
    are related, a call of [config_setting_copy] that returns has removed
    no setting and has left every setting that existed before unchanged,
    save the destination itself: it writes only through the destination
    and the settings it allocates. *)
Theorem copy_writes_only_destination (fuel : nat) (dst src : option ptr)
    (h h' : heap) (r : bool) :
  config_setting_copy fuel dst src h = Done r h' ->
  length h <= length h'
  /\ forall p, p < length h -> Some p <> dst -> h' !! p = h !! p.
Proof.
  intros H.
  destruct (copy_frame_top (length h) fuel dst src h r h' (le_n _) H)
    as [[Hl Hf] _].
  now split.
Qed.

Lemma copy_writes_only_destination_witness :
  length example_heap <= 12
  /\ forall p, p < length example_heap -> Some p <> Some 4 ->
               (copied example_heap 4
                  (setting (Some "d"%string) CONFIG_TYPE_GROUP
                     CONFIG_FORMAT_DEFAULT (Vlist []) (Some 0))
                  example_tree) !! p
               = example_heap !! p.
Proof.
  apply (copy_writes_only_destination 6 (Some 4) (Some 1) example_heap
           (copied example_heap 4
              (setting (Some "d"%string) CONFIG_TYPE_GROUP
                 CONFIG_FORMAT_DEFAULT (Vlist []) (Some 0))
              example_tree) true).
  reflexivity.
Defined.

(** X16.  A copy of a well-formed source into a destination that takes it
    allocates exactly as many settings as the source has nodes, the ones
    the copy is read from; none of them is a setting of the source. *)
Theorem copy_allocates_one_setting_per_node (n fuel : nat) (h : heap)
    (dst src : ptr) (d : config_setting_t) (t : tree) (ps : list ptr) :
  read n h src = Some (t, ps) -> well_formed t = true -> dst ∉ ps ->
  h !! dst = Some d ->
  is_group_type (st_type d) || is_list_type (st_type d) = true ->
  accepts h d (t_name t) (t_type t) = true ->
  2 * n <= fuel ->
  exists h' t',
    config_setting_copy fuel (Some dst) (Some src) h = Done true h'
    /\ length h' = length h + tree_size t
    /\ read n h' (length h) = Some (t', seq (length h) (tree_size t))
    /\ tree_size t' = tree_size t
    /\ forall p, p ∈ ps -> p ∉ seq (length h) (tree_size t).
Proof.
  intros Hr Hwf Hdst Hd Hty Hacc Hfuel.
  exists (copied h dst d t), (clone (positional d) t).
  split; [eapply copy_correct; eauto|]. split; [|split; [|split]].
  - unfold copied. rewrite length_app, length_insert, length_layout.
    now rewrite clone_size.
  - apply read_copied; (assumption || eapply read_depth; eauto).
  - apply clone_size.
  - intros p Hp Hq. apply elem_of_seq in Hq.
    pose proof (read_allocated n h src t ps Hr p Hp). lia.
Qed.

Lemma copy_allocates_one_setting_per_node_witness :
  exists h' t',
    config_setting_copy 6 (Some 4) (Some 1) example_heap = Done true h'
    /\ length h' = length example_heap + tree_size example_tree
    /\ read 3 h' (length example_heap)
       = Some (t', seq (length example_heap) (tree_size example_tree))
    /\ tree_size t' = tree_size example_tree
    /\ forall p, p ∈ [1; 2; 3; 5; 6] ->
                 p ∉ seq (length example_heap) (tree_size example_tree).
Proof.
  apply (copy_allocates_one_setting_per_node 3 6 example_heap 4 1
           (setting (Some "d"%string) CONFIG_TYPE_GROUP
              CONFIG_FORMAT_DEFAULT (Vlist []) (Some 0))
           example_tree [1; 2; 3; 5; 6]).
  - reflexivity.
  - reflexivity.
  - intros H. repeat (apply elem_of_cons in H as [H|H];
      [discriminate H|]). now apply elem_of_nil in H.
  - reflexivity.
  - reflexivity.
  - reflexivity.
  - vm_compute. lia.
Defined.

(** X17.  A setting of type [CONFIG_TYPE_NONE] falls through every branch
    of the copy functions.  [config_setting_copy_elem], used for the
    elements of lists and arrays, does nothing at all, so the copy lacks
    the element; [config_setting_copy_simple], used for the elements of
    groups, has already added a setting of that type and name to the
    destination and leaves it without a value. *)
Theorem copy_of_untyped_setting (fuel : nat) (h : heap) (dst src : ptr)
    (d s : config_setting_t) :
  h !! src = Some s -> st_type s = CONFIG_TYPE_NONE ->
  h !! dst = Some d -> accepts h d (st_name s) CONFIG_TYPE_NONE = true ->
  config_setting_copy_elem (S fuel) (Some dst) (Some src) h = Done tt h
  /\ config_setting_copy_simple (S fuel) (Some dst) (Some src) h
     = Done tt
         (<[dst := add_elem d (length h)]> h
          ++ [new_setting (if positional d then None else st_name s)
                CONFIG_TYPE_NONE CONFIG_FORMAT_DEFAULT Vnone dst]).
Proof.
  intros Hs Hty Hd Hacc. split.
  - cbn [config_setting_copy_elem].
    unfold config_setting_is_aggregate, config_setting_type.
    run_accessors Hs. rewrite Hty. cbn [is_aggregate_type].
    run_accessors Hs. rewrite Hty. reflexivity.
  - cbn [config_setting_copy_simple].
    unfold config_setting_is_aggregate, config_setting_type,
      config_setting_name.
    run_accessors Hs. rewrite Hty. cbn [is_aggregate_type].
    run_accessors Hs. rewrite Hty.
    rewrite (bind_done _ _ _ _ _ (add_spec h dst d _ _ Hd Hacc)).
    reflexivity.
Qed.

Lemma copy_of_untyped_setting_witness :
  config_setting_copy_elem 1 (Some 2) (Some 1) example_untyped_heap
  = Done tt example_untyped_heap
  /\ config_setting_copy_simple 1 (Some 2) (Some 1) example_untyped_heap
     = Done tt
         (<[2 := add_elem
                   (setting (Some "l"%string) CONFIG_TYPE_LIST
                      CONFIG_FORMAT_DEFAULT (Vlist []) (Some 0)) 3]>
            example_untyped_heap
          ++ [new_setting None CONFIG_TYPE_NONE CONFIG_FORMAT_DEFAULT
                Vnone 2]).
Proof.
  apply (copy_of_untyped_setting 0 example_untyped_heap 2 1
           (setting (Some "l"%string) CONFIG_TYPE_LIST
              CONFIG_FORMAT_DEFAULT (Vlist []) (Some 0))
           (setting (Some "u"%string) CONFIG_TYPE_NONE
              CONFIG_FORMAT_DEFAULT Vnone (Some 0)));
    reflexivity.
Defined.

(** X18.  Copying a group or a list into itself never returns, whatever its
    content, whenever the first insertion succeeds (the elements of the
    setting exist and, for a named group, none of them bears the name of
    the group): the copy is appended to the source before the elements are
    counted, and the last element to be copied is the copy itself. *)
Theorem copy_into_itself_never_returns (fuel : nat) (h : heap) (q : ptr)
    (sq : config_setting_t) :
  h !! q = Some sq ->
  is_group_type (st_type sq) || is_list_type (st_type sq) = true ->
  accepts h sq (st_name sq) (st_type sq) = true ->
  Forall (fun c => c < length h) (elements_of sq) ->
  forall r h', config_setting_copy fuel (Some q) (Some q) h <> Done r h'.
Proof.
  intros Hs Hk Hacc Hall r h' H.
  pose proof (accepts_self_free h sq Hacc Hall) as Hsf.
  revert H.
  unfold config_setting_copy, config_setting_is_group,
    config_setting_is_list, config_setting_is_aggregate.
  run_accessors Hs.
  replace (negb (is_group_type (st_type sq))
           && negb (is_list_type (st_type sq))) with false
    by (destruct (is_group_type (st_type sq)),
          (is_list_type (st_type sq)); (discriminate Hk || reflexivity)).
  run_accessors Hs.
  assert (Hagg : is_aggregate_type (st_type sq) = true)
    by (destruct (st_type sq); (discriminate Hk || reflexivity)).
  rewrite Hagg. intros H.
  apply bind_inv in H as ([] & h1 & H1 & _).
  exact (proj1 (self_copy_diverges_general fuel h q sq Hs Hk Hsf h1) H1).
Qed.

Lemma copy_into_itself_never_returns_witness :
  ~ exists r h',
      config_setting_copy 100 (Some 1) (Some 1) example_heap = Done r h'.
Proof.
  intros (r & h' & H). revert H.
  apply (copy_into_itself_never_returns 100 example_heap 1
           (setting (Some "g"%string) CONFIG_TYPE_GROUP
              CONFIG_FORMAT_DEFAULT (Vlist [2; 3]) (Some 0))).
  - reflexivity.
  - reflexivity.
  - reflexivity.
  - repeat constructor.
Defined.

